(** * Stroke matcher: a shallow embedding of [stroke_matcher.py]

    The development follows the pipeline of the source:
    [StrokeNormalizer] -> [StrokeFeatureExtractor] -> [FitnessFunction]
    -> [GeneticAlgorithm] -> [ErrorDetector] -> [StrokeMatcher.match].

    Modelling choices.
    - Coordinates, weights, rates and fitness values are real numbers
      ([R]); the rounding of binary64 is not modelled, so "equal up to
      floating point" reads as equality of reals.
    - Python exceptions are values of [exn]; a fallible pure computation
      has type [result A], a computation that also consumes randomness has
      type [Rand A].
    - [np.random] is an oracle: a stream of raw draws with a read position.
      A statement quantified over every [rng] covers every outcome the
      generator can produce.
    - Genes are non-negative by construction (ranges, zeros and
      [randint] draws), so a chromosome is a [list nat].

    The last part of the development proves further properties of the
    same code and of two groups of functions around it: the error
    injection of [test_stroke_matcher_realistic.py] and the
    preprocessing of [Autograder_Util.py]. *)

From Stdlib Require Import Reals Lra Lia List ZArith NArith Bool Arith Psatz.
From Stdlib Require Import Permutation.
Import ListNotations.

(* ===================================================================== *)
(** ** Exceptions, results and the randomness monad *)
(* ===================================================================== *)

(** [Stuck] is not a Python exception: it marks a run of the model that
    ran out of loop fuel or followed a dangling reference.  The theorems
    below show that it never arises. *)
Inductive exn : Type :=
| ValueError
| IndexError
| AttributeError
| TypeError
| Stuck.

Definition result (A : Type) : Type := (exn + A)%type.

Definition rbind {A B : Type} (m : result A) (f : A -> result B) : result B :=
  match m with
  | inl e => inl e
  | inr a => f a
  end.

Notation "x <~ m ;; k" := (rbind m (fun x => k))
  (at level 61, m at next level, right associativity).

(** The generator state: an infinite stream of raw draws and the index of
    the next one. *)
Record rng : Type := mkRng { stream : nat -> N; pos : nat }.

Definition Rand (A : Type) : Type := rng -> exn + (A * rng).

Definition ret {A : Type} (a : A) : Rand A := fun s => inr (a, s).

Definition bind {A B : Type} (m : Rand A) (f : A -> Rand B) : Rand B :=
  fun s =>
    match m s with
    | inl e => inl e
    | inr (a, s') => f a s'
    end.

Definition raise {A : Type} (e : exn) : Rand A := fun _ => inl e.

Definition lift {A : Type} (r : result A) : Rand A :=
  fun s =>
    match r with
    | inl e => inl e
    | inr a => inr (a, s)
    end.

Notation "x <- m ;; k" := (bind m (fun x => k))
  (at level 61, m at next level, right associativity).

Definition draw : Rand N :=
  fun s => inr (stream s (pos s), mkRng (stream s) (S (pos s))).

Fixpoint replicateM {A : Type} (n : nat) (m : Rand A) : Rand (list A) :=
  match n with
  | O => ret []
  | S n' => a <- m ;; l <- replicateM n' m ;; ret (a :: l)
  end.

Fixpoint map_result {A B : Type} (f : A -> result B) (l : list A)
  : result (list B) :=
  match l with
  | [] => inr []
  | a :: l' => b <~ f a ;; bs <~ map_result f l' ;; inr (b :: bs)
  end.

(* ===================================================================== *)
(** ** Python and numpy primitives *)
(* ===================================================================== *)

Definition Reqb (a b : R) : bool := if Req_dec_T a b then true else false.
Definition Rgtb (a b : R) : bool := if Rgt_dec a b then true else false.
Definition Rltb (a b : R) : bool := if Rlt_dec a b then true else false.

(** [l[i]] for [0 <= i]. *)
Definition index {A : Type} (l : list A) (i : nat) : result A :=
  match nth_error l i with
  | Some a => inr a
  | None => inl IndexError
  end.

(** [l[-1]]. *)
Definition index_last {A : Type} (l : list A) : result A :=
  index (rev l) 0.

(** [l[i] = v] as a new list; Python raises [IndexError] out of range. *)
Fixpoint set_index {A : Type} (l : list A) (i : nat) (v : A)
  : result (list A) :=
  match l, i with
  | [], _ => inl IndexError
  | _ :: t, O => inr (v :: t)
  | h :: t, S i' => t' <~ set_index t i' v ;; inr (h :: t')
  end.

(** [l[:p]] for a possibly negative [p]. *)
Definition slice_to {A : Type} (l : list A) (p : Z) : list A :=
  if (0 <=? p)%Z then firstn (Z.to_nat p) l
  else firstn (length l - Z.to_nat (- p)) l.

Definition Rsum (l : list R) : R := fold_left Rplus l 0%R.

(** [np.mean] / [ndarray.mean]. *)
Definition mean (l : list R) : R := (Rsum l / INR (length l))%R.

(** [np.diff]. *)
Fixpoint diff (l : list R) : list R :=
  match l with
  | a :: ((b :: _) as t) => (b - a)%R :: diff t
  | _ => []
  end.

(** [ndarray.min()] and [ndarray.max()]: [ValueError] on a zero-size
    array. *)
Definition amin (l : list R) : result R :=
  match l with
  | [] => inl ValueError
  | a :: t => inr (fold_left Rmin t a)
  end.

Definition amax (l : list R) : result R :=
  match l with
  | [] => inl ValueError
  | a :: t => inr (fold_left Rmax t a)
  end.

(** The builtin [max] on a list of floats: the first largest element. *)
Definition py_max (l : list R) : result R :=
  match l with
  | [] => inl ValueError
  | a :: t => inr (fold_left (fun m x => if Rgtb x m then x else m) t a)
  end.

(** [max(l, key=...)]: the first element whose key is largest. *)
Definition py_max_by {A : Type} (key : A -> R) (l : list A) : result A :=
  match l with
  | [] => inl ValueError
  | a :: t =>
      inr (fold_left (fun m x => if Rgtb (key x) (key m) then x else m) t a)
  end.

(** [list.index(v)] on floats. *)
Fixpoint index_of (v : R) (l : list R) : result nat :=
  match l with
  | [] => inl ValueError
  | a :: t => if Reqb a v then inr O else i <~ index_of v t ;; inr (S i)
  end.

(** [np.arctan2(y, x)]. *)
Definition arctan2 (y x : R) : R :=
  if Rltb 0 x then atan (y / x)
  else if Rltb x 0 then
         (if Rltb y 0 then atan (y / x) - PI else atan (y / x) + PI)%R
  else if Rltb 0 y then (PI / 2)%R
  else if Rltb y 0 then (- (PI / 2))%R
  else 0%R.

(** [np.linalg.norm] of a 2-vector. *)
Definition norm2 (v : R * R) : R :=
  sqrt (fst v * fst v + snd v * snd v).

Definition vsub (a b : R * R) : R * R :=
  ((fst a - fst b)%R, (snd a - snd b)%R).

(** [np.degrees]. *)
Definition degrees (a : R) : R := (a * (180 / PI))%R.

(** *** Random primitives *)

(** A raw draw reduced below [n]. *)
Definition randbelow (n : nat) : Rand nat :=
  k <- draw ;; ret (N.to_nat (k mod N.of_nat n)).

(** [np.random.random()]: a multiple of [2^-53] in [[0, 1)]. *)
Definition random : Rand R :=
  k <- draw ;;
  ret (IZR (Z.of_N (k mod 9007199254740992)) / IZR 9007199254740992)%R.

(** [np.random.randint(low, high)]: uniform in [[low, high)]. *)
Definition randint (low high : nat) : Rand nat :=
  if high <=? low then raise ValueError
  else k <- randbelow (high - low) ;; ret (low + k).

(** [np.random.randint(low, high, size=n).tolist()]. *)
Definition randint_list (low high n : nat) : Rand (list nat) :=
  if high <=? low then raise ValueError
  else replicateM n (randint low high).

Definition swap {A : Type} (l : list A) (i j : nat) : list A :=
  match nth_error l i, nth_error l j with
  | Some a, Some b =>
      match set_index l i b with
      | inr l1 =>
          match set_index l1 j a with
          | inr l2 => l2
          | inl _ => l
          end
      | inl _ => l
      end
  | _, _ => l
  end.

(** [np.random.shuffle] on a list: for [i] from [n-1] down to [1], draw
    [j] in [[0, i]] and exchange [x[i]] with [x[j]]. *)
Fixpoint shuffle_from {A : Type} (i : nat) (x : list A) : Rand (list A) :=
  match i with
  | O => ret x
  | S i' => j <- randbelow (S i) ;; shuffle_from i' (swap x i j)
  end.

Definition shuffle {A : Type} (x : list A) : Rand (list A) :=
  shuffle_from (length x - 1) x.

(** [np.random.choice(a, size, replace=False)] for an integer [a]: a
    prefix of a random permutation of [range(a)]. *)
Definition choice (a : nat) (size : Z) : Rand (list nat) :=
  if (a =? 0) && negb (size =? 0)%Z then raise ValueError
  else if (Z.of_nat a <? size)%Z then raise ValueError
  else if (size <? 0)%Z then raise ValueError
  else p <- shuffle (seq 0 a) ;; ret (firstn (Z.to_nat size) p).

(* ===================================================================== *)
(** ** Arrays and strokes *)
(* ===================================================================== *)

(** A stroke is a [(k, n)] array, kept as its list of rows: [stroke[r, :]]
    is the [r]-th row, [stroke.shape[0]] the number of rows. *)
Abbreviation ndarray := (list (list R)) (only parsing).

Definition row (a : ndarray) (r : nat) : result (list R) := index a r.

(** [a[r, :] = v]. *)
Definition set_row (a : ndarray) (r : nat) (v : list R) : result ndarray :=
  set_index a r v.


(* ===================================================================== *)
(** ** StrokeNormalizer *)
(* ===================================================================== *)

Record metadata : Type := mkMetadata {
  x_min : R;
  y_min : R;
  x_max : R;
  y_max : R;
  scale : R;
  width : R;
  height : R
}.

Record StrokeNormalizer : Type := mkStrokeNormalizer { target_size : R }.

Definition default_normalizer : StrokeNormalizer :=
  mkStrokeNormalizer 100.

(** The first loop of [normalize]: gather every x and every y. *)
Fixpoint collect_xy (strokes : list ndarray) (all_x all_y : list R)
  : result (list R * list R) :=
  match strokes with
  | [] => inr (all_x, all_y)
  | stroke :: rest =>
      if length stroke <? 2 then inl ValueError
      else
        x <~ row stroke 0 ;;
        y <~ row stroke 1 ;;
        collect_xy rest (all_x ++ x) (all_y ++ y)
  end.

Definition compute_scale (self : StrokeNormalizer) (width height : R) : R :=
  if Reqb width 0 && Reqb height 0 then 1%R
  else if Reqb width 0 then (target_size self / height)%R
  else if Reqb height 0 then (target_size self / width)%R
  else (target_size self / Rmax width height)%R.

(** The body of the second loop: copy, then overwrite rows 0 and 1. *)
Definition normalize_stroke (x_min y_min scale : R) (stroke : ndarray)
  : result ndarray :=
  let norm_stroke := stroke in
  x <~ row stroke 0 ;;
  norm_stroke <~ set_row norm_stroke 0
                   (map (fun v => ((v - x_min) * scale)%R) x) ;;
  y <~ row stroke 1 ;;
  norm_stroke <~ set_row norm_stroke 1
                   (map (fun v => ((v - y_min) * scale)%R) y) ;;
  inr norm_stroke.

(** [StrokeNormalizer.normalize].  The empty dictionary returned for an
    empty list is [None]. *)
Definition normalize (self : StrokeNormalizer) (strokes : list ndarray)
  : result (list ndarray * option metadata) :=
  match strokes with
  | [] => inr ([], None)
  | _ =>
      xy <~ collect_xy strokes [] [] ;;
      let all_x := fst xy in
      let all_y := snd xy in
      x_min <~ amin all_x ;;
      x_max <~ amax all_x ;;
      y_min <~ amin all_y ;;
      y_max <~ amax all_y ;;
      let width := (x_max - x_min)%R in
      let height := (y_max - y_min)%R in
      let scale := compute_scale self width height in
      normalized <~ map_result (normalize_stroke x_min y_min scale) strokes ;;
      inr (normalized,
           Some (mkMetadata x_min y_min x_max y_max scale width height))
  end.

(** *** The normalizer over an object store

    Arrays are objects; a stroke list holds references.  This version of
    [normalize] makes the copy and the two row assignments explicit, so
    that what is (not) mutated can be stated. *)

Abbreviation store := (list ndarray) (only parsing).

Definition deref (h : store) (p : nat) : result ndarray :=
  match nth_error h p with
  | Some a => inr a
  | None => inl Stuck
  end.

(** [stroke.copy()]: a new object with the same contents. *)
Definition copy_array (h : store) (p : nat) : result (store * nat) :=
  a <~ deref h p ;;
  inr (h ++ [a], length h).

(** [h[p][r, :] = v], in place. *)
Definition assign_row (h : store) (p r : nat) (v : list R) : result store :=
  a <~ deref h p ;;
  a' <~ set_row a r v ;;
  match set_index h p a' with
  | inr h' => inr h'
  | inl _ => inl Stuck
  end.

Fixpoint collect_xy_heap (h : store) (strokes : list nat)
  (all_x all_y : list R) : result (list R * list R) :=
  match strokes with
  | [] => inr (all_x, all_y)
  | p :: rest =>
      stroke <~ deref h p ;;
      if length stroke <? 2 then inl ValueError
      else
        x <~ row stroke 0 ;;
        y <~ row stroke 1 ;;
        collect_xy_heap h rest (all_x ++ x) (all_y ++ y)
  end.

Fixpoint normalize_loop_heap (x_min y_min scale : R) (h : store)
  (strokes : list nat) (normalized : list nat) : result (store * list nat) :=
  match strokes with
  | [] => inr (h, normalized)
  | p :: rest =>
      hq <~ copy_array h p ;;
      let h1 := fst hq in
      let norm_stroke := snd hq in
      stroke <~ deref h1 p ;;
      x <~ row stroke 0 ;;
      h2 <~ assign_row h1 norm_stroke 0
              (map (fun v => ((v - x_min) * scale)%R) x) ;;
      stroke <~ deref h2 p ;;
      y <~ row stroke 1 ;;
      h3 <~ assign_row h2 norm_stroke 1
              (map (fun v => ((v - y_min) * scale)%R) y) ;;
      normalize_loop_heap x_min y_min scale h3 rest
        (normalized ++ [norm_stroke])
  end.

Definition normalize_heap (self : StrokeNormalizer) (h : store)
  (strokes : list nat) : result (store * list nat * option metadata) :=
  match strokes with
  | [] => inr (h, [], None)
  | _ =>
      xy <~ collect_xy_heap h strokes [] [] ;;
      let all_x := fst xy in
      let all_y := snd xy in
      x_min <~ amin all_x ;;
      x_max <~ amax all_x ;;
      y_min <~ amin all_y ;;
      y_max <~ amax all_y ;;
      let width := (x_max - x_min)%R in
      let height := (y_max - y_min)%R in
      let scale := compute_scale self width height in
      hn <~ normalize_loop_heap x_min y_min scale h strokes [] ;;
      inr (fst hn, snd hn,
           Some (mkMetadata x_min y_min x_max y_max scale width height))
  end.

(* ===================================================================== *)
(** ** StrokeFeatureExtractor *)
(* ===================================================================== *)

Record StrokeFeatures : Type := mkStrokeFeatures {
  center : R * R;
  length_ : R;
  angle : R;
  start_point : R * R;
  end_point : R * R;
  points : ndarray
}.

Fixpoint segment_lengths (dx dy : list R) : list R :=
  match dx, dy with
  | a :: dx', b :: dy' => sqrt (a ^ 2 + b ^ 2) :: segment_lengths dx' dy'
  | _, _ => []
  end.

Definition chord_threshold : R := (1 / 1000000)%R.

Definition extract (stroke : ndarray) : result StrokeFeatures :=
  x <~ row stroke 0 ;;
  y <~ row stroke 1 ;;
  let center := (mean x, mean y) in
  let dx := diff x in
  let dy := diff y in
  let length := Rsum (segment_lengths dx dy) in
  x0 <~ index x 0 ;;
  y0 <~ index y 0 ;;
  let start := (x0, y0) in
  xl <~ index_last x ;;
  yl <~ index_last y ;;
  let end_ := (xl, yl) in
  let vec := vsub end_ start in
  let angle :=
    if Rgtb (norm2 vec) chord_threshold then arctan2 (fst vec) (snd vec)
    else 0%R in
  inr (mkStrokeFeatures center length angle start end_ (firstn 2 stroke)).

(* ===================================================================== *)
(** ** FitnessFunction *)
(* ===================================================================== *)

Record FitnessFunction : Type := mkFitnessFunction {
  alpha : R;
  beta : R;
  gamma : R;
  epsilon : R
}.

(** Top-left corner of the box of feature centers; [np.zeros(2)] for an
    empty list. *)
Definition bbox_tl (features : list StrokeFeatures) : result (R * R) :=
  match features with
  | [] => inr (0%R, 0%R)
  | _ =>
      mx <~ amin (map (fun f => fst (center f)) features) ;;
      my <~ amin (map (fun f => snd (center f)) features) ;;
      inr (mx, my)
  end.

(** [abs(a - b)] folded onto the shorter arc. *)
Definition angle_difference (a b : R) : R :=
  let d_angle := Rabs (a - b) in
  if Rgtb d_angle PI then (2 * PI - d_angle)%R else d_angle.

Definition pair_distance (self : FitnessFunction)
  (written_bbox_tl ref_bbox_tl : R * R)
  (written_feat ref_feat : StrokeFeatures) : R :=
  let d_center := norm2 (vsub (center written_feat) (center ref_feat)) in
  let d_length := Rabs (length_ written_feat - length_ ref_feat) in
  let d_angle := angle_difference (angle written_feat) (angle ref_feat) in
  let written_rel_dist :=
    norm2 (vsub (center written_feat) written_bbox_tl) in
  let ref_rel_dist := norm2 (vsub (center ref_feat) ref_bbox_tl) in
  let d_relative := Rabs (written_rel_dist - ref_rel_dist) in
  (alpha self * d_center + beta self * d_length + gamma self * d_angle
   + epsilon self * d_relative)%R.

(** The loop over [enumerate(mapping)]. *)
Fixpoint distance_loop (self : FitnessFunction)
  (written_features reference_features : list StrokeFeatures)
  (written_bbox_tl ref_bbox_tl : R * R)
  (written_idx : nat) (mapping : list nat) (total_distance : R) : result R :=
  match mapping with
  | [] => inr total_distance
  | ref_idx :: rest =>
      written_feat <~ index written_features written_idx ;;
      if (ref_idx =? 0) || (length reference_features <? ref_idx) then
        distance_loop self written_features reference_features
          written_bbox_tl ref_bbox_tl (S written_idx) rest
          (total_distance + 1000)%R
      else
        ref_feat <~ index reference_features (ref_idx - 1) ;;
        distance_loop self written_features reference_features
          written_bbox_tl ref_bbox_tl (S written_idx) rest
          (total_distance
           + pair_distance self written_bbox_tl ref_bbox_tl
               written_feat ref_feat)%R
  end.

Definition compute_distance (self : FitnessFunction)
  (written_features reference_features : list StrokeFeatures)
  (mapping : list nat) : result R :=
  ref_bbox_tl <~ bbox_tl reference_features ;;
  written_bbox_tl <~ bbox_tl written_features ;;
  distance_loop self written_features reference_features
    written_bbox_tl ref_bbox_tl 0 mapping 0%R.

Definition compute_fitness (distance : R) : R := (1 / (1 + distance))%R.

(* ===================================================================== *)
(** ** GeneticAlgorithm *)
(* ===================================================================== *)

Abbreviation chromosome := (list nat) (only parsing).

Record GeneticAlgorithm : Type := mkGeneticAlgorithm {
  n_written : nat;
  n_reference : nat;
  fitness_func : FitnessFunction;
  population_size : Z;
  max_generations : Z;
  crossover_rate : R;
  mutation_rate : R;
  tournament_size : Z;
  convergence_generations : Z
}.

(** [GeneticAlgorithm.__init__]; [population_size or (8 * n_written)]
    takes the default for [None] and for [0]. *)
Definition GeneticAlgorithm_init (n_written n_reference : nat)
  (fitness_func : FitnessFunction) (population_size : option Z)
  (max_generations : Z) (crossover_rate mutation_rate : R)
  (tournament_size convergence_generations : Z) : GeneticAlgorithm :=
  mkGeneticAlgorithm n_written n_reference fitness_func
    (match population_size with
     | None => 8 * Z.of_nat n_written
     | Some p => if (p =? 0)%Z then 8 * Z.of_nat n_written else p
     end)%Z
    max_generations crossover_rate mutation_rate
    tournament_size convergence_generations.

Definition create_chromosome (self : GeneticAlgorithm) : Rand chromosome :=
  let diff := (Z.of_nat (n_written self) - Z.of_nat (n_reference self))%Z in
  if (diff =? 0)%Z then
    shuffle (seq 1 (n_reference self))
  else if (0 <? diff)%Z then
    let valid_refs := seq 1 (n_reference self) in
    let extras := repeat 0 (Z.to_nat diff) in
    shuffle (valid_refs ++ extras)
  else
    randint_list 1 (n_reference self + 1) (n_written self).

Definition evaluate_chromosome (self : GeneticAlgorithm)
  (chrom : chromosome)
  (written_features reference_features : list StrokeFeatures) : result R :=
  distance <~ compute_distance (fitness_func self)
                written_features reference_features chrom ;;
  inr (compute_fitness distance).

Definition tournament_selection (self : GeneticAlgorithm)
  (population : list chromosome) (fitnesses : list R) : Rand chromosome :=
  tournament_indices <- choice (length population) (tournament_size self) ;;
  tournament <- lift (map_result
                        (fun i => c <~ index population i ;;
                                  f <~ index fitnesses i ;;
                                  inr (c, f))
                        tournament_indices) ;;
  winner <- lift (py_max_by (fun x : chromosome * R => snd x) tournament) ;;
  ret (fst winner).

Definition crossover (self : GeneticAlgorithm) (parent1 parent2 : chromosome)
  : Rand (chromosome * chromosome) :=
  if length parent1 <? 2 then ret (parent1, parent2)
  else
    u <- random ;;
    if Rltb u (crossover_rate self) then
      point <- randint 1 (length parent1) ;;
      let child1 := firstn point parent1 ++ skipn point parent2 in
      let child2 := firstn point parent2 ++ skipn point parent1 in
      ret (child1, child2)
    else ret (parent1, parent2).

(** The loop of [mutate] over positions [i, i+1, ...]; [rest] holds the
    genes from position [i] on. *)
Fixpoint mutate_loop (self : GeneticAlgorithm) (rest : chromosome)
  : Rand chromosome :=
  match rest with
  | [] => ret []
  | g :: rest' =>
      u <- random ;;
      g' <- (if Rltb u (mutation_rate self)
             then randint 0 (n_reference self + 1)
             else ret g) ;;
      tail <- mutate_loop self rest' ;;
      ret (g' :: tail)
  end.

Definition mutate (self : GeneticAlgorithm) (chrom : chromosome)
  : Rand chromosome :=
  mutate_loop self chrom.

(** The local variables of [evolve] that live across generations. *)
Record evo_state : Type := mkEvoState {
  population : list chromosome;
  best_chromosome : option chromosome;
  best_fitness : R;
  generations_without_improvement : Z;
  best_fitness_history : list R;
  avg_fitness_history : list R
}.

(** [while len(new_population) < self.population_size].  Each turn adds
    two children, so [population_size] turns of fuel are more than the
    loop can use. *)
Fixpoint fill_population (self : GeneticAlgorithm)
  (population : list chromosome) (fitnesses : list R)
  (fuel : nat) (new_population : list chromosome) : Rand (list chromosome) :=
  if (Z.of_nat (length new_population) <? population_size self)%Z then
    match fuel with
    | O => raise Stuck
    | S fuel' =>
        parent1 <- tournament_selection self population fitnesses ;;
        parent2 <- tournament_selection self population fitnesses ;;
        children <- crossover self parent1 parent2 ;;
        child1 <- mutate self (fst children) ;;
        child2 <- mutate self (snd children) ;;
        fill_population self population fitnesses fuel'
          (new_population ++ [child1; child2])
    end
  else ret new_population.

(** One turn of [for generation in range(self.max_generations)], followed
    by the remaining [n] turns.  Returning without recursion is the
    [break]. *)
Fixpoint generation_loop (self : GeneticAlgorithm)
  (written_features reference_features : list StrokeFeatures)
  (n : nat) (st : evo_state) : Rand evo_state :=
  match n with
  | O => ret st
  | S n' =>
      fitnesses <- lift (map_result
                           (fun chrom => evaluate_chromosome self chrom
                                           written_features reference_features)
                           (population st)) ;;
      gen_best_fitness <- lift (py_max fitnesses) ;;
      let gen_avg_fitness := mean fitnesses in
      let best_hist := best_fitness_history st ++ [gen_best_fitness] in
      let avg_hist := avg_fitness_history st ++ [gen_avg_fitness] in
      upd <- lift
        (if Rgtb gen_best_fitness (best_fitness st) then
           i <~ index_of gen_best_fitness fitnesses ;;
           c <~ index (population st) i ;;
           inr (gen_best_fitness, Some c, 0%Z)
         else
           inr (best_fitness st, best_chromosome st,
                (generations_without_improvement st + 1)%Z)) ;;
      let '(best_fitness', best_chromosome', stagnation) := upd in
      if (convergence_generations self <=? stagnation)%Z then
        ret (mkEvoState (population st) best_chromosome' best_fitness'
               stagnation best_hist avg_hist)
      else
        elite <- lift (match best_chromosome' with
                       | Some c => inr c
                       | None => inl AttributeError
                       end) ;;
        new_population <- fill_population self (population st) fitnesses
                            (Z.to_nat (population_size self)) [elite] ;;
        generation_loop self written_features reference_features n'
          (mkEvoState (slice_to new_population (population_size self))
             best_chromosome' best_fitness' stagnation best_hist avg_hist)
  end.

Record ga_result : Type := mkGaResult {
  ga_mapping : option chromosome;
  ga_fitness : R;
  ga_generations : nat;
  ga_best_history : list R;
  ga_avg_history : list R
}.

(** [GeneticAlgorithm.evolve] on a freshly constructed object (both
    histories empty), as [StrokeMatcher.match] calls it. *)
Definition evolve (self : GeneticAlgorithm)
  (written_features reference_features : list StrokeFeatures)
  : Rand ga_result :=
  population <- replicateM (Z.to_nat (population_size self))
                  (create_chromosome self) ;;
  st <- generation_loop self written_features reference_features
          (Z.to_nat (max_generations self))
          (mkEvoState population None 0%R 0%Z [] []) ;;
  ret (mkGaResult (best_chromosome st) (best_fitness st)
         (length (best_fitness_history st))
         (best_fitness_history st) (avg_fitness_history st)).

(* ===================================================================== *)
(** ** ErrorDetector *)
(* ===================================================================== *)

(** The error dictionaries, by their ['type'] key.  The free-text
    ['description'] is left out. *)
Inductive error_record : Type :=
| EXTRA (written_indices : list nat) (reference_index : option nat)
| BROKEN (written_indices : list nat) (reference_index : nat)
| MISSING (reference_index : nat)
| ORIENTATION (written_index reference_index : nat)
    (angle_diff_degrees : R)
| ORDER (written_index reference_index expected_position : nat).

Record ErrorDetector : Type := mkErrorDetector { angle_threshold : R }.

Definition check_concatenated_redundant (mapping : chromosome)
  : list error_record := [].

(** [ref_groups], a dictionary in insertion order. *)
Abbreviation groups := (list (nat * list nat)) (only parsing).

Fixpoint group_lookup (g : groups) (k : nat) : option (list nat) :=
  match g with
  | [] => None
  | (k', v) :: g' => if k' =? k then Some v else group_lookup g' k
  end.

(** [ref_groups[k].append(i)], after creating the entry when absent. *)
Fixpoint group_append (g : groups) (k i : nat) : groups :=
  match g with
  | [] => [(k, [i])]
  | (k', v) :: g' =>
      if k' =? k then (k', v ++ [i]) :: g'
      else (k', v) :: group_append g' k i
  end.

Fixpoint build_groups (written_idx : nat) (mapping : chromosome)
  (ref_groups : groups) : groups :=
  match mapping with
  | [] => ref_groups
  | ref_idx :: rest =>
      build_groups (S written_idx) rest
        (group_append ref_groups ref_idx written_idx)
  end.

Definition matched_keys (ref_groups : groups) : list nat :=
  filter (fun r => 0 <? r) (map fst ref_groups).

Fixpoint broken_extra_loop (mapping : chromosome) (ref_groups : groups)
  (items : groups) : list error_record :=
  match items with
  | [] => []
  | (ref_idx, written_indices) :: items' =>
      (if (0 <? ref_idx) && (1 <? length written_indices) then
         if length (matched_keys ref_groups) <? length mapping then
           [EXTRA (tl written_indices) (Some (ref_idx - 1))]
         else
           [BROKEN written_indices (ref_idx - 1)]
       else [])
      ++ broken_extra_loop mapping ref_groups items'
  end.

Definition check_broken_extra (mapping : chromosome) : list error_record :=
  let ref_groups := build_groups 0 mapping [] in
  (match group_lookup ref_groups 0 with
   | Some zero_group =>
       if 0 <? length zero_group then [EXTRA zero_group None] else []
   | None => []
   end)
  ++ broken_extra_loop mapping ref_groups ref_groups.

Definition check_missing (mapping : chromosome) (n_reference : nat)
  : list error_record :=
  let matched_refs :=
    map (fun ref_idx => ref_idx - 1) (filter (fun r => 0 <? r) mapping) in
  flat_map
    (fun ref_idx =>
       if existsb (Nat.eqb ref_idx) matched_refs then []
       else [MISSING ref_idx])
    (seq 0 n_reference).

Fixpoint check_orientation_loop (self : ErrorDetector)
  (written_features reference_features : list StrokeFeatures)
  (written_idx : nat) (mapping : chromosome) : result (list error_record) :=
  match mapping with
  | [] => inr []
  | ref_idx :: rest =>
      if (ref_idx =? 0) || (length reference_features <? ref_idx) then
        check_orientation_loop self written_features reference_features
          (S written_idx) rest
      else
        written_feat <~ index written_features written_idx ;;
        ref_feat <~ index reference_features (ref_idx - 1) ;;
        let angle_diff :=
          angle_difference (angle written_feat) (angle ref_feat) in
        errors <~ check_orientation_loop self written_features
                    reference_features (S written_idx) rest ;;
        inr ((if Rgtb angle_diff (angle_threshold self)
              then [ORIENTATION written_idx (ref_idx - 1)
                      (degrees angle_diff)]
              else []) ++ errors)
  end.

Definition check_orientation (self : ErrorDetector) (mapping : chromosome)
  (written_features reference_features : list StrokeFeatures)
  : result (list error_record) :=
  check_orientation_loop self written_features reference_features 0 mapping.

Fixpoint check_order_loop (written_idx : nat) (mapping : chromosome)
  : list error_record :=
  match mapping with
  | [] => []
  | ref_idx :: rest =>
      (if (0 <? ref_idx) && negb (ref_idx =? written_idx + 1)
       then [ORDER written_idx (ref_idx - 1) (ref_idx - 1)]
       else [])
      ++ check_order_loop (S written_idx) rest
  end.

Definition check_order (mapping : chromosome) : list error_record :=
  check_order_loop 0 mapping.

Definition detect_errors (self : ErrorDetector) (mapping : chromosome)
  (written_features reference_features : list StrokeFeatures)
  : result (list error_record) :=
  let errors := check_concatenated_redundant mapping in
  let errors := errors ++ check_broken_extra mapping in
  let errors :=
    errors ++ check_missing mapping (length reference_features) in
  orientation <~ check_orientation self mapping
                   written_features reference_features ;;
  let errors := errors ++ orientation in
  let errors := errors ++ check_order mapping in
  inr errors.

(* ===================================================================== *)
(** ** StrokeMatcher *)
(* ===================================================================== *)

Record StrokeMatcher : Type := mkStrokeMatcher {
  sm_population_size : option Z;
  sm_max_generations : Z;
  sm_normalize : bool;
  normalizer : StrokeNormalizer;
  sm_fitness_func : FitnessFunction;
  error_detector : ErrorDetector
}.

(** [StrokeMatcher.__init__] with its keyword arguments. *)
Definition StrokeMatcher_init (alpha beta gamma epsilon : R)
  (population_size : option Z) (max_generations : Z)
  (angle_threshold : R) (normalize : bool) : StrokeMatcher :=
  mkStrokeMatcher population_size max_generations normalize
    default_normalizer
    (mkFitnessFunction alpha beta gamma epsilon)
    (mkErrorDetector angle_threshold).

(** [StrokeMatcher()]. *)
Definition default_matcher : StrokeMatcher :=
  StrokeMatcher_init 1 1 1 1 None 100 (PI / 4) true.

Record match_result : Type := mkMatchResult {
  mapping : chromosome;
  fitness : R;
  errors : list error_record;
  generations : nat;
  history_best_fitness : list R;
  history_avg_fitness : list R;
  written_features : list StrokeFeatures;
  reference_features : list StrokeFeatures;
  normalization_metadata : option metadata * option metadata
}.

(** The GA as [match] constructs it: every control that [match] does not
    pass keeps the default of [GeneticAlgorithm.__init__]. *)
Definition matcher_ga (self : StrokeMatcher) (n_written n_reference : nat)
  : GeneticAlgorithm :=
  GeneticAlgorithm_init n_written n_reference (sm_fitness_func self)
    (sm_population_size self) (sm_max_generations self)
    (8 / 10) (1 / 10) 3 10.

(** [StrokeMatcher.match] ([verbose] only prints). *)
Definition match_ (self : StrokeMatcher)
  (written_strokes reference_strokes : list ndarray) : Rand match_result :=
  norm <- lift
    (if sm_normalize self then
       w <~ normalize (normalizer self) written_strokes ;;
       r <~ normalize (normalizer self) reference_strokes ;;
       inr (fst w, fst r, (snd w, snd r))
     else inr (written_strokes, reference_strokes, (None, None))) ;;
  let '(written_norm, reference_norm, meta) := norm in
  written_features <- lift (map_result extract written_norm) ;;
  reference_features <- lift (map_result extract reference_norm) ;;
  let ga := matcher_ga self (length written_strokes)
              (length reference_strokes) in
  ga_result <- evolve ga written_features reference_features ;;
  errors <- lift
    (match ga_mapping ga_result with
     | None => inl TypeError
     | Some m =>
         detect_errors (error_detector self) m
           written_features reference_features
     end) ;;
  match ga_mapping ga_result with
  | None => raise TypeError
  | Some m =>
      ret (mkMatchResult m (ga_fitness ga_result) errors
             (ga_generations ga_result)
             (ga_best_history ga_result) (ga_avg_history ga_result)
             written_features reference_features meta)
  end.

(* ===================================================================== *)
(** ** Vocabulary of the statements *)
(* ===================================================================== *)

(** The written indices mapped to reference index [k], in ascending order,
    counted from [i]. *)
Fixpoint positions (i : nat) (mapping : chromosome) (k : nat) : list nat :=
  match mapping with
  | [] => []
  | x :: rest =>
      (if x =? k then [i] else []) ++ positions (S i) rest k
  end.

Definition group_of (mapping : chromosome) (k : nat) : list nat :=
  positions 0 mapping k.

(** [U]: the number of distinct non-zero reference indices in use. *)
Definition distinct_matched (mapping : chromosome) : nat :=
  length (nodup Nat.eq_dec (filter (fun r => 0 <? r) mapping)).

(** The x and y rows of a stroke. *)
Definition xs (stroke : ndarray) : list R := nth 0 stroke [].
Definition ys (stroke : ndarray) : list R := nth 1 stroke [].

(** The shape condition under which [normalize] returns: every stroke has
    the two coordinate rows and there is at least one sample to take the
    bounding box of. *)
Definition normalizable (strokes : list ndarray) : bool :=
  forallb (fun s => 2 <=? length s) strokes
  && (0 <? length (flat_map xs strokes))
  && (0 <? length (flat_map ys strokes)).

(** What the second loop of [normalize] makes of one stroke. *)
Definition rescale (x_min y_min scale : R) (stroke : ndarray) : ndarray :=
  map (fun v => ((v - x_min) * scale)%R) (xs stroke)
  :: map (fun v => ((v - y_min) * scale)%R) (ys stroke)
  :: skipn 2 stroke.

Definition list_min (l : list R) : R := fold_left Rmin (tl l) (hd 0%R l).
Definition list_max (l : list R) : R := fold_left Rmax (tl l) (hd 0%R l).

(** The joint bounding box and the record [normalize] reports. *)
Definition bounding_box (strokes : list ndarray) : R * R * R * R :=
  (list_min (flat_map xs strokes), list_max (flat_map xs strokes),
   list_min (flat_map ys strokes), list_max (flat_map ys strokes)).

Definition metadata_of (self : StrokeNormalizer) (strokes : list ndarray)
  : metadata :=
  let '(x_min, x_max, y_min, y_max) := bounding_box strokes in
  mkMetadata x_min y_min x_max y_max
    (compute_scale self (x_max - x_min) (y_max - y_min))
    (x_max - x_min) (y_max - y_min).

(** The arrays a list of references denotes in a store. *)
Definition heap_strokes (h : store) (strokes : list nat) : list ndarray :=
  map (fun p => nth p h []) strokes.

(** *** Well-formed strokes and what the pipeline computes from them *)

(** A stroke the extractor accepts: both coordinate rows, at least one
    sample in each.  One sample is enough. *)
Definition valid_stroke (stroke : ndarray) : bool :=
  (2 <=? length stroke)
  && (0 <? length (xs stroke)) && (0 <? length (ys stroke)).

Definition valid_strokes (strokes : list ndarray) : bool :=
  forallb valid_stroke strokes.

(** The vector from the first sample to the last. *)
Definition chord (stroke : ndarray) : R * R :=
  vsub (last (xs stroke) 0%R, last (ys stroke) 0%R)
       (hd 0%R (xs stroke), hd 0%R (ys stroke)).

(** The features [extract] returns on a valid stroke. *)
Definition stroke_features (stroke : ndarray) : StrokeFeatures :=
  mkStrokeFeatures
    (mean (xs stroke), mean (ys stroke))
    (Rsum (segment_lengths (diff (xs stroke)) (diff (ys stroke))))
    (if Rgtb (norm2 (chord stroke)) chord_threshold
     then arctan2 (fst (chord stroke)) (snd (chord stroke))
     else 0%R)
    (hd 0%R (xs stroke), hd 0%R (ys stroke))
    (last (xs stroke) 0%R, last (ys stroke) 0%R)
    (firstn 2 stroke).

(** The strokes [normalize] returns on a valid list. *)
Definition normalized (self : StrokeNormalizer) (strokes : list ndarray)
  : list ndarray :=
  match strokes with
  | [] => []
  | _ =>
      map (rescale (x_min (metadata_of self strokes))
             (y_min (metadata_of self strokes))
             (scale (metadata_of self strokes))) strokes
  end.

(** The strokes the extractor is run on, by the [normalize] flag. *)
Definition prepared (self : StrokeMatcher) (strokes : list ndarray)
  : list ndarray :=
  if sm_normalize self then normalized (normalizer self) strokes
  else strokes.

(** A list with its [i]-th element replaced. *)
Fixpoint replace_at {A : Type} (i : nat) (x : A) (l : list A) : list A :=
  match l, i with
  | [], _ => []
  | _ :: t, O => x :: t
  | h :: t, S i' => h :: replace_at i' x t
  end.

(** *** Specifications of randomized computations *)

(** [returns m Q]: whatever the generator yields, [m] raises nothing and
    its value satisfies [Q]. *)
Definition returns {A : Type} (m : Rand A) (Q : A -> Prop) : Prop :=
  forall s, exists a s', m s = inr (a, s') /\ Q a.

(** [post m Q]: a value returned by [m] satisfies [Q]. *)
Definition post {A : Type} (m : Rand A) (Q : A -> Prop) : Prop :=
  forall s a s', m s = inr (a, s') -> Q a.

(** [fails m e]: whatever the generator yields, [m] raises [e]. *)
Definition fails {A : Type} (m : Rand A) (e : exn) : Prop :=
  forall s, m s = inl e.

(** *** Chromosomes and histories *)

(** Length [W], every gene in [[0, R]]. *)
Definition shape_ok (W R : nat) (c : list nat) : Prop :=
  length c = W /\ Forall (fun g => g <= R) c.

(** [h[g] >= h[g-1]] for every [g >= 1]. *)
Definition nondecreasing (h : list R) : Prop :=
  forall g a b,
    nth_error h g = Some a -> nth_error h (S g) = Some b -> (a <= b)%R.

(** A default for [nth] on feature lists. *)
Definition origin_features : StrokeFeatures :=
  mkStrokeFeatures (0, 0)%R 0%R 0%R (0, 0)%R (0, 0)%R [].

(** *** One generation, in two halves

    The bookkeeping of one turn of the generation loop (history, elitism
    update, stagnation counter), and the state handed to the next turn.
    [generation_loop_unfold] below shows that the loop is made of them. *)

Definition record_generation (st : evo_state) (fitnesses : list R)
  (gen_best_fitness : R) : result evo_state :=
  upd <~ (if Rgtb gen_best_fitness (best_fitness st) then
            i <~ index_of gen_best_fitness fitnesses ;;
            c <~ index (population st) i ;;
            inr (gen_best_fitness, Some c, 0%Z)
          else
            inr (best_fitness st, best_chromosome st,
                 (generations_without_improvement st + 1)%Z)) ;;
  inr (mkEvoState (population st) (snd (fst upd)) (fst (fst upd)) (snd upd)
         (best_fitness_history st ++ [gen_best_fitness])
         (avg_fitness_history st ++ [mean fitnesses])).

Definition with_population (st : evo_state) (p : list chromosome)
  : evo_state :=
  mkEvoState p (best_chromosome st) (best_fitness st)
    (generations_without_improvement st)
    (best_fitness_history st) (avg_fitness_history st).

Definition elite_of (st : evo_state) : result chromosome :=
  match best_chromosome st with
  | Some c => inr c
  | None => inl AttributeError
  end.

(** *** Conditions on the inputs of the optimizer *)

Definition nonneg_weights (ff : FitnessFunction) : Prop :=
  (0 <= alpha ff /\ 0 <= beta ff /\ 0 <= gamma ff /\ 0 <= epsilon ff)%R.

(** The range of [np.arctan2]. *)
Definition angle_in_range (f : StrokeFeatures) : Prop :=
  (- PI <= angle f <= PI)%R.

Definition features_ok (features : list StrokeFeatures) : Prop :=
  Forall angle_in_range features.

(** The configurations on which [evolve] returns: the feature lists have
    the announced lengths, the weights are not negative, and either the
    population is a single chromosome (no tournament is ever run) or a
    tournament can be drawn from it. *)
Definition valid_ga (self : GeneticAlgorithm)
  (written_features reference_features : list StrokeFeatures) : Prop :=
  length written_features = n_written self
  /\ length reference_features = n_reference self
  /\ nonneg_weights (fitness_func self)
  /\ features_ok written_features
  /\ features_ok reference_features
  /\ (population_size self = 1
      \/ 1 <= tournament_size self <= population_size self)%Z.

(** The matcher configurations on which [match] returns for a non-empty
    written list: weights not negative, at least one generation, and a
    population that the default tournament of three can be drawn from
    (or a single chromosome, for which no tournament is run). *)
Definition valid_matcher (self : StrokeMatcher) : Prop :=
  nonneg_weights (sm_fitness_func self)
  /\ (1 <= sm_max_generations self)%Z
  /\ match sm_population_size self with
     | None => True
     | Some p => (p = 0 \/ p = 1 \/ 3 <= p)%Z
     end.

(** *** Invariants of the generation loop *)

Definition ga_shape (self : GeneticAlgorithm) (c : list nat) : Prop :=
  shape_ok (n_written self) (n_reference self) c.

(** The population keeps its size and its shape; the best chromosome, once
    there is one, has the shape too. *)
Definition population_invariant (self : GeneticAlgorithm) (st : evo_state)
  : Prop :=
  length (population st) = Z.to_nat (population_size self)
  /\ Forall (ga_shape self) (population st)
  /\ (forall c, best_chromosome st = Some c -> ga_shape self c)
  /\ (best_chromosome st = None -> (best_fitness st <= 0)%R).

(** Elitism: after the first generation the population starts with a copy
    of the all-time best, whose fitness bounds the history. *)
Definition elitism_invariant (self : GeneticAlgorithm)
  (wf rf : list StrokeFeatures) (st : evo_state) : Prop :=
  nondecreasing (best_fitness_history st)
  /\ Forall (fun y => (y <= best_fitness st)%R) (best_fitness_history st)
  /\ (best_fitness_history st <> [] ->
      exists c rest,
        population st = c :: rest
        /\ evaluate_chromosome self c wf rf = inr (best_fitness st))
  /\ (forall c, best_chromosome st = Some c ->
                evaluate_chromosome self c wf rf = inr (best_fitness st))
  /\ (population st <> [] -> (1 <= population_size self)%Z).

(** The state [evolve] starts the loop from. *)
Definition initial_state (population : list chromosome) : evo_state :=
  mkEvoState population None 0%R 0%Z [] [].

(* ===================================================================== *)
(** ** Vocabulary of the further properties *)
(* ===================================================================== *)

(** Error records by their ['type']. *)
Definition is_extra (e : error_record) : bool :=
  match e with
  | EXTRA _ _ => true
  | _ => false
  end.

Definition is_missing (e : error_record) : bool :=
  match e with
  | MISSING _ => true
  | _ => false
  end.

Definition is_broken (e : error_record) : bool :=
  match e with
  | BROKEN _ _ => true
  | _ => false
  end.

(** *** The outcome of the generation loop *)

(** The last [k] entries of a history are all [x]. *)
Definition settled (h : list R) (k : nat) (x : R) : Prop :=
  exists pre, h = pre ++ repeat x k.

(** What holds at the head of the loop with [n] generations still to
    run: the two histories have one entry per generation run so far, the
    average never exceeds the best, the stagnation counter is not
    negative, and the best fitness has been recorded in each of the last
    [generations_without_improvement + 1] generations. *)
Definition history_invariant (self : GeneticAlgorithm)
  (wf rf : list StrokeFeatures) (n : nat) (st : evo_state) : Prop :=
  elitism_invariant self wf rf st
  /\ length (avg_fitness_history st) = length (best_fitness_history st)
  /\ Forall2 Rle (avg_fitness_history st) (best_fitness_history st)
  /\ length (best_fitness_history st) + n
     = Z.to_nat (max_generations self)
  /\ (0 <= generations_without_improvement st)%Z
  /\ (forall c,
         best_chromosome st = Some c ->
         settled (best_fitness_history st)
           (S (Z.to_nat (generations_without_improvement st)))
           (best_fitness st)).

(** What holds of the state the loop ends in, at the [break] or after the
    last generation. *)
Definition evolution_outcome (self : GeneticAlgorithm)
  (wf rf : list StrokeFeatures) (st : evo_state) : Prop :=
  length (avg_fitness_history st) = length (best_fitness_history st)
  /\ Forall2 Rle (avg_fitness_history st) (best_fitness_history st)
  /\ length (best_fitness_history st) <= Z.to_nat (max_generations self)
  /\ (forall c,
         best_chromosome st = Some c ->
         evaluate_chromosome self c wf rf = inr (best_fitness st)
         /\ Forall (fun y => (y <= best_fitness st)%R)
              (best_fitness_history st)
         /\ settled (best_fitness_history st)
              (S (Z.to_nat (generations_without_improvement st)))
              (best_fitness st)
         /\ (length (best_fitness_history st)
             = Z.to_nat (max_generations self)
             \/ (convergence_generations self
                 <= generations_without_improvement st)%Z)).

(** *** Entries of an assignment *)

(** An entry the cost function treats as "no match": 0, or an index
    beyond the reference list. *)
Definition unmatched (n_reference ref_idx : nat) : bool :=
  (ref_idx =? 0) || (n_reference <? ref_idx).


(** *** Transformations of the input *)



(* ===================================================================== *)
(** ** Error injection ([test_stroke_matcher_realistic.py])

    The functions with which the test suite damages a list of strokes
    before it calls [StrokeMatcher.match].  Each returns the new list
    and a description; the description is kept as the data it is
    formatted from. *)
(* ===================================================================== *)

(** [l.pop(i)] for [0 <= i]: the element, and the list without it. *)
Definition pop {A : Type} (l : list A) (i : nat) : result (A * list A) :=
  match nth_error l i with
  | Some a => inr (a, firstn i l ++ skipn (S i) l)
  | None => inl IndexError
  end.

(** [l.insert(i, x)] for [0 <= i]; beyond the end it appends. *)
Definition insert_at {A : Type} (l : list A) (i : nat) (x : A) : list A :=
  firstn i l ++ x :: skipn i l.

(** [l[i], l[j] = l[j], l[i]]. *)
Definition exchange {A : Type} (l : list A) (i j : nat) : result (list A) :=
  a <~ index l j ;;
  b <~ index l i ;;
  l1 <~ set_index l i a ;;
  set_index l1 j b.

Fixpoint order_error_loop (n : nat) (strokes : list ndarray)
  (swapped_pairs : list (nat * nat))
  : Rand (list ndarray * list (nat * nat)) :=
  match n with
  | O => ret (strokes, swapped_pairs)
  | S n' =>
      ij <- choice (length strokes) 2 ;;
      match ij with
      | [i; j] =>
          strokes <- lift (exchange strokes i j) ;;
          order_error_loop n' strokes (swapped_pairs ++ [(i, j)])
      | _ => raise ValueError
      end
  end.

(** [inject_order_error]: [min(n_swaps, len(strokes) // 2)] exchanges of
    two different positions, on a copy of the list. *)
Definition inject_order_error (strokes : list ndarray) (n_swaps : Z)
  : Rand (list ndarray * list (nat * nat)) :=
  order_error_loop
    (Z.to_nat (Z.min n_swaps (Z.of_nat (length strokes / 2))))
    strokes [].

(** [inject_missing_stroke]; the second component is the index removed. *)
Definition inject_missing_stroke (strokes : list ndarray)
  : Rand (list ndarray * option nat) :=
  if length strokes <=? 1 then ret (strokes, None)
  else
    idx <- randint 0 (length strokes) ;;
    removed <- lift (pop strokes idx) ;;
    ret (snd removed, Some idx).


(** [s.shape[1]], read off the first row. *)
Definition ncols (s : ndarray) : nat := length (hd [] s).

(** [pad_to_50], local to [inject_broken_stroke]: repeat the last column
    up to 50 columns, or cut after 50. *)
Definition pad_to_50 (s : ndarray) : ndarray :=
  if ncols s <? 50 then
    map (fun row =>
           row ++ flat_map (fun v => repeat v (50 - ncols s))
                    (skipn (length row - 1) row)) s
  else map (firstn 50) s.

(** [inject_broken_stroke]; the second component holds the index of the
    stroke broken and the split point. *)
Definition inject_broken_stroke (strokes : list ndarray)
  : Rand (list ndarray * option (nat * nat)) :=
  if length strokes =? 0 then ret (strokes, None)
  else
    idx <- randint 0 (length strokes) ;;
    stroke <- lift (index strokes idx) ;;
    split_point <- randint 15 35 ;;
    let part1 := map (firstn (split_point + 1)) stroke in
    let part2 := map (skipn split_point) stroke in
    strokes <- lift (set_index strokes idx (pad_to_50 part1)) ;;
    let strokes := insert_at strokes (idx + 1) (pad_to_50 part2) in
    ret (strokes, Some (idx, split_point)).

(* ===================================================================== *)
(** ** Preprocessing ([Autograder_Util.py])

    Here a stroke is an [(n_points, 2)] array, one row per point; it is
    kept as the list of its points, and a character as the list of its
    strokes. *)
(* ===================================================================== *)

Abbreviation polyline := (list (R * R)) (only parsing).







(* ===================================================================== *)
(** ** The classifier's broken/extra pass *)
(* ===================================================================== *)

Section BrokenExtra.

Lemma group_lookup_append_same g k i :
  group_lookup (group_append g k i) k =
  match group_lookup g k with
  | Some v => Some (v ++ [i])
  | None => Some [i]
  end.
Proof.
  induction g as [|[k' v] g IH]; simpl.
  - now rewrite Nat.eqb_refl.
  - destruct (k' =? k) eqn:E; simpl; rewrite E; auto.
Qed.

Lemma group_lookup_append_other g k i k0 :
  k0 <> k ->
  group_lookup (group_append g k i) k0 = group_lookup g k0.
Proof.
  intros Hne. induction g as [|[k' v] g IH]; simpl.
  - destruct (k =? k0) eqn:E; auto.
    apply Nat.eqb_eq in E. congruence.
  - destruct (Nat.eqb_spec k' k) as [->|E]; simpl.
    + destruct (Nat.eqb_spec k k0); [congruence | reflexivity].
    + now rewrite IH.
Qed.

Lemma group_lookup_build m : forall i g k,
  group_lookup (build_groups i m g) k =
  match group_lookup g k, positions i m k with
  | Some v, p => Some (v ++ p)
  | None, [] => None
  | None, p => Some p
  end.
Proof.
  induction m as [|x m IH]; intros i g k; simpl.
  - destruct (group_lookup g k); [now rewrite app_nil_r | reflexivity].
  - rewrite IH. destruct (Nat.eqb_spec x k) as [->|Hne].
    + rewrite group_lookup_append_same.
      destruct (group_lookup g k); simpl; [now rewrite <- app_assoc|].
      reflexivity.
    + rewrite group_lookup_append_other by congruence.
      reflexivity.
Qed.

Lemma keys_append g k i :
  map fst (group_append g k i) =
  if existsb (Nat.eqb k) (map fst g) then map fst g
  else map fst g ++ [k].
Proof.
  induction g as [|[k' v] g IH]; simpl; auto.
  rewrite (Nat.eqb_sym k k').
  destruct (k' =? k) eqn:E; simpl; auto.
  rewrite IH. destruct (existsb (Nat.eqb k) (map fst g)); reflexivity.
Qed.

Lemma keys_append_NoDup g k i :
  NoDup (map fst g) -> NoDup (map fst (group_append g k i)).
Proof.
  intros H. rewrite keys_append.
  destruct (existsb (Nat.eqb k) (map fst g)) eqn:E; auto.
  apply NoDup_app; auto.
  - repeat constructor. intros [].
  - intros a Ha [Ek|[]]. subst a.
    assert (existsb (Nat.eqb k) (map fst g) = true); [|congruence].
    apply existsb_exists. exists k. split; auto. apply Nat.eqb_refl.
Qed.

Lemma keys_append_In g k i a :
  In a (map fst (group_append g k i)) <-> In a (map fst g) \/ a = k.
Proof.
  rewrite keys_append.
  destruct (existsb (Nat.eqb k) (map fst g)) eqn:E.
  - apply existsb_exists in E as (b & Hb & Eb).
    apply Nat.eqb_eq in Eb. subst b.
    split; [auto | intros [H| ->]; auto].
  - rewrite in_app_iff. simpl. intuition.
Qed.

Lemma keys_build_NoDup m : forall i g,
  NoDup (map fst g) -> NoDup (map fst (build_groups i m g)).
Proof.
  induction m as [|x m IH]; intros i g H; simpl; auto.
  apply IH. now apply keys_append_NoDup.
Qed.

Lemma keys_build_In m : forall i g a,
  In a (map fst (build_groups i m g)) <-> In a (map fst g) \/ In a m.
Proof.
  induction m as [|x m IH]; intros i g a; simpl.
  - intuition.
  - rewrite IH, keys_append_In. intuition.
Qed.

Lemma matched_keys_length m :
  length (matched_keys (build_groups 0 m [])) = distinct_matched m.
Proof.
  unfold matched_keys, distinct_matched.
  apply Permutation_length.
  apply NoDup_Permutation.
  - apply NoDup_filter, keys_build_NoDup. constructor.
  - apply NoDup_nodup.
  - intros a. rewrite nodup_In, !filter_In, keys_build_In. simpl.
    intuition.
Qed.

Lemma group_lookup_In g k v :
  group_lookup g k = Some v -> In (k, v) g.
Proof.
  induction g as [|[k' v'] g IH]; simpl; [discriminate|].
  destruct (Nat.eqb_spec k' k) as [->|Hne].
  - intros [= ->]. now left.
  - intros H. right. auto.
Qed.

Lemma broken_extra_loop_In mapping ref_groups items k v :
  In (k, v) items -> 0 < k -> 1 < length v ->
  In (if length (matched_keys ref_groups) <? length mapping
      then EXTRA (tl v) (Some (k - 1))
      else BROKEN v (k - 1))
     (broken_extra_loop mapping ref_groups items).
Proof.
  intros Hin Hk Hv.
  induction items as [|[k' v'] items IH]; simpl; [contradiction|].
  apply in_or_app. destruct Hin as [[= -> ->]|Hin].
  - left.
    apply Nat.ltb_lt in Hk, Hv. rewrite Hk, Hv.
    cbn [andb].
    destruct (length (matched_keys ref_groups) <? length mapping);
      now left.
  - right. auto.
Qed.

Lemma group_of_lookup m k :
  group_of m k <> [] ->
  group_lookup (build_groups 0 m []) k = Some (group_of m k).
Proof.
  intros H. rewrite group_lookup_build. simpl.
  unfold group_of in *. destruct (positions 0 m k); congruence.
Qed.

(** [positions] lists exactly the occurrences of [k]. *)
Lemma positions_length m : forall i k,
  length (positions i m k) = count_occ Nat.eq_dec m k.
Proof.
  induction m as [|x m IH]; intros i k; simpl; auto.
  rewrite length_app, IH.
  destruct (Nat.eq_dec x k) as [->|Hne].
  - now rewrite Nat.eqb_refl.
  - apply Nat.eqb_neq in Hne. now rewrite Hne.
Qed.

Lemma nodup_length_le (l : list nat) :
  length (nodup Nat.eq_dec l) <= length l.
Proof.
  induction l as [|a l IH]; simpl; auto.
  destruct (in_dec Nat.eq_dec a l); simpl; lia.
Qed.

Lemma nodup_length_lt (l : list nat) k :
  1 < count_occ Nat.eq_dec l k ->
  length (nodup Nat.eq_dec l) < length l.
Proof.
  induction l as [|a l IH]; simpl; [lia|].
  destruct (Nat.eq_dec a k) as [->|Hne]; intros H.
  - destruct (in_dec Nat.eq_dec k l) as [Hin|Hnin].
    + pose proof (nodup_length_le l). lia.
    + apply (count_occ_not_In Nat.eq_dec) in Hnin. lia.
  - specialize (IH H).
    destruct (in_dec Nat.eq_dec a l); simpl; lia.
Qed.

Lemma count_occ_filter_pos (l : list nat) k :
  0 < k ->
  count_occ Nat.eq_dec (filter (fun r => 0 <? r) l) k =
  count_occ Nat.eq_dec l k.
Proof.
  intros Hk. induction l as [|a l IH]; simpl; auto.
  destruct (Nat.ltb_spec 0 a); simpl.
  - destruct (Nat.eq_dec a k); lia.
  - destruct (Nat.eq_dec a k); lia.
Qed.

(** A group with two members already forces [W > U]. *)
Lemma shared_reference_surplus m k :
  0 < k -> 1 < length (group_of m k) ->
  distinct_matched m < length m.
Proof.
  intros Hk Hlen. unfold group_of in Hlen.
  rewrite positions_length in Hlen.
  unfold distinct_matched.
  apply Nat.lt_le_trans with (length (filter (fun r => 0 <? r) m)).
  - apply nodup_length_lt with k. now rewrite count_occ_filter_pos.
  - apply filter_length_le.
Qed.

Lemma In_group_lookup g k v :
  NoDup (map fst g) -> In (k, v) g -> group_lookup g k = Some v.
Proof.
  induction g as [|[k' v'] g IH]; simpl; intros Hnd Hin; [contradiction|].
  inversion Hnd as [|? ? Hnotin Hnd']; subst.
  destruct Hin as [[= -> ->]|Hin].
  - now rewrite Nat.eqb_refl.
  - destruct (Nat.eqb_spec k' k) as [->|Hne]; [|auto].
    exfalso. apply Hnotin. apply in_map_iff. now exists (k, v).
Qed.

Lemma broken_extra_loop_broken mapping ref_groups items idxs r :
  In (BROKEN idxs r) (broken_extra_loop mapping ref_groups items) ->
  exists k, In (k, idxs) items /\ 0 < k /\ 1 < length idxs
            /\ ~ length (matched_keys ref_groups) < length mapping.
Proof.
  induction items as [|[k v] items IH]; simpl; [contradiction|].
  intros H. apply in_app_or in H. destruct H as [H|H].
  - destruct (Nat.ltb_spec 0 k) as [Hk|Hk]; [|contradiction].
    destruct (Nat.ltb_spec 1 (length v)) as [Hv|Hv]; [|contradiction].
    cbn [andb] in H.
    destruct (Nat.ltb_spec (length (matched_keys ref_groups))
                (length mapping)) as [HU|HU].
    + destruct H as [H|[]]. discriminate.
    + destruct H as [[= -> _]|[]]. exists k. repeat split; auto. lia.
  - destruct (IH H) as (k' & Hin & Hrest). exists k'. split; auto.
Qed.

(** The BROKEN branch is never taken: a reference index shared by two
    written strokes already makes [W > U]. *)
Lemma check_broken_extra_never_broken mapping idxs r :
  ~ In (BROKEN idxs r) (check_broken_extra mapping).
Proof.
  unfold check_broken_extra. intros H. apply in_app_or in H.
  destruct H as [H|H].
  - destruct (group_lookup _ 0) as [z|]; [|contradiction].
    destruct (0 <? length z); [|contradiction].
    destruct H as [H|[]]. discriminate.
  - apply broken_extra_loop_broken in H as (k & Hin & Hk & Hlen & HU).
    apply HU. rewrite matched_keys_length.
    apply In_group_lookup in Hin;
      [|apply keys_build_NoDup; constructor].
    rewrite group_lookup_build in Hin. simpl in Hin.
    apply shared_reference_surplus with k; auto.
    unfold group_of. destruct (positions 0 mapping k);
      [discriminate | now injection Hin as ->].
Qed.

End BrokenExtra.

(** C2.  For every assignment and every non-zero reference index [k] whose
    group holds more than one written index: when [W > U] the pass emits
    an EXTRA record with the members of the group after the first, and
    otherwise it emits a BROKEN record with the whole group; both carry
    the reference index ([k - 1], counted from zero).  Such a group
    already makes [W > U], so it is the EXTRA record that is emitted. *)
Theorem C2_broken_extra_disambiguation (mapping : chromosome) (k : nat) :
  0 < k ->
  1 < length (group_of mapping k) ->
  (distinct_matched mapping < length mapping ->
   In (EXTRA (tl (group_of mapping k)) (Some (k - 1)))
      (check_broken_extra mapping))
  /\ (~ distinct_matched mapping < length mapping ->
      In (BROKEN (group_of mapping k) (k - 1))
         (check_broken_extra mapping))
  /\ distinct_matched mapping < length mapping.
Proof.
  intros Hk Hlen.
  assert (Hne : group_of mapping k <> [])
    by (destruct (group_of mapping k); simpl in *; [lia | discriminate]).
  pose proof (group_lookup_In _ _ _ (group_of_lookup mapping k Hne)) as Hin.
  pose proof (broken_extra_loop_In mapping (build_groups 0 mapping [])
                _ _ _ Hin Hk Hlen) as Hrec.
  rewrite matched_keys_length in Hrec.
  unfold check_broken_extra.
  split; [|split; [|now apply shared_reference_surplus with k]];
    intros HU; apply in_or_app; right.
  - apply Nat.ltb_lt in HU. now rewrite HU in Hrec.
  - apply Nat.ltb_nlt in HU. now rewrite HU in Hrec.
Qed.

Lemma C2_broken_extra_disambiguation_witness :
  In (EXTRA [2] (Some 1)) (check_broken_extra [1; 2; 2]).
Proof.
  apply (C2_broken_extra_disambiguation [1; 2; 2] 2);
    [ lia | simpl; lia | vm_compute; lia ].
Defined.

(* ===================================================================== *)
(** ** Results and list primitives *)
(* ===================================================================== *)

Lemma index_inr {A} (l : list A) i d :
  i < length l -> index l i = inr (nth i l d).
Proof.
  intros H. unfold index.
  rewrite (nth_error_nth' l d H). reflexivity.
Qed.

Lemma index_inl {A} (l : list A) i :
  length l <= i -> index l i = inl IndexError.
Proof.
  intros H. unfold index.
  apply nth_error_None in H. now rewrite H.
Qed.

Lemma In_firstn {A} (x : A) n : forall l, In x (firstn n l) -> In x l.
Proof.
  induction n as [|n IH]; intros [|a l] H; simpl in *; try contradiction.
  destruct H as [H|H]; auto.
Qed.

Lemma In_skipn {A} (x : A) n : forall l, In x (skipn n l) -> In x l.
Proof.
  induction n as [|n IH]; intros [|a l] H; simpl in *; auto.
Qed.

Lemma nth_error_Some_lt {A} (l : list A) i a :
  nth_error l i = Some a -> i < length l.
Proof. intros H. apply nth_error_Some. congruence. Qed.

Lemma map_result_inr {A B} (f : A -> result B) (g : A -> B) l :
  (forall a, In a l -> f a = inr (g a)) ->
  map_result f l = inr (map g l).
Proof.
  induction l as [|a l IH]; intros H; simpl; auto.
  rewrite (H a) by now left. simpl.
  rewrite IH by (intros; apply H; now right). reflexivity.
Qed.

Lemma map_result_inv {A B} (f : A -> result B) l bs :
  map_result f l = inr bs -> Forall2 (fun a b => f a = inr b) l bs.
Proof.
  revert bs. induction l as [|a l IH]; simpl; intros bs H.
  - injection H as <-. constructor.
  - destruct (f a) as [e|b] eqn:Ea; simpl in H; [discriminate|].
    destruct (map_result f l) as [e|bs'] eqn:El; simpl in H; [discriminate|].
    injection H as <-. constructor; auto.
Qed.

Lemma map_result_error {A B} (f : A -> result B) l e0 :
  (forall a e, f a = inl e -> e = e0) ->
  Exists (fun a => exists e, f a = inl e) l ->
  map_result f l = inl e0.
Proof.
  intros Hf. induction 1 as [a l [e He]|a l Hex IH]; simpl.
  - rewrite He. simpl. now rewrite (Hf _ _ He).
  - destruct (f a) as [e|b] eqn:Ea; simpl.
    + now rewrite (Hf _ _ Ea).
    + now rewrite IH.
Qed.

(* ===================================================================== *)
(** ** The normalizer *)
(* ===================================================================== *)

Section Normalizer.




Lemma amin_list_min l : l <> [] -> amin l = inr (list_min l).
Proof. destruct l; [congruence | reflexivity]. Qed.

Lemma amax_list_max l : l <> [] -> amax l = inr (list_max l).
Proof. destruct l; [congruence | reflexivity]. Qed.





Lemma row_xs stroke : 2 <= length stroke -> row stroke 0 = inr (xs stroke).
Proof. intros H. apply index_inr. lia. Qed.

Lemma row_ys stroke : 2 <= length stroke -> row stroke 1 = inr (ys stroke).
Proof. intros H. apply index_inr. lia. Qed.

Lemma collect_xy_ok strokes : forall all_x all_y,
  forallb (fun s => 2 <=? length s) strokes = true ->
  collect_xy strokes all_x all_y =
  inr (all_x ++ flat_map xs strokes, all_y ++ flat_map ys strokes).
Proof.
  induction strokes as [|s strokes IH]; intros ax ay H; simpl.
  - now rewrite !app_nil_r.
  - cbn [forallb] in H. apply andb_true_iff in H as [Hs H].
    apply Nat.leb_le in Hs.
    destruct (Nat.ltb_spec (length s) 2); [lia|].
    rewrite row_xs, row_ys by assumption. simpl.
    rewrite IH by assumption. now rewrite <- !app_assoc.
Qed.

(** The only exception of the first loop is the [ValueError] of its
    shape test. *)
Lemma collect_xy_error strokes : forall all_x all_y,
  forallb (fun s => 2 <=? length s) strokes = false ->
  collect_xy strokes all_x all_y = inl ValueError.
Proof.
  induction strokes as [|s strokes IH]; intros ax ay H;
    cbn [forallb collect_xy] in *.
  - discriminate.
  - destruct (Nat.ltb_spec (length s) 2) as [Hlt|Hge]; [reflexivity|].
    rewrite row_xs, row_ys by assumption. simpl.
    apply IH. apply andb_false_iff in H as [H|H]; auto.
    apply Nat.leb_nle in H. lia.
Qed.

Lemma normalize_stroke_ok x_min y_min scale stroke :
  2 <= length stroke ->
  normalize_stroke x_min y_min scale stroke =
  inr (rescale x_min y_min scale stroke).
Proof.
  intros H. unfold normalize_stroke.
  rewrite row_xs, row_ys by assumption.
  destruct stroke as [|x [|y rest]]; simpl in H; try lia.
  reflexivity.
Qed.

Lemma normalizable_inv strokes :
  normalizable strokes = true ->
  forallb (fun s => 2 <=? length s) strokes = true
  /\ flat_map xs strokes <> [] /\ flat_map ys strokes <> [].
Proof.
  unfold normalizable. intros H.
  apply andb_true_iff in H as [H Hy]. apply andb_true_iff in H as [H Hx].
  apply Nat.ltb_lt in Hx, Hy.
  repeat split; auto; intros E; rewrite E in *; simpl in *; lia.
Qed.

(** [normalize] returns on every normalizable list, with the rescaled
    strokes and the bounding-box record. *)
Lemma normalize_ok self strokes :
  normalizable strokes = true ->
  normalize self strokes =
  inr (map (rescale (x_min (metadata_of self strokes))
              (y_min (metadata_of self strokes))
              (scale (metadata_of self strokes))) strokes,
       Some (metadata_of self strokes)).
Proof.
  intros H. destruct (normalizable_inv _ H) as (Hs & Hx & Hy).
  unfold normalize. destruct strokes as [|s0 rest] eqn:E.
  - exfalso. now apply Hx.
  - rewrite <- E in *. rewrite collect_xy_ok by assumption. simpl.
    rewrite (amin_list_min _ Hx), (amax_list_max _ Hx),
            (amin_list_min _ Hy), (amax_list_max _ Hy). simpl.
    rewrite map_result_inr with
      (g := rescale (list_min (flat_map xs strokes))
              (list_min (flat_map ys strokes))
              (compute_scale self
                 (list_max (flat_map xs strokes)
                  - list_min (flat_map xs strokes))
                 (list_max (flat_map ys strokes)
                  - list_min (flat_map ys strokes)))).
    + reflexivity.
    + intros a Ha. apply normalize_stroke_ok.
      rewrite forallb_forall in Hs. apply Nat.leb_le. now apply Hs.
Qed.

(** [normalize] raises nothing but [ValueError]. *)
Lemma normalize_error self strokes e :
  normalize self strokes = inl e -> e = ValueError.
Proof.
  unfold normalize. destruct strokes as [|s0 rest]; [discriminate|].
  remember (s0 :: rest) as strokes eqn:E. clear E s0 rest.
  destruct (forallb (fun s => 2 <=? length s) strokes) eqn:Hs.
  - rewrite collect_xy_ok by assumption. cbn [rbind fst snd app].
    destruct (flat_map xs strokes) as [|x lx];
      cbn [amin amax rbind]; [congruence|].
    destruct (flat_map ys strokes) as [|y ly];
      cbn [amin amax rbind]; [congruence|].
    erewrite map_result_inr; [discriminate|].
    intros a Ha. apply normalize_stroke_ok.
    rewrite forallb_forall in Hs. apply Nat.leb_le. now apply Hs.
  - rewrite collect_xy_error by assumption. cbn [rbind]. congruence.
Qed.

Lemma normalize_short_row self strokes :
  Exists (fun s => length s < 2) strokes ->
  normalize self strokes = inl ValueError.
Proof.
  intros H. unfold normalize.
  destruct strokes as [|s0 rest]; [inversion H|].
  rewrite collect_xy_error; [reflexivity|].
  apply not_true_is_false. intros Hall.
  rewrite forallb_forall in Hall.
  apply Exists_exists in H as (s & Hin & Hlen).
  specialize (Hall s Hin). apply Nat.leb_le in Hall. lia.
Qed.

End Normalizer.

Section Idempotence.

Lemma Reqb_true a b : Reqb a b = true <-> a = b.
Proof. unfold Reqb. destruct (Req_dec_T a b); split; congruence. Qed.

Lemma Reqb_false a b : Reqb a b = false <-> a <> b.
Proof. unfold Reqb. destruct (Req_dec_T a b); split; congruence. Qed.

Lemma Reqb_refl a : Reqb a a = true.
Proof. now apply Reqb_true. Qed.



Lemma xs_rescale a b c s :
  xs (rescale a b c s) = map (fun v => ((v - a) * c)%R) (xs s).
Proof. reflexivity. Qed.

Lemma ys_rescale a b c s :
  ys (rescale a b c s) = map (fun v => ((v - b) * c)%R) (ys s).
Proof. reflexivity. Qed.








End Idempotence.



(* ===================================================================== *)
(** ** The normalizer over the object store *)
(* ===================================================================== *)

Section NormalizerFrame.

Lemma deref_app_l h ext p :
  p < length h -> deref (h ++ ext) p = inr (nth p h []).
Proof.
  intros H. unfold deref.
  rewrite nth_error_app1 by assumption.
  now rewrite (nth_error_nth' h [] H).
Qed.

Lemma deref_valid h p :
  p < length h -> deref h p = inr (nth p h []).
Proof.
  intros H. unfold deref. now rewrite (nth_error_nth' h [] H).
Qed.

Lemma deref_app_new h (a : ndarray) :
  deref (h ++ [a]) (length h) = inr a.
Proof.
  unfold deref. rewrite nth_error_app2 by lia.
  now rewrite Nat.sub_diag.
Qed.

Lemma set_index_app_new {A} (h : list A) a a' :
  set_index (h ++ [a]) (length h) a' = inr (h ++ [a']).
Proof.
  induction h as [|b h IH]; simpl; auto.
  now rewrite IH.
Qed.

Lemma assign_row_new h a r v a' :
  set_row a r v = inr a' ->
  assign_row (h ++ [a]) (length h) r v = inr (h ++ [a']).
Proof.
  intros H. unfold assign_row.
  rewrite deref_app_new. cbn [rbind]. rewrite H. cbn [rbind].
  now rewrite set_index_app_new.
Qed.

(** One turn of the second loop: the copy is appended, its rows 0 and 1
    are overwritten, nothing else is touched. *)
Lemma normalize_turn_heap xm ym sc h p :
  p < length h -> 2 <= length (nth p h []) ->
  (hq <~ copy_array h p ;;
   stroke <~ deref (fst hq) p ;;
   x <~ row stroke 0 ;;
   h2 <~ assign_row (fst hq) (snd hq) 0
           (map (fun v => ((v - xm) * sc)%R) x) ;;
   stroke <~ deref h2 p ;;
   y <~ row stroke 1 ;;
   h3 <~ assign_row h2 (snd hq) 1
           (map (fun v => ((v - ym) * sc)%R) y) ;;
   inr (h3, snd hq))
  = inr (h ++ [rescale xm ym sc (nth p h [])], length h).
Proof.
  intros Hp Hlen. unfold copy_array.
  rewrite (deref_valid h p Hp). cbn [rbind fst snd].
  rewrite (deref_app_l h _ p Hp). cbn [rbind].
  rewrite (row_xs _ Hlen). cbn [rbind].
  remember (nth p h []) as a eqn:Ea.
  destruct a as [|x [|y rest]]; simpl in Hlen; try lia.
  erewrite assign_row_new by reflexivity. cbn [rbind].
  rewrite (deref_app_l h _ p Hp). cbn [rbind]. rewrite <- Ea.
  rewrite (row_ys (x :: y :: rest)) by (simpl; lia). cbn [rbind].
  erewrite assign_row_new by reflexivity. cbn [rbind].
  reflexivity.
Qed.

Lemma normalize_loop_heap_unfold xm ym sc h p rest acc :
  normalize_loop_heap xm ym sc h (p :: rest) acc =
  (r <~ (hq <~ copy_array h p ;;
         stroke <~ deref (fst hq) p ;;
         x <~ row stroke 0 ;;
         h2 <~ assign_row (fst hq) (snd hq) 0
                 (map (fun v => ((v - xm) * sc)%R) x) ;;
         stroke <~ deref h2 p ;;
         y <~ row stroke 1 ;;
         h3 <~ assign_row h2 (snd hq) 1
                 (map (fun v => ((v - ym) * sc)%R) y) ;;
         inr (h3, snd hq)) ;;
   normalize_loop_heap xm ym sc (fst r) rest (acc ++ [snd r])).
Proof.
  cbn [normalize_loop_heap].
  destruct (copy_array h p) as [e|hq]; cbn [rbind]; auto.
  destruct (deref (fst hq) p) as [e|s1]; cbn [rbind]; auto.
  destruct (row s1 0) as [e|x]; cbn [rbind]; auto.
  destruct (assign_row (fst hq) (snd hq) 0 _) as [e|h2]; cbn [rbind]; auto.
  destruct (deref h2 p) as [e|s2]; cbn [rbind]; auto.
  destruct (row s2 1) as [e|y]; cbn [rbind]; auto.
  destruct (assign_row h2 (snd hq) 1 _) as [e|h3]; cbn [rbind]; auto.
Qed.

Lemma normalize_loop_heap_spec xm ym sc h0 : forall strokes ext acc,
  Forall (fun p => p < length h0 /\ 2 <= length (nth p h0 [])) strokes ->
  normalize_loop_heap xm ym sc (h0 ++ ext) strokes acc =
  inr (h0 ++ ext ++ map (rescale xm ym sc) (heap_strokes h0 strokes),
       acc ++ seq (length h0 + length ext) (length strokes)).
Proof.
  induction strokes as [|p strokes IH]; intros ext acc H.
  - simpl. now rewrite !app_nil_r.
  - inversion H as [|? ? [Hp Hlen] Hrest]; subst.
    rewrite normalize_loop_heap_unfold.
    rewrite normalize_turn_heap.
    + cbn [rbind fst snd].
      rewrite app_nth1 by assumption.
      rewrite <- app_assoc, IH by assumption.
      cbn [heap_strokes map length seq].
      rewrite <- !app_assoc, !length_app. cbn [length app].
      repeat f_equal. lia.
    + rewrite length_app. lia.
    + now rewrite app_nth1.
Qed.

Lemma collect_xy_heap_pure h : forall strokes all_x all_y,
  Forall (fun p => p < length h) strokes ->
  collect_xy_heap h strokes all_x all_y =
  collect_xy (heap_strokes h strokes) all_x all_y.
Proof.
  induction strokes as [|p strokes IH]; intros ax ay H; auto.
  inversion H as [|? ? Hp Hrest]; subst.
  cbn [collect_xy_heap heap_strokes map collect_xy].
  rewrite (deref_valid h p Hp).
  cbn [rbind]. destruct (length (nth p h []) <? 2); auto.
  destruct (row (nth p h []) 0); cbn [rbind]; auto.
  destruct (row (nth p h []) 1); cbn [rbind]; auto.
Qed.

Lemma heap_strokes_fresh h : forall l,
  heap_strokes (h ++ l) (seq (length h) (length l)) = l.
Proof.
  intros l. revert h. induction l as [|a l IH]; intros h; auto.
  cbn [length seq heap_strokes map].
  rewrite app_nth2, Nat.sub_diag by lia. cbn [nth]. f_equal.
  specialize (IH (h ++ [a])).
  rewrite <- app_assoc, length_app, Nat.add_1_r in IH. exact IH.
Qed.

Lemma rescale_keeps_rows xm ym sc strokes :
  Forall (fun a => 2 <= length a) strokes ->
  Forall2 (fun a b : ndarray =>
             length b = length a /\ skipn 2 b = skipn 2 a)
    strokes (map (rescale xm ym sc) strokes).
Proof.
  induction 1 as [|a strokes Ha _ IH]; simpl; constructor; auto.
  split; [|reflexivity].
  destruct a as [|x [|y rest]]; simpl in *; lia.
Qed.

Lemma normalize_heap_unfold self h strokes :
  strokes <> [] ->
  normalize_heap self h strokes =
  (xy <~ collect_xy_heap h strokes [] [] ;;
   x_min <~ amin (fst xy) ;;
   x_max <~ amax (fst xy) ;;
   y_min <~ amin (snd xy) ;;
   y_max <~ amax (snd xy) ;;
   hn <~ normalize_loop_heap x_min y_min
           (compute_scale self (x_max - x_min) (y_max - y_min))
           h strokes [] ;;
   inr (fst hn, snd hn,
        Some (mkMetadata x_min y_min x_max y_max
                (compute_scale self (x_max - x_min) (y_max - y_min))
                (x_max - x_min) (y_max - y_min)))).
Proof. destruct strokes; [congruence | reflexivity]. Qed.

End NormalizerFrame.

(** C10.  Over the object store, a returning call of [normalize] leaves
    every array that existed before the call as it was, returns references
    to fresh arrays, and each returned array has the rows of its input
    with only rows 0 and 1 replaced: the rows from the third on are those
    of the input.  The fresh arrays hold what the store-free [normalize]
    computes. *)
Theorem C10_normalize_frame (self : StrokeNormalizer) (h : store)
  (strokes : list nat) :
  Forall (fun p => p < length h) strokes ->
  normalizable (heap_strokes h strokes) = true ->
  exists h' outs meta,
    normalize_heap self h strokes = inr (h', outs, meta)
    /\ firstn (length h) h' = h
    /\ outs = seq (length h) (length strokes)
    /\ normalize self (heap_strokes h strokes)
       = inr (heap_strokes h' outs, meta)
    /\ Forall2 (fun a b : ndarray =>
                  length b = length a /\ skipn 2 b = skipn 2 a)
         (heap_strokes h strokes) (heap_strokes h' outs).
Proof.
  intros Hvalid H.
  destruct (normalizable_inv _ H) as (Hs & Hx & Hy).
  set (m := metadata_of self (heap_strokes h strokes)).
  set (news := map (rescale (x_min m) (y_min m) (scale m))
                 (heap_strokes h strokes)).
  exists (h ++ news), (seq (length h) (length strokes)), (Some m).
  assert (Hlen : length news = length strokes)
    by (unfold news, heap_strokes; now rewrite !length_map).
  assert (Hfresh : heap_strokes (h ++ news) (seq (length h) (length strokes))
                   = news)
    by (rewrite <- Hlen; apply heap_strokes_fresh).
  assert (Hrows : Forall (fun a : ndarray => 2 <= length a)
                    (heap_strokes h strokes)).
  { apply Forall_forall. intros a Ha.
    rewrite forallb_forall in Hs. apply Nat.leb_le. now apply Hs. }
  repeat split.
  - rewrite normalize_heap_unfold
      by (intros ->; now apply Hx).
    rewrite collect_xy_heap_pure by assumption.
    rewrite collect_xy_ok by assumption. cbn [rbind fst snd app].
    rewrite (amin_list_min _ Hx), (amax_list_max _ Hx),
            (amin_list_min _ Hy), (amax_list_max _ Hy).
    cbn [rbind].
    pose proof (normalize_loop_heap_spec
                  (x_min m) (y_min m) (scale m) h strokes [] []) as L.
    rewrite app_nil_r in L. cbn [app length] in L.
    rewrite Nat.add_0_r in L.
    unfold m, metadata_of, bounding_box in L. cbn [x_min y_min scale] in L.
    rewrite L; [reflexivity|].
    apply Forall_forall. intros p Hp. split.
    + rewrite Forall_forall in Hvalid. now apply Hvalid.
    + rewrite Forall_forall in Hrows. apply Hrows.
      unfold heap_strokes. apply in_map_iff. now exists p.
  - rewrite firstn_app, Nat.sub_diag, firstn_all. simpl.
    now rewrite app_nil_r.
  - rewrite Hfresh. now apply normalize_ok.
  - rewrite Hfresh. now apply rescale_keeps_rows.
Qed.

Lemma C10_normalize_frame_witness :
  exists h' outs meta,
    normalize_heap default_normalizer [[[0; 2]; [0; 0]; [7; 9]]]%R [0; 0]
    = inr (h', outs, meta)
    /\ firstn 1 h' = [[[0; 2]; [0; 0]; [7; 9]]]%R
    /\ outs = [1; 2]
    /\ normalize default_normalizer
         (heap_strokes [[[0; 2]; [0; 0]; [7; 9]]]%R [0; 0])
       = inr (heap_strokes h' outs, meta)
    /\ Forall2 (fun a b : ndarray =>
                  length b = length a /\ skipn 2 b = skipn 2 a)
         (heap_strokes [[[0; 2]; [0; 0]; [7; 9]]]%R [0; 0])
         (heap_strokes h' outs).
Proof.
  apply (C10_normalize_frame default_normalizer
           [[[0; 2]; [0; 0]; [7; 9]]]%R [0; 0]);
    [ repeat constructor | reflexivity ].
Defined.

(* ===================================================================== *)
(** ** Reasoning about randomized computations *)
(* ===================================================================== *)

Section RandLogic.

Context {A B : Type}.

Lemma returns_ret (a : A) (Q : A -> Prop) : Q a -> returns (ret a) Q.
Proof. intros H s. exists a, s. now split. Qed.

Lemma returns_bind (m : Rand A) (f : A -> Rand B) (P : A -> Prop)
  (Q : B -> Prop) :
  returns m P -> (forall a, P a -> returns (f a) Q) -> returns (bind m f) Q.
Proof.
  intros Hm Hf s. destruct (Hm s) as (a & s1 & E & Ha).
  destruct (Hf a Ha s1) as (b & s2 & E' & Hb).
  exists b, s2. unfold bind. rewrite E. now split.
Qed.

Lemma returns_lift (r : result A) (a : A) (Q : A -> Prop) :
  r = inr a -> Q a -> returns (lift r) Q.
Proof. intros -> H s. exists a, s. now split. Qed.

Lemma returns_weaken (m : Rand A) (P Q : A -> Prop) :
  returns m P -> (forall a, P a -> Q a) -> returns m Q.
Proof.
  intros Hm HPQ s. destruct (Hm s) as (a & s1 & E & Ha).
  exists a, s1. split; auto.
Qed.

Lemma returns_post (m : Rand A) (Q : A -> Prop) : returns m Q -> post m Q.
Proof.
  intros Hm s a s' E. destruct (Hm s) as (a0 & s0 & E0 & Ha).
  rewrite E in E0. now injection E0 as -> ->.
Qed.

Lemma returns_and (m : Rand A) (P Q : A -> Prop) :
  returns m P -> post m Q -> returns m (fun a => P a /\ Q a).
Proof.
  intros Hm Hp s. destruct (Hm s) as (a & s1 & E & Ha).
  exists a, s1. repeat split; auto. eapply Hp; eauto.
Qed.

Lemma post_ret (a : A) (Q : A -> Prop) : Q a -> post (ret a) Q.
Proof. intros H s a' s' [= <- <-]. exact H. Qed.

Lemma post_raise (e : exn) (Q : A -> Prop) : post (raise e) Q.
Proof. intros s a s' E. discriminate. Qed.

Lemma post_bind (m : Rand A) (f : A -> Rand B) (P : A -> Prop)
  (Q : B -> Prop) :
  post m P -> (forall a, P a -> post (f a) Q) -> post (bind m f) Q.
Proof.
  intros Hm Hf s b s' E. unfold bind in E.
  destruct (m s) as [e|[a s1]] eqn:Em; [discriminate|].
  eapply Hf; eauto.
Qed.

Lemma post_lift (r : result A) (Q : A -> Prop) :
  (forall a, r = inr a -> Q a) -> post (lift r) Q.
Proof.
  intros H s a s' E. unfold lift in E.
  destruct r as [e|a0]; [discriminate|]. injection E as <- <-. auto.
Qed.

Lemma post_weaken (m : Rand A) (P Q : A -> Prop) :
  post m P -> (forall a, P a -> Q a) -> post m Q.
Proof. intros Hm HPQ s a s' E. eauto. Qed.

Lemma post_true (m : Rand A) : post m (fun _ => True).
Proof. intros s a s' _. exact I. Qed.

Lemma fails_bind_l (m : Rand A) (f : A -> Rand B) e :
  fails m e -> fails (bind m f) e.
Proof. intros H s. unfold bind. now rewrite H. Qed.

Lemma fails_bind_r (m : Rand A) (f : A -> Rand B) (P : A -> Prop) e :
  returns m P -> (forall a, P a -> fails (f a) e) -> fails (bind m f) e.
Proof.
  intros Hm Hf s. destruct (Hm s) as (a & s1 & E & Ha).
  unfold bind. rewrite E. now apply Hf.
Qed.

Lemma fails_lift (r : result A) e : r = inl e -> fails (lift r) e.
Proof. intros -> s. reflexivity. Qed.

End RandLogic.

(** [step_lift v]: the computation starts by lifting a result known to be
    [inr v]; go on with [v]. *)
Ltac step_lift v :=
  first [ eapply returns_bind | eapply fails_bind_r ];
  [ eapply returns_lift with (Q := fun x => x = v); [eauto | reflexivity] | ];
  intros ? ->.

Lemma returns_replicateM {A} (m : Rand A) (P : A -> Prop) n :
  returns m P ->
  returns (replicateM n m) (fun l => length l = n /\ Forall P l).
Proof.
  intros Hm. induction n as [|n IH]; simpl.
  - apply returns_ret. split; auto.
  - eapply returns_bind; [exact Hm|]. intros a Ha.
    eapply returns_bind; [exact IH|]. intros l [Hl HP].
    apply returns_ret. split; simpl; auto.
Qed.

Lemma post_replicateM {A} (m : Rand A) (P : A -> Prop) n :
  post m P ->
  post (replicateM n m) (fun l => length l = n /\ Forall P l).
Proof.
  intros Hm. induction n as [|n IH]; simpl.
  - apply post_ret. split; auto.
  - eapply post_bind; [exact Hm|]. intros a Ha.
    eapply post_bind; [exact IH|]. intros l [Hl HP].
    apply post_ret. split; simpl; auto.
Qed.

(* ===================================================================== *)
(** ** The random primitives *)
(* ===================================================================== *)

Section RandomPrimitives.

Lemma returns_draw : returns draw (fun _ => True).
Proof. intros s. eexists _, _. split; [reflexivity | exact I]. Qed.

Lemma returns_randbelow n :
  0 < n -> returns (randbelow n) (fun k => k < n).
Proof.
  intros Hn. unfold randbelow.
  eapply returns_bind; [apply returns_draw|]. intros k _.
  apply returns_ret.
  assert (k mod N.of_nat n < N.of_nat n)%N by (apply N.mod_lt; lia).
  lia.
Qed.

Lemma returns_random : returns random (fun _ => True).
Proof.
  unfold random. eapply returns_bind; [apply returns_draw|].
  intros k _. now apply returns_ret.
Qed.

Lemma returns_randint low high :
  low < high -> returns (randint low high) (fun k => low <= k < high).
Proof.
  intros H. unfold randint.
  destruct (Nat.leb_spec high low); [lia|].
  eapply returns_bind; [apply returns_randbelow; lia|]. intros k Hk.
  apply returns_ret. cbv beta in *. lia.
Qed.

Lemma fails_randint low high :
  high <= low -> fails (randint low high) ValueError.
Proof.
  intros H s. unfold randint.
  destruct (Nat.leb_spec high low); [reflexivity | lia].
Qed.

Lemma returns_randint_list low high n :
  low < high ->
  returns (randint_list low high n)
    (fun l => length l = n /\ Forall (fun k => low <= k < high) l).
Proof.
  intros H. unfold randint_list.
  destruct (Nat.leb_spec high low); [lia|].
  apply returns_replicateM. now apply returns_randint.
Qed.

Lemma set_index_length {A} (l : list A) : forall i v l',
  set_index l i v = inr l' -> length l' = length l.
Proof.
  induction l as [|a l IH]; intros i v l' H; simpl in H; [discriminate|].
  destruct i as [|i].
  - injection H as <-. reflexivity.
  - destruct (set_index l i v) as [e|t] eqn:E; simpl in H; [discriminate|].
    injection H as <-. simpl. f_equal. eapply IH; eauto.
Qed.

Lemma set_index_In {A} (l : list A) : forall i v l' x,
  set_index l i v = inr l' -> In x l' -> x = v \/ In x l.
Proof.
  induction l as [|a l IH]; intros i v l' x H Hx; simpl in H; [discriminate|].
  destruct i as [|i].
  - injection H as <-. destruct Hx as [<-|Hx]; auto. right. now right.
  - destruct (set_index l i v) as [e|t] eqn:E; simpl in H; [discriminate|].
    injection H as <-. destruct Hx as [<-|Hx]; [right; now left|].
    destruct (IH _ _ _ _ E Hx); auto. right. now right.
Qed.

Lemma swap_length {A} (l : list A) i j : length (swap l i j) = length l.
Proof.
  unfold swap.
  destruct (nth_error l i) as [a|] eqn:Ei; auto.
  destruct (nth_error l j) as [b|] eqn:Ej; auto.
  destruct (set_index l i b) as [e|l1] eqn:E1; auto.
  destruct (set_index l1 j a) as [e|l2] eqn:E2; auto.
  apply set_index_length in E1, E2. congruence.
Qed.

Lemma swap_incl {A} (l : list A) i j : incl (swap l i j) l.
Proof.
  unfold swap.
  destruct (nth_error l i) as [a|] eqn:Ei; [|apply incl_refl].
  destruct (nth_error l j) as [b|] eqn:Ej; [|apply incl_refl].
  destruct (set_index l i b) as [e|l1] eqn:E1; [apply incl_refl|].
  destruct (set_index l1 j a) as [e|l2] eqn:E2; [apply incl_refl|].
  intros x Hx.
  destruct (set_index_In _ _ _ _ _ E2 Hx) as [->|Hx1];
    [eapply nth_error_In; eauto|].
  destruct (set_index_In _ _ _ _ _ E1 Hx1) as [->|Hx0]; auto.
  eapply nth_error_In; eauto.
Qed.

Lemma returns_shuffle_from {A} i : forall x : list A,
  returns (shuffle_from i x) (fun y => length y = length x /\ incl y x).
Proof.
  induction i as [|i IH]; intros x; simpl.
  - apply returns_ret. split; [reflexivity | apply incl_refl].
  - eapply returns_bind; [apply returns_randbelow; lia|]. intros j _.
    eapply returns_weaken; [apply IH|]. intros y [Hl Hi]. split.
    + now rewrite Hl, swap_length.
    + eapply incl_tran; [exact Hi | apply swap_incl].
Qed.

Lemma returns_shuffle {A} (x : list A) :
  returns (shuffle x) (fun y => length y = length x /\ incl y x).
Proof. apply returns_shuffle_from. Qed.

Lemma returns_choice a size :
  (0 <= size <= Z.of_nat a)%Z -> (a = 0 -> size = 0%Z) ->
  returns (choice a size)
    (fun l => length l = Z.to_nat size /\ Forall (fun i => i < a) l).
Proof.
  intros Hs H0. unfold choice.
  replace ((a =? 0) && negb (size =? 0)%Z) with false.
  2:{ destruct (Nat.eqb_spec a 0) as [Ha|Ha]; simpl; auto.
      rewrite (H0 Ha). reflexivity. }
  destruct (Z.ltb_spec (Z.of_nat a) size); [lia|].
  destruct (Z.ltb_spec size 0); [lia|].
  eapply returns_bind; [apply returns_shuffle|]. intros p [Hl Hi].
  apply returns_ret. split.
  - rewrite length_firstn, Hl, length_seq. lia.
  - apply Forall_forall. intros i Hin.
    apply In_firstn, Hi, in_seq in Hin. lia.
Qed.

Lemma fails_choice a size :
  (Z.of_nat a < size \/ size < 0)%Z -> fails (choice a size) ValueError.
Proof.
  intros H s. unfold choice.
  destruct ((a =? 0) && negb (size =? 0)%Z); [reflexivity|].
  destruct (Z.ltb_spec (Z.of_nat a) size); [reflexivity|].
  destruct (Z.ltb_spec size 0); [reflexivity | lia].
Qed.

End RandomPrimitives.

(* ===================================================================== *)
(** ** The fitness function *)
(* ===================================================================== *)

Section Fitness.

Lemma Rgtb_true a b : Rgtb a b = true <-> (a > b)%R.
Proof. unfold Rgtb. destruct (Rgt_dec a b); split; auto; discriminate. Qed.

Lemma Rgtb_false a b : Rgtb a b = false <-> (a <= b)%R.
Proof.
  unfold Rgtb. destruct (Rgt_dec a b); split; auto; try discriminate.
  - intros. lra.
  - intros _. lra.
Qed.

Lemma Rltb_true a b : Rltb a b = true <-> (a < b)%R.
Proof. unfold Rltb. destruct (Rlt_dec a b); split; auto; discriminate. Qed.

Lemma Rltb_false a b : Rltb a b = false <-> (b <= a)%R.
Proof.
  unfold Rltb. destruct (Rlt_dec a b); split; auto; try discriminate.
  - intros. lra.
  - intros _. lra.
Qed.

Lemma norm2_nonneg v : (0 <= norm2 v)%R.
Proof. apply sqrt_pos. Qed.

Lemma norm2_zero v : norm2 (vsub v v) = 0%R.
Proof.
  unfold norm2, vsub. simpl.
  replace ((fst v - fst v) * (fst v - fst v)
           + (snd v - snd v) * (snd v - snd v))%R with 0%R by ring.
  apply sqrt_0.
Qed.

Lemma angle_difference_nonneg a b :
  (- PI <= a <= PI)%R -> (- PI <= b <= PI)%R ->
  (0 <= angle_difference a b)%R.
Proof.
  intros Ha Hb. unfold angle_difference.
  assert (Rabs (a - b) <= 2 * PI)%R by (apply Rabs_le; lra).
  pose proof (Rabs_pos (a - b)).
  destruct (Rgtb (Rabs (a - b)) PI); lra.
Qed.

Lemma angle_difference_same a : angle_difference a a = 0%R.
Proof.
  unfold angle_difference.
  replace (a - a)%R with 0%R by ring. rewrite Rabs_R0.
  pose proof PI_RGT_0.
  destruct (Rgtb 0 PI) eqn:E; auto.
  apply Rgtb_true in E. lra.
Qed.

Lemma pair_distance_nonneg self wtl rtl w r :
  nonneg_weights self -> angle_in_range w -> angle_in_range r ->
  (0 <= pair_distance self wtl rtl w r)%R.
Proof.
  intros (Ha & Hb & Hg & He) Hw Hr. unfold pair_distance.
  pose proof (norm2_nonneg (vsub (center w) (center r))).
  pose proof (angle_difference_nonneg _ _ Hw Hr).
  repeat apply Rplus_le_le_0_compat; apply Rmult_le_pos; auto;
    apply Rabs_pos.
Qed.

Lemma pair_distance_same self tl f : pair_distance self tl tl f f = 0%R.
Proof.
  unfold pair_distance.
  rewrite norm2_zero, angle_difference_same.
  replace (length_ f - length_ f)%R with 0%R by ring.
  replace (norm2 (vsub (center f) tl) - norm2 (vsub (center f) tl))%R
    with 0%R by ring.
  rewrite Rabs_R0. ring.
Qed.

Lemma bbox_tl_returns features : exists tl, bbox_tl features = inr tl.
Proof.
  destruct features as [|f features]; [now exists (0%R, 0%R)|].
  simpl. eexists. reflexivity.
Qed.

Lemma index_In {A} (l : list A) i a : index l i = inr a -> In a l.
Proof.
  unfold index. destruct (nth_error l i) eqn:E; [|discriminate].
  intros [= <-]. eapply nth_error_In; eauto.
Qed.

Lemma distance_loop_lower self wf rf wtl rtl :
  nonneg_weights self -> features_ok wf -> features_ok rf ->
  forall mapping idx total d,
    distance_loop self wf rf wtl rtl idx mapping total = inr d ->
    (total <= d)%R.
Proof.
  intros Hw Hwf Hrf m.
  induction m as [|r m IH]; intros idx total d H; simpl in H.
  - injection H as <-. lra.
  - destruct (index wf idx) as [e|w] eqn:Ew; simpl in H; [discriminate|].
    destruct ((r =? 0) || (length rf <? r)).
    + apply IH in H. lra.
    + destruct (index rf (r - 1)) as [e|f] eqn:Ef; simpl in H;
        [discriminate|].
      apply IH in H.
      assert (0 <= pair_distance self wtl rtl w f)%R.
      { apply pair_distance_nonneg; auto.
        - unfold features_ok in Hwf. rewrite Forall_forall in Hwf.
          eapply Hwf, index_In; eauto.
        - unfold features_ok in Hrf. rewrite Forall_forall in Hrf.
          eapply Hrf, index_In; eauto. }
      lra.
Qed.

Lemma distance_loop_returns self wf rf wtl rtl :
  forall mapping idx total,
    idx + length mapping <= length wf ->
    exists d, distance_loop self wf rf wtl rtl idx mapping total = inr d.
Proof.
  intros m.
  induction m as [|r m IH]; intros idx total H; simpl in *.
  - now exists total.
  - rewrite (index_inr wf idx origin_features)
      by lia. simpl.
    destruct (Nat.eqb_spec r 0) as [E0|E0]; simpl.
    + apply IH. lia.
    + destruct (Nat.ltb_spec (length rf) r).
      * apply IH. lia.
      * rewrite (index_inr rf (r - 1) origin_features) by lia.
        simpl. apply IH. lia.
Qed.

(** When [evaluate_chromosome] returns, the fitness lies in [(0, 1]]. *)
Lemma evaluate_range self chrom wf rf f :
  nonneg_weights (fitness_func self) -> features_ok wf -> features_ok rf ->
  evaluate_chromosome self chrom wf rf = inr f -> (0 < f <= 1)%R.
Proof.
  intros Hw Hwf Hrf. unfold evaluate_chromosome, compute_distance.
  destruct (bbox_tl rf) as [e|rtl]; simpl; [discriminate|].
  destruct (bbox_tl wf) as [e|wtl]; simpl; [discriminate|].
  destruct (distance_loop _ _ _ _ _ _ _ _) as [e|d] eqn:Ed; simpl;
    [discriminate|].
  intros [= <-]. apply distance_loop_lower in Ed; auto.
  unfold compute_fitness. split.
  - apply Rdiv_lt_0_compat; lra.
  - apply Rmult_le_reg_r with (1 + d)%R; [lra|]. field_simplify; lra.
Qed.

Lemma evaluate_returns self chrom wf rf :
  length chrom <= length wf ->
  exists f, evaluate_chromosome self chrom wf rf = inr f.
Proof.
  intros H. unfold evaluate_chromosome, compute_distance.
  destruct (bbox_tl_returns rf) as [rtl ->].
  destruct (bbox_tl_returns wf) as [wtl ->]. simpl.
  destruct (distance_loop_returns (fitness_func self) wf rf wtl rtl
              chrom 0 0%R H) as [d ->].
  simpl. eexists. reflexivity.
Qed.

(** The identity assignment on equal feature lists costs nothing. *)
Lemma distance_loop_identity self features tl : forall k idx total,
  idx + k <= length features ->
  distance_loop self features features tl tl idx (seq (S idx) k) total
  = inr total.
Proof.
  induction k as [|k IH]; intros idx total H; simpl; auto.
  rewrite (index_inr features idx origin_features) by lia.
  simpl.
  destruct (Nat.ltb_spec (length features) (S idx)); [lia|].
  rewrite Nat.sub_0_r.
  rewrite (index_inr features idx origin_features) by lia.
  simpl. rewrite pair_distance_same, Rplus_0_r. apply IH. lia.
Qed.

Lemma evaluate_identity self features :
  evaluate_chromosome self (seq 1 (length features)) features features
  = inr 1%R.
Proof.
  unfold evaluate_chromosome, compute_distance.
  destruct (bbox_tl_returns features) as [tl ->]. simpl.
  rewrite distance_loop_identity by lia. simpl.
  unfold compute_fitness. f_equal. field.
Qed.

End Fitness.

(* ===================================================================== *)
(** ** The genetic operators *)
(* ===================================================================== *)

Section Operators.

Variable self : GeneticAlgorithm.

Lemma shape_ok_incl W R c l :
  length c = W -> incl c l -> Forall (fun g => g <= R) l -> shape_ok W R c.
Proof.
  intros Hl Hi Hf. split; auto.
  rewrite Forall_forall in *. intros g Hg. apply Hf, Hi, Hg.
Qed.

(** Creation establishes the shape. *)
Lemma create_chromosome_returns :
  returns (create_chromosome self)
    (shape_ok (n_written self) (n_reference self)).
Proof.
  unfold create_chromosome.
  set (W := n_written self). set (R := n_reference self).
  assert (Hseq : Forall (fun g => g <= R) (seq 1 R)).
  { apply Forall_forall. intros g Hg. apply in_seq in Hg. lia. }
  destruct (Z.eqb_spec (Z.of_nat W - Z.of_nat R) 0) as [E|E].
  - eapply returns_weaken; [apply returns_shuffle|].
    intros y [Hl Hi]. apply shape_ok_incl with (seq 1 R); auto.
    rewrite Hl, length_seq. lia.
  - destruct (Z.ltb_spec 0 (Z.of_nat W - Z.of_nat R)) as [L|L].
    + eapply returns_weaken; [apply returns_shuffle|].
      intros y [Hl Hi].
      apply shape_ok_incl with (seq 1 R ++ repeat 0 (Z.to_nat
                                  (Z.of_nat W - Z.of_nat R))); auto.
      * rewrite Hl, length_app, length_seq, repeat_length. lia.
      * apply Forall_app. split; auto.
        apply Forall_forall. intros g Hg.
        apply repeat_spec in Hg. lia.
    + eapply returns_weaken; [apply returns_randint_list; lia|].
      intros l [Hl Hf]. split; auto.
      eapply Forall_impl; [|exact Hf]. simpl. intros. lia.
Qed.

(** Crossover preserves the shape. *)
Lemma crossover_returns W R parent1 parent2 :
  shape_ok W R parent1 -> shape_ok W R parent2 ->
  returns (crossover self parent1 parent2)
    (fun ch => shape_ok W R (fst ch) /\ shape_ok W R (snd ch)).
Proof.
  intros [L1 F1] [L2 F2]. unfold crossover.
  destruct (Nat.ltb_spec (length parent1) 2) as [Hs|Hs].
  - apply returns_ret. repeat split; auto.
  - eapply returns_bind; [apply returns_random|]. intros u _.
    destruct (Rltb u (crossover_rate self)).
    + eapply returns_bind; [apply returns_randint; lia|].
      intros point Hp. apply returns_ret. cbn [fst snd].
      assert (Hcut : forall a b : list nat,
                 length a = W -> length b = W ->
                 Forall (fun g => g <= R) a -> Forall (fun g => g <= R) b ->
                 shape_ok W R (firstn point a ++ skipn point b)).
      { intros a b La Lb Fa Fb. split.
        - rewrite length_app, length_firstn, length_skipn. lia.
        - apply Forall_app. split; apply Forall_forall; intros g Hg.
          + apply In_firstn in Hg. rewrite Forall_forall in Fa. auto.
          + apply In_skipn in Hg. rewrite Forall_forall in Fb. auto. }
      split; apply Hcut; auto.
    + apply returns_ret. repeat split; auto.
Qed.

(** Mutation preserves the shape. *)
Lemma mutate_returns W chrom :
  shape_ok W (n_reference self) chrom ->
  returns (mutate self chrom) (shape_ok W (n_reference self)).
Proof.
  unfold mutate. revert W.
  induction chrom as [|g rest IH]; intros W [HL HF]; simpl.
  - apply returns_ret. split; auto.
  - inversion HF as [|? ? Hg Hrest]; subst.
    eapply returns_bind; [apply returns_random|]. intros u _.
    eapply returns_bind with (P := fun g' => g' <= n_reference self).
    + destruct (Rltb u (mutation_rate self)).
      * eapply returns_weaken; [apply returns_randint; lia|].
        simpl. intros. lia.
      * now apply returns_ret.
    + intros g' Hg'.
      eapply returns_bind; [apply (IH (length rest)); now split|].
      intros tail [Ht Hf]. apply returns_ret. split; simpl; auto.
Qed.

Lemma py_max_by_In {A} (key : A -> R) l a :
  py_max_by key l = inr a -> In a l.
Proof.
  destruct l as [|x t]; simpl; [discriminate|]. intros [= <-].
  assert (G : forall t m, In (fold_left
              (fun m x => if Rgtb (key x) (key m) then x else m) t m)
              (m :: t)).
  { clear. induction t as [|y t IH]; intros m; simpl; auto.
    destruct (Rgtb (key y) (key m)).
    - destruct (IH y) as [H|H]; auto.
    - destruct (IH m) as [H|H]; auto. }
  apply G.
Qed.

(** Selection returns a member of the population. *)
Lemma tournament_selection_post population fitnesses :
  post (tournament_selection self population fitnesses)
    (fun c => In c population).
Proof.
  unfold tournament_selection.
  eapply post_bind; [apply post_true|]. intros indices _.
  eapply post_bind with
    (P := fun t => Forall (fun cf : list nat * R => In (fst cf) population) t).
  - apply post_lift. intros t Ht. apply map_result_inv in Ht.
    induction Ht as [|i cf l t Hi _ IH]; constructor; auto.
    destruct (index population i) as [e|c] eqn:Ec; simpl in Hi;
      [discriminate|].
    destruct (index fitnesses i) as [e|f]; simpl in Hi; [discriminate|].
    injection Hi as <-. simpl. eapply index_In; eauto.
  - intros t Ht. eapply post_bind with (P := fun w => In (fst w) population).
    + apply post_lift. intros w Hw. apply py_max_by_In in Hw.
      rewrite Forall_forall in Ht. auto.
    + intros w Hw. now apply post_ret.
Qed.

Lemma tournament_selection_returns population fitnesses :
  length fitnesses = length population ->
  (1 <= tournament_size self <= Z.of_nat (length population))%Z ->
  returns (tournament_selection self population fitnesses)
    (fun c => In c population).
Proof.
  intros Hlen HT.
  apply returns_weaken with
    (P := fun c => True /\ In c population); [|tauto].
  apply returns_and; [|apply tournament_selection_post].
  unfold tournament_selection.
  eapply returns_bind; [apply returns_choice; lia|].
  intros indices [Hl Hi].
  assert (Hmap : exists t,
             map_result (fun i => c <~ index population i ;;
                                  f <~ index fitnesses i ;; inr (c, f))
               indices = inr t /\ length t = length indices).
  { clear Hl. induction Hi as [|i l Hi _ IH]; simpl.
    - now exists [].
    - rewrite (index_inr population i []) by assumption. simpl.
      rewrite (index_inr fitnesses i 0%R) by lia. simpl.
      destruct IH as (t & -> & Ht). simpl. eexists. split; eauto.
      simpl. now rewrite Ht. }
  destruct Hmap as (t & Et & Ht).
  eapply returns_bind; [eapply returns_lift with (Q := fun x => x = t);
                        [exact Et | reflexivity]|].
  intros t' ->.
  destruct t as [|w t]; [simpl in Ht; lia|].
  eapply returns_bind; [eapply returns_lift with (Q := fun _ => True);
                        [reflexivity | exact I]|].
  intros w' _. now apply returns_ret.
Qed.

End Operators.

(* ===================================================================== *)
(** ** The generation loop *)
(* ===================================================================== *)

Section RandExt.

Context {A : Type}.

Lemma returns_ext (m m' : Rand A) (Q : A -> Prop) :
  (forall s, m s = m' s) -> returns m' Q -> returns m Q.
Proof. intros E H s. rewrite E. apply H. Qed.

Lemma post_ext (m m' : Rand A) (Q : A -> Prop) :
  (forall s, m s = m' s) -> post m' Q -> post m Q.
Proof. intros E H s a s' Hs. rewrite E in Hs. eapply H; eauto. Qed.

Lemma fails_ext (m m' : Rand A) e :
  (forall s, m s = m' s) -> fails m' e -> fails m e.
Proof. intros E H s. rewrite E. apply H. Qed.

End RandExt.

Section Generations.

Variable self : GeneticAlgorithm.
Variables wf rf : list StrokeFeatures.

Lemma generation_loop_unfold n st s :
  generation_loop self wf rf (S n) st s =
  (fitnesses <- lift (map_result
                        (fun chrom => evaluate_chromosome self chrom wf rf)
                        (population st)) ;;
   gen_best <- lift (py_max fitnesses) ;;
   st1 <- lift (record_generation st fitnesses gen_best) ;;
   if (convergence_generations self
       <=? generations_without_improvement st1)%Z
   then ret st1
   else
     elite <- lift (elite_of st1) ;;
     new_population <- fill_population self (population st) fitnesses
                         (Z.to_nat (population_size self)) [elite] ;;
     generation_loop self wf rf n
       (with_population st1
          (slice_to new_population (population_size self)))) s.
Proof.
  cbn [generation_loop]. unfold bind, lift.
  destruct (map_result _ (population st)) as [e|fitnesses]; auto.
  destruct (py_max fitnesses) as [e|gen_best]; auto.
  unfold record_generation.
  destruct (Rgtb gen_best (best_fitness st)).
  - destruct (index_of gen_best fitnesses) as [e|i]; cbn [rbind]; auto.
    destruct (index (population st) i) as [e|c]; cbn [rbind]; auto.
  - cbn [rbind]. reflexivity.
Qed.

End Generations.

Section Bookkeeping.

Lemma py_max_fold_ge t : forall m x,
  In x (m :: t) ->
  (x <= fold_left (fun m x => if Rgtb x m then x else m) t m)%R.
Proof.
  induction t as [|y t IH]; intros m x Hx; simpl.
  - destruct Hx as [->|[]]. lra.
  - destruct (Rgtb y m) eqn:E.
    + apply Rgtb_true in E. destruct Hx as [->|[->|Hx]].
      * eapply Rle_trans; [|apply IH; now left]. lra.
      * apply IH. now left.
      * apply IH. now right.
    + apply Rgtb_false in E. destruct Hx as [->|[->|Hx]].
      * apply IH. now left.
      * eapply Rle_trans; [exact E | apply IH; now left].
      * apply IH. now right.
Qed.

Lemma py_max_fold_In t : forall m,
  In (fold_left (fun m x => if Rgtb x m then x else m) t m) (m :: t).
Proof.
  induction t as [|y t IH]; intros m; simpl; auto.
  destruct (Rgtb y m).
  - destruct (IH y) as [H|H]; auto.
  - destruct (IH m) as [H|H]; auto.
Qed.

Lemma py_max_spec l m :
  py_max l = inr m -> In m l /\ forall x, In x l -> (x <= m)%R.
Proof.
  destruct l as [|a t]; simpl; [discriminate|]. intros [= <-]. split.
  - apply py_max_fold_In.
  - intros x Hx. now apply py_max_fold_ge.
Qed.

Lemma py_max_returns l : l <> [] -> exists m, py_max l = inr m.
Proof. destruct l; [congruence | eexists; reflexivity]. Qed.

Lemma index_of_returns v l :
  In v l -> exists i, index_of v l = inr i /\ nth_error l i = Some v.
Proof.
  induction l as [|a l IH]; simpl; [contradiction|]. intros H.
  destruct (Reqb a v) eqn:E.
  - apply Reqb_true in E. subst. now exists 0.
  - apply Reqb_false in E. destruct H as [H|H]; [congruence|].
    destruct (IH H) as (i & -> & Hi). now exists (S i).
Qed.

Lemma index_of_nth v l i :
  index_of v l = inr i -> nth_error l i = Some v.
Proof.
  revert i. induction l as [|a l IH]; intros i; simpl; [discriminate|].
  destruct (Reqb a v) eqn:E.
  - apply Reqb_true in E. subst. now intros [= <-].
  - destruct (index_of v l) as [e|j]; simpl; [discriminate|].
    intros [= <-]. simpl. now apply IH.
Qed.

Lemma index_nth_error {A} (l : list A) i a :
  index l i = inr a <-> nth_error l i = Some a.
Proof.
  unfold index. destruct (nth_error l i); split; congruence.
Qed.

(** What one round of bookkeeping does to the state. *)
Lemma record_generation_inv st fitnesses m st1 :
  record_generation st fitnesses m = inr st1 ->
  population st1 = population st
  /\ best_fitness_history st1 = best_fitness_history st ++ [m]
  /\ ((m > best_fitness st)%R
      /\ best_fitness st1 = m
      /\ generations_without_improvement st1 = 0%Z
      /\ (exists i c, index_of m fitnesses = inr i
                      /\ nth_error (population st) i = Some c
                      /\ best_chromosome st1 = Some c)
      \/ (m <= best_fitness st)%R
         /\ best_fitness st1 = best_fitness st
         /\ generations_without_improvement st1
            = (generations_without_improvement st + 1)%Z
         /\ best_chromosome st1 = best_chromosome st).
Proof.
  unfold record_generation.
  destruct (Rgtb m (best_fitness st)) eqn:E.
  - apply Rgtb_true in E.
    destruct (index_of m fitnesses) as [e|i] eqn:Ei; cbn [rbind];
      [discriminate|].
    destruct (index (population st) i) as [e|c] eqn:Ec; cbn [rbind];
      [discriminate|].
    intros [= <-]. cbn. split; [reflexivity|]. split; [reflexivity|].
    left. split; [exact E|]. split; [reflexivity|]. split; [reflexivity|].
    exists i, c. split; [reflexivity|]. split; [|reflexivity].
    now apply index_nth_error.
  - apply Rgtb_false in E. cbn [rbind]. intros [= <-]. cbn.
    split; [reflexivity|]. split; [reflexivity|].
    right. split; [exact E|]. repeat split.
Qed.

Lemma record_generation_returns st fitnesses m :
  In m fitnesses -> length fitnesses = length (population st) ->
  exists st1, record_generation st fitnesses m = inr st1.
Proof.
  intros Hin Hlen. unfold record_generation.
  destruct (Rgtb m (best_fitness st)).
  - destruct (index_of_returns _ _ Hin) as (i & -> & Hi). cbn [rbind].
    assert (Hlt : i < length (population st)).
    { rewrite <- Hlen. apply nth_error_Some. congruence. }
    rewrite (index_inr (population st) i [] Hlt). cbn [rbind].
    eexists. reflexivity.
  - cbn [rbind]. eexists. reflexivity.
Qed.

Lemma Forall2_length_eq {A B} (P : A -> B -> Prop) l l' :
  Forall2 P l l' -> length l = length l'.
Proof. induction 1; simpl; auto. Qed.

Lemma Forall2_nth_error {A B} (P : A -> B -> Prop) l l' :
  Forall2 P l l' ->
  forall i a b, nth_error l i = Some a -> nth_error l' i = Some b -> P a b.
Proof.
  induction 1 as [|x y l l' Hxy _ IH]; intros [|i] a b Ha Hb;
    simpl in *; try discriminate.
  - injection Ha as <-. injection Hb as <-. exact Hxy.
  - eauto.
Qed.

Lemma nondecreasing_snoc h x :
  nondecreasing h -> Forall (fun y => (y <= x)%R) h ->
  nondecreasing (h ++ [x]).
Proof.
  intros Hh Hx g a b Ha Hb.
  destruct (Nat.lt_ge_cases (S g) (length h)) as [L|L].
  - rewrite nth_error_app1 in Ha, Hb by lia. eauto.
  - assert (g < length (h ++ [x])).
    { apply nth_error_Some. rewrite Ha. discriminate. }
    assert (S g < length (h ++ [x])).
    { apply nth_error_Some. rewrite Hb. discriminate. }
    rewrite length_app in H, H0. simpl in H, H0.
    assert (Eg : S g = length h) by lia.
    rewrite nth_error_app1 in Ha by lia.
    rewrite nth_error_app2, Eg, Nat.sub_diag in Hb by lia.
    injection Hb as <-.
    rewrite Forall_forall in Hx. eapply Hx, nth_error_In; eauto.
Qed.

Lemma slice_to_head {A} (a : A) l p :
  (1 <= p)%Z -> exists rest, slice_to (a :: l) p = a :: rest.
Proof.
  intros H. unfold slice_to. destruct (Z.leb_spec 0 p); [|lia].
  destruct (Z.to_nat p) as [|n] eqn:E; [lia|].
  simpl. eexists. reflexivity.
Qed.

Lemma slice_to_length {A} (l : list A) p :
  (0 <= p <= Z.of_nat (length l))%Z ->
  length (slice_to l p) = Z.to_nat p.
Proof.
  intros H. unfold slice_to. destruct (Z.leb_spec 0 p); [|lia].
  rewrite length_firstn. lia.
Qed.

Lemma slice_to_Forall {A} (P : A -> Prop) (l : list A) p :
  Forall P l -> Forall P (slice_to l p).
Proof.
  intros H. unfold slice_to.
  destruct (0 <=? p)%Z; apply Forall_forall; intros x Hx;
    apply In_firstn in Hx; rewrite Forall_forall in H; auto.
Qed.

End Bookkeeping.

Section Evolution.

Variable self : GeneticAlgorithm.
Variables wf rf : list StrokeFeatures.

Lemma fill_population_post pop fits : forall fuel acc,
  post (fill_population self pop fits fuel acc)
    (fun l => exists rest, l = acc ++ rest).
Proof.
  induction fuel as [|fuel IH]; intros acc; cbn [fill_population];
    destruct (Z.of_nat (length acc) <? population_size self)%Z.
  - apply post_raise.
  - apply post_ret. exists []. now rewrite app_nil_r.
  - do 5 (eapply post_bind; [apply post_true|]; intros ? _).
    eapply post_weaken; [apply IH|]. intros l [rest ->].
    eexists. now rewrite <- app_assoc.
  - apply post_ret. exists []. now rewrite app_nil_r.
Qed.

Lemma fill_population_returns pop fits :
  length fits = length pop ->
  Forall (ga_shape self) pop ->
  forall fuel acc,
    Forall (ga_shape self) acc ->
    (population_size self <= Z.of_nat (length acc)
     \/ 1 <= tournament_size self <= Z.of_nat (length pop))%Z ->
    (population_size self <= Z.of_nat (length acc) + Z.of_nat fuel)%Z ->
    returns (fill_population self pop fits fuel acc)
      (fun l => Forall (ga_shape self) l
                /\ (population_size self <= Z.of_nat (length l))%Z).
Proof.
  intros Hlen Hpop.
  induction fuel as [|fuel IH]; intros acc Hacc Hor Hfuel;
    cbn [fill_population];
    destruct (Z.ltb_spec (Z.of_nat (length acc)) (population_size self))
      as [Hlt|Hge];
    try (apply returns_ret; split; [assumption | lia]).
  - lia.
  - assert (HT : (1 <= tournament_size self <= Z.of_nat (length pop))%Z)
      by lia.
    rewrite Forall_forall in Hpop.
    eapply returns_bind;
      [apply tournament_selection_returns; assumption|]. intros p1 H1.
    eapply returns_bind;
      [apply tournament_selection_returns; assumption|]. intros p2 H2.
    eapply returns_bind;
      [apply crossover_returns; apply Hpop; eassumption|].
    intros ch [Hc1 Hc2].
    eapply returns_bind; [apply mutate_returns; exact Hc1|]. intros c1 Hm1.
    eapply returns_bind; [apply mutate_returns; exact Hc2|]. intros c2 Hm2.
    apply IH.
    + apply Forall_app. split; auto.
    + now right.
    + rewrite length_app. simpl. lia.
Qed.

(** The control flow of the loop, once: an invariant [I] carried from
    generation to generation yields [Q] at the [break] and at the end. *)
Lemma generation_loop_rule (I Q : evo_state -> Prop) :
  (forall st, I st -> Q st) ->
  (forall st fits m st1,
      I st ->
      Forall2 (fun c f => evaluate_chromosome self c wf rf = inr f)
        (population st) fits ->
      py_max fits = inr m ->
      record_generation st fits m = inr st1 ->
      Q st1
      /\ forall elite rest,
          best_chromosome st1 = Some elite ->
          I (with_population st1
               (slice_to (elite :: rest) (population_size self)))) ->
  forall n st, I st -> post (generation_loop self wf rf n st) Q.
Proof.
  intros Hexit Hstep. induction n as [|n IH]; intros st HI.
  - simpl. apply post_ret. auto.
  - eapply post_ext; [apply generation_loop_unfold|].
    eapply post_bind; [apply post_lift; intros fits Hf; exact Hf|].
    intros fits Hfits. apply map_result_inv in Hfits.
    eapply post_bind; [apply post_lift; intros m Hm; exact Hm|].
    intros m Hm.
    eapply post_bind; [apply post_lift; intros st1 H1; exact H1|].
    intros st1 H1.
    destruct (Hstep st fits m st1 HI Hfits Hm H1) as [HQ Hnext].
    destruct (_ <=? _)%Z; [now apply post_ret|].
    eapply post_bind; [apply post_lift; intros c Hc; exact Hc|].
    intros elite He. unfold elite_of in He.
    destruct (best_chromosome st1) as [c|] eqn:Eb; [|discriminate].
    injection He as ->.
    eapply post_bind; [apply fill_population_post|].
    intros new_population [rest ->]. apply IH. now apply Hnext.
Qed.

End Evolution.

Section Elitism.

Variable self : GeneticAlgorithm.
Variables wf rf : list StrokeFeatures.

Lemma Forall2_head_fitness (pop : list (list nat)) fits c rest b :
  Forall2 (fun c f => evaluate_chromosome self c wf rf = inr f) pop fits ->
  pop = c :: rest ->
  evaluate_chromosome self c wf rf = inr b ->
  In b fits.
Proof.
  intros HF -> Hc. inversion HF as [|? f ? fits' Hf _]; subst.
  rewrite Hc in Hf. injection Hf as <-. now left.
Qed.

(** The fitness of the chromosome that the bookkeeping keeps as best. *)
Lemma record_generation_best st fits m st1 :
  Forall2 (fun c f => evaluate_chromosome self c wf rf = inr f)
    (population st) fits ->
  (forall c, best_chromosome st = Some c ->
             evaluate_chromosome self c wf rf = inr (best_fitness st)) ->
  record_generation st fits m = inr st1 ->
  forall c, best_chromosome st1 = Some c ->
            evaluate_chromosome self c wf rf = inr (best_fitness st1).
Proof.
  intros HF Hbest H1 c Hc.
  destruct (record_generation_inv _ _ _ _ H1) as (_ & _ & [Hup|Hkeep]).
  - destruct Hup as (_ & -> & _ & i & c' & Hi & Hn & Hb).
    rewrite Hb in Hc. injection Hc as <-.
    apply index_of_nth in Hi.
    exact (Forall2_nth_error _ _ _ HF _ _ _ Hn Hi).
  - destruct Hkeep as (_ & -> & _ & Hb). rewrite Hb in Hc. auto.
Qed.

Lemma elitism_step st fits m st1 :
  elitism_invariant self wf rf st ->
  Forall2 (fun c f => evaluate_chromosome self c wf rf = inr f)
    (population st) fits ->
  py_max fits = inr m ->
  record_generation st fits m = inr st1 ->
  nondecreasing (best_fitness_history st1)
  /\ forall elite rest,
      best_chromosome st1 = Some elite ->
      elitism_invariant self wf rf
        (with_population st1
           (slice_to (elite :: rest) (population_size self))).
Proof.
  intros (Hnd & Hle & Hhead & Hbest & HP) HF Hm H1.
  destruct (py_max_spec _ _ Hm) as [Hin Hmax].
  pose proof (record_generation_best _ _ _ _ HF Hbest H1) as Hbest1.
  destruct (record_generation_inv _ _ _ _ H1) as (Epop & Ehist & Hcases).
  assert (Hpop : population st <> []).
  { intros E. rewrite E in HF. inversion HF; subst. contradiction. }
  assert (Hlem : Forall (fun y => (y <= m)%R) (best_fitness_history st)).
  { destruct (best_fitness_history st) as [|y h] eqn:Eh; [constructor|].
    destruct Hhead as (c & rest & Ec & Hc); [discriminate|].
    assert (best_fitness st <= m)%R
      by (apply Hmax; eapply Forall2_head_fitness; eauto).
    eapply Forall_impl; [|exact Hle]. simpl. intros. lra. }
  assert (Hnd1 : nondecreasing (best_fitness_history st1))
    by (rewrite Ehist; now apply nondecreasing_snoc).
  assert (Hle1 : Forall (fun y => (y <= best_fitness st1)%R)
                   (best_fitness_history st1)).
  { rewrite Ehist. apply Forall_app. split.
    - destruct Hcases as [(Hgt & -> & _)|(Hlt & -> & _)]; auto.
    - constructor; [|constructor].
      destruct Hcases as [(Hgt & -> & _)|(Hlt & -> & _)]; lra. }
  split; [exact Hnd1|]. intros elite rest He.
  destruct (slice_to_head elite rest _ (HP Hpop)) as [rest' Es].
  unfold elitism_invariant, with_population. cbn.
  rewrite Es. repeat split; auto.
  intros _. exists elite, rest'. split; auto.
Qed.

(** The history recorded by the loop never decreases. *)
Lemma generation_loop_monotone n st :
  elitism_invariant self wf rf st ->
  post (generation_loop self wf rf n st)
    (fun st' => nondecreasing (best_fitness_history st')).
Proof.
  apply generation_loop_rule.
  - now intros st0 (H & _).
  - intros. eapply elitism_step; eauto.
Qed.

Lemma initial_state_elitism pop :
  length pop = Z.to_nat (population_size self) ->
  elitism_invariant self wf rf (initial_state pop).
Proof.
  intros Hlen. unfold elitism_invariant, initial_state. cbn.
  repeat split; try congruence; auto.
  - intros g a b Ha. destruct g; discriminate.
  - destruct pop; [congruence|]. simpl in Hlen. lia.
Qed.

End Elitism.

Section Termination.

Variable self : GeneticAlgorithm.
Variables wf rf : list StrokeFeatures.
Hypothesis Hvalid : valid_ga self wf rf.

Lemma valid_ga_population : (1 <= population_size self)%Z.
Proof. destruct Hvalid as (_ & _ & _ & _ & _ & [H|H]); lia. Qed.

Lemma map_result_returns {A B} (f : A -> result B) l :
  (forall a, In a l -> exists b, f a = inr b) ->
  exists bs, map_result f l = inr bs.
Proof.
  induction l as [|a l IH]; intros H; simpl.
  - now exists [].
  - destruct (H a) as [b ->]; [now left|]. simpl.
    destruct IH as [bs ->]; [intros; apply H; now right|].
    simpl. eexists. reflexivity.
Qed.

Lemma evaluate_population pop :
  Forall (ga_shape self) pop ->
  exists fits,
    map_result (fun chrom => evaluate_chromosome self chrom wf rf) pop
    = inr fits
    /\ Forall2 (fun c f => evaluate_chromosome self c wf rf = inr f) pop fits
    /\ Forall (fun f => (0 < f <= 1)%R) fits.
Proof.
  intros Hpop. destruct Hvalid as (HW & HR & Hw & Hwf & Hrf & _).
  destruct (map_result_returns
              (fun chrom => evaluate_chromosome self chrom wf rf) pop)
    as [fits Hfits].
  { intros c Hc. rewrite Forall_forall in Hpop.
    destruct (Hpop c Hc) as [Hl _]. apply evaluate_returns. lia. }
  exists fits. split; auto.
  pose proof (map_result_inv _ _ _ Hfits) as HF. split; auto.
  clear Hfits Hpop. induction HF as [|c f pop fits Hcf _ IH]; constructor; auto.
  exact (evaluate_range self c wf rf f Hw Hwf Hrf Hcf).
Qed.

(** Under a valid configuration every turn of the loop returns, and the
    loop ends with a best chromosome of the right shape. *)
Lemma generation_loop_returns n : forall st,
  population_invariant self st ->
  returns (generation_loop self wf rf n st)
    (fun st' =>
       (forall c, best_chromosome st' = Some c -> ga_shape self c)
       /\ (best_chromosome st <> None \/ 1 <= n ->
           best_chromosome st' <> None)
       /\ length (best_fitness_history st) + Nat.min 1 n
          <= length (best_fitness_history st')).
Proof.
  pose proof valid_ga_population as HP.
  induction n as [|n IH]; intros st (Hlen & Hpop & Hbest & Hnone).
  - simpl. apply returns_ret. split; [exact Hbest|]. split; [|lia].
    intros [Hb|Hb]; [exact Hb | lia].
  - eapply returns_ext; [apply generation_loop_unfold|].
    destruct (evaluate_population _ Hpop) as (fits & Efits & HF & Hrange).
    pose proof (Forall2_length_eq _ _ _ HF) as Hfl.
    step_lift fits.
    destruct (py_max_returns fits) as [m Em].
    { intros E. rewrite E in Hfl. simpl in Hfl. lia. }
    destruct (py_max_spec _ _ Em) as [Hin Hmax].
    assert (Hm : (0 < m)%R)
      by (rewrite Forall_forall in Hrange; apply Hrange; exact Hin).
    step_lift m.
    destruct (record_generation_returns st fits m Hin) as [st1 E1]; [lia|].
    destruct (record_generation_inv _ _ _ _ E1) as (Epop & Ehist & Hcases).
    step_lift st1.
    assert (Hsome : exists c, best_chromosome st1 = Some c /\ ga_shape self c).
    { destruct Hcases as [(_ & _ & _ & i & c & _ & Hn & Hb)
                         |(Hle & _ & _ & Hb)].
      - exists c. split; auto. rewrite Forall_forall in Hpop.
        eapply Hpop, nth_error_In; eauto.
      - destruct (best_chromosome st) as [c|] eqn:Ec.
        + exists c. split; auto.
        + specialize (Hnone eq_refl). lra. }
    destruct Hsome as (elite & Eb & Hshape).
    assert (Hh : length (best_fitness_history st) + 1
                 <= length (best_fitness_history st1))
      by (rewrite Ehist, length_app; simpl; lia).
    destruct (_ <=? _)%Z.
    + apply returns_ret. split; [|split].
      * intros c0 Hc0. rewrite Eb in Hc0. now injection Hc0 as <-.
      * intros _. rewrite Eb. discriminate.
      * simpl. lia.
    + eapply returns_bind;
        [eapply returns_lift with (Q := fun x => x = elite);
         [unfold elite_of; now rewrite Eb | reflexivity]|].
      intros ? ->.
      eapply returns_bind.
      * apply returns_and;
          [apply fill_population_returns | apply fill_population_post].
        -- lia.
        -- exact Hpop.
        -- constructor; [exact Hshape | constructor].
        -- destruct Hvalid as (_ & _ & _ & _ & _ & [H|H]);
             [left; cbn [length]; lia | right; lia].
        -- cbn [length]. lia.
      * intros new_population [[Hnew Hfull] [rest ->]].
        eapply returns_weaken.
        -- apply IH. unfold population_invariant, with_population. cbn.
           split; [|split; [|split]].
           ++ apply slice_to_length. simpl in *. lia.
           ++ now apply slice_to_Forall.
           ++ intros c0 Hc0. rewrite Eb in Hc0. now injection Hc0 as <-.
           ++ rewrite Eb. discriminate.
        -- cbn. intros st' (H1 & H2 & H3). split; [exact H1|]. split.
           ++ intros _. apply H2. left. rewrite Eb. discriminate.
           ++ simpl. lia.
Qed.

Lemma initial_state_population pop :
  length pop = Z.to_nat (population_size self) ->
  Forall (ga_shape self) pop ->
  population_invariant self (initial_state pop).
Proof.
  intros Hl Hs. unfold population_invariant, initial_state. cbn.
  split; [exact Hl|]. split; [exact Hs|]. split; [discriminate|].
  intros _. lra.
Qed.

(** [evolve] returns; its history has one entry per generation and never
    decreases; with at least one generation allowed, it returns a
    chromosome of the right shape. *)
Lemma evolve_returns :
  returns (evolve self wf rf)
    (fun r =>
       (forall c, ga_mapping r = Some c -> ga_shape self c)
       /\ ((1 <= max_generations self)%Z ->
           ga_mapping r <> None /\ 1 <= ga_generations r)
       /\ ga_generations r = length (ga_best_history r)
       /\ nondecreasing (ga_best_history r)).
Proof.
  unfold evolve.
  eapply returns_bind;
    [apply returns_replicateM, create_chromosome_returns|].
  intros pop [Hl Hs].
  eapply returns_bind.
  - apply returns_and.
    + apply generation_loop_returns.
      now apply initial_state_population.
    + apply generation_loop_monotone. now apply initial_state_elitism.
  - cbn. intros st [(H1 & H2 & H3) H4]. apply returns_ret. cbn.
    split; [exact H1|]. split; [|split; [reflexivity | exact H4]].
    intros Hg. split.
    + apply H2. right. lia.
    + destruct (Z.to_nat (max_generations self)) eqn:E; [lia | exact H3].
Qed.

End Termination.

(* ===================================================================== *)
(** ** The feature extractor *)
(* ===================================================================== *)

Section Extractor.

Lemma atan_pos x : (0 < x)%R -> (0 < atan x)%R.
Proof. intros H. rewrite <- atan_0. now apply atan_increasing. Qed.

Lemma atan_nonpos x : (x <= 0)%R -> (atan x <= 0)%R.
Proof.
  intros [H| ->].
  - left. rewrite <- atan_0. now apply atan_increasing.
  - rewrite atan_0. lra.
Qed.

(** [np.arctan2] takes its values in [[-pi, pi]]. *)
Lemma arctan2_range y x : (- PI <= arctan2 y x <= PI)%R.
Proof.
  pose proof PI_RGT_0 as Hpi. unfold arctan2.
  destruct (Rltb 0 x) eqn:Ex.
  - pose proof (atan_bound (y / x)). lra.
  - destruct (Rltb x 0) eqn:Ex'.
    + apply Rltb_true in Ex'.
      pose proof (atan_bound (y / x)) as Hb.
      destruct (Rltb y 0) eqn:Ey.
      * apply Rltb_true in Ey.
        assert (0 < y / x)%R.
        { unfold Rdiv. replace (y * / x)%R with ((- y) * / (- x))%R
            by (field; lra).
          apply Rmult_lt_0_compat; [lra|]. apply Rinv_0_lt_compat. lra. }
        pose proof (atan_pos _ H). lra.
      * apply Rltb_false in Ey.
        assert (y / x <= 0)%R.
        { unfold Rdiv. replace (y * / x)%R with (- (y * / (- x)))%R
            by (field; lra).
          assert (0 <= y * / - x)%R; [|lra].
          apply Rmult_le_pos; [lra|]. left. apply Rinv_0_lt_compat. lra. }
        pose proof (atan_nonpos _ H). lra.
    + destruct (Rltb 0 y); [lra|]. destruct (Rltb y 0); lra.
Qed.

Lemma index_hd (l : list R) : l <> [] -> index l 0 = inr (hd 0%R l).
Proof. destruct l; [congruence | reflexivity]. Qed.

Lemma index_last_last (l : list R) :
  l <> [] -> index_last l = inr (last l 0%R).
Proof.
  intros H. unfold index_last.
  destruct (exists_last H) as (l' & a & ->).
  rewrite rev_unit, last_last. reflexivity.
Qed.

Lemma valid_stroke_inv s :
  valid_stroke s = true -> 2 <= length s /\ xs s <> [] /\ ys s <> [].
Proof.
  unfold valid_stroke. intros H.
  apply andb_true_iff in H as [H Hy]. apply andb_true_iff in H as [H Hx].
  apply Nat.leb_le in H. apply Nat.ltb_lt in Hx, Hy.
  repeat split; auto; intros E; rewrite E in *; simpl in *; lia.
Qed.

(** On a valid stroke the extractor returns [stroke_features]. *)
Lemma extract_ok s :
  valid_stroke s = true -> extract s = inr (stroke_features s).
Proof.
  intros H. destruct (valid_stroke_inv _ H) as (Hl & Hx & Hy).
  unfold extract. rewrite (row_xs s Hl), (row_ys s Hl). cbn [rbind].
  rewrite (index_hd _ Hx), (index_hd _ Hy). cbn [rbind].
  rewrite (index_last_last _ Hx), (index_last_last _ Hy). cbn [rbind].
  reflexivity.
Qed.

(** The only exception of the extractor is [IndexError]. *)
Lemma extract_error s e : extract s = inl e -> e = IndexError.
Proof.
  unfold extract, row, index_last, index.
  destruct (nth_error s 0) as [x|]; cbn [rbind]; [|congruence].
  destruct (nth_error s 1) as [y|]; cbn [rbind]; [|congruence].
  destruct (nth_error x 0); cbn [rbind]; [|congruence].
  destruct (nth_error y 0); cbn [rbind]; [|congruence].
  destruct (nth_error (rev x) 0); cbn [rbind]; [|congruence].
  destruct (nth_error (rev y) 0); cbn [rbind]; [|congruence].
  discriminate.
Qed.

Lemma extract_short_row s : length s < 2 -> extract s = inl IndexError.
Proof.
  intros H. unfold extract, row, index.
  destruct s as [|x [|y rest]]; simpl in *; try lia; auto.
Qed.

Lemma stroke_features_angle s : angle_in_range (stroke_features s).
Proof.
  unfold angle_in_range, stroke_features. cbn [angle].
  destruct (Rgtb _ _); [apply arctan2_range|].
  pose proof PI_RGT_0. lra.
Qed.

Lemma map_extract_ok strokes :
  valid_strokes strokes = true ->
  map_result extract strokes = inr (map stroke_features strokes).
Proof.
  intros H. apply map_result_inr. intros s Hs. apply extract_ok.
  unfold valid_strokes in H. rewrite forallb_forall in H. auto.
Qed.

Lemma features_ok_map strokes : features_ok (map stroke_features strokes).
Proof.
  unfold features_ok. apply Forall_forall. intros f Hf.
  apply in_map_iff in Hf as (s & <- & _). apply stroke_features_angle.
Qed.

Lemma valid_stroke_rescale a b c s :
  valid_stroke s = true -> valid_stroke (rescale a b c s) = true.
Proof.
  unfold valid_stroke. rewrite xs_rescale, ys_rescale, !length_map.
  intros H. apply andb_true_iff in H as [H Hy].
  apply andb_true_iff in H as [_ Hx]. now rewrite Hx, Hy.
Qed.

Lemma valid_strokes_normalizable strokes :
  strokes <> [] -> valid_strokes strokes = true ->
  normalizable strokes = true.
Proof.
  intros Hne H. unfold valid_strokes in H. unfold normalizable.
  destruct strokes as [|s rest]; [congruence|].
  assert (Hs : valid_stroke s = true) by (simpl in H; now destruct (valid_stroke s)).
  destruct (valid_stroke_inv _ Hs) as (_ & Hx & Hy).
  apply andb_true_iff. split; [apply andb_true_iff; split|].
  - apply forallb_forall. intros t Ht. rewrite forallb_forall in H.
    destruct (valid_stroke_inv _ (H t Ht)) as (Hl & _).
    now apply Nat.leb_le.
  - apply Nat.ltb_lt. simpl. rewrite length_app.
    destruct (xs s); [congruence | simpl; lia].
  - apply Nat.ltb_lt. simpl. rewrite length_app.
    destruct (ys s); [congruence | simpl; lia].
Qed.

Lemma normalized_nonempty self strokes :
  strokes <> [] ->
  normalized self strokes =
  map (rescale (x_min (metadata_of self strokes))
         (y_min (metadata_of self strokes))
         (scale (metadata_of self strokes))) strokes.
Proof. destruct strokes; [congruence | reflexivity]. Qed.

(** On a valid list the normalizer returns [normalized]. *)
Lemma normalize_valid self strokes :
  valid_strokes strokes = true ->
  exists meta, normalize self strokes = inr (normalized self strokes, meta).
Proof.
  intros H. destruct strokes as [|s rest].
  - now exists None.
  - eexists.
    rewrite normalize_ok
      by (apply valid_strokes_normalizable; [discriminate | assumption]).
    reflexivity.
Qed.

Lemma normalized_valid self strokes :
  valid_strokes strokes = true ->
  valid_strokes (normalized self strokes) = true.
Proof.
  intros H. destruct strokes as [|s rest] eqn:E; auto.
  rewrite <- E in *. rewrite normalized_nonempty by congruence.
  unfold valid_strokes in *.
  apply forallb_forall. intros t Ht.
  apply in_map_iff in Ht as (t' & <- & Ht').
  apply valid_stroke_rescale. rewrite forallb_forall in H. auto.
Qed.

Lemma normalized_length self strokes :
  length (normalized self strokes) = length strokes.
Proof.
  unfold normalized. destruct strokes; auto. now rewrite length_map.
Qed.

End Extractor.

(* ===================================================================== *)
(** ** The error classifier *)
(* ===================================================================== *)

Section Classifier.

Lemma check_orientation_loop_returns self wf rf : forall m idx,
  idx + length m <= length wf ->
  exists errs, check_orientation_loop self wf rf idx m = inr errs.
Proof.
  induction m as [|r m IH]; intros idx H; simpl in *.
  - now exists [].
  - destruct ((r =? 0) || (length rf <? r)) eqn:E.
    + apply IH. lia.
    + apply orb_false_iff in E as [E0 E1].
      apply Nat.eqb_neq in E0. apply Nat.ltb_ge in E1.
      rewrite (index_inr wf idx origin_features) by lia.
      rewrite (index_inr rf (r - 1) origin_features) by lia.
      cbn [rbind]. destruct (IH (S idx)) as [errs ->]; [lia|].
      cbn [rbind]. eexists. reflexivity.
Qed.

Lemma detect_errors_returns self m wf rf :
  length m <= length wf ->
  exists errs, detect_errors self m wf rf = inr errs.
Proof.
  intros H. unfold detect_errors, check_orientation.
  destruct (check_orientation_loop_returns self wf rf m 0) as [o ->];
    [lia|].
  cbn [rbind]. eexists. reflexivity.
Qed.

End Classifier.

(* ===================================================================== *)
(** ** The pipeline *)
(* ===================================================================== *)

Section Pipeline.

Variable self : StrokeMatcher.
Variables written reference : list ndarray.

Hypothesis Hwritten : valid_strokes written = true.
Hypothesis Hreference : valid_strokes reference = true.

Lemma prepared_valid strokes :
  valid_strokes strokes = true -> valid_strokes (prepared self strokes) = true.
Proof.
  intros H. unfold prepared. destruct (sm_normalize self); auto.
  now apply normalized_valid.
Qed.

Lemma prepared_length strokes :
  length (prepared self strokes) = length strokes.
Proof.
  unfold prepared. destruct (sm_normalize self); auto.
  apply normalized_length.
Qed.

(** On valid strokes, [match] is the optimizer run on the features of the
    prepared strokes, followed by the classifier. *)
Lemma match_run :
  exists meta, forall s,
    match_ self written reference s =
    (let wf := map stroke_features (prepared self written) in
     let rf := map stroke_features (prepared self reference) in
     ga_result <- evolve (matcher_ga self (length written)
                            (length reference)) wf rf ;;
     errors <- lift
       (match ga_mapping ga_result with
        | None => inl TypeError
        | Some m => detect_errors (error_detector self) m wf rf
        end) ;;
     match ga_mapping ga_result with
     | None => raise TypeError
     | Some m =>
         ret (mkMatchResult m (ga_fitness ga_result) errors
                (ga_generations ga_result)
                (ga_best_history ga_result) (ga_avg_history ga_result)
                wf rf meta)
     end) s.
Proof.
  assert (Hnorm : exists meta,
    (if sm_normalize self then
       w <~ normalize (normalizer self) written ;;
       r <~ normalize (normalizer self) reference ;;
       inr (fst w, fst r, (snd w, snd r))
     else inr (written, reference, (None, None)))
    = inr (prepared self written, prepared self reference, meta)).
  { unfold prepared. destruct (sm_normalize self).
    - destruct (normalize_valid (normalizer self) written Hwritten)
        as [mw ->].
      destruct (normalize_valid (normalizer self) reference Hreference)
        as [mr ->].
      cbn. eexists. reflexivity.
    - eexists. reflexivity. }
  destruct Hnorm as [meta Hnorm]. exists meta. intros s.
  unfold match_. rewrite Hnorm. unfold bind at 1. unfold lift at 1.
  rewrite (map_extract_ok _ (prepared_valid _ Hwritten)).
  unfold bind at 1. unfold lift at 1.
  rewrite (map_extract_ok _ (prepared_valid _ Hreference)).
  unfold bind at 1. unfold lift at 1.
  reflexivity.
Qed.

Lemma matcher_ga_valid :
  valid_matcher self -> written <> [] ->
  valid_ga (matcher_ga self (length written) (length reference))
    (map stroke_features (prepared self written))
    (map stroke_features (prepared self reference)).
Proof.
  intros (Hw & Hg & Hp) Hne. unfold valid_ga, matcher_ga.
  cbn [GeneticAlgorithm_init n_written n_reference fitness_func
       population_size tournament_size].
  rewrite !length_map, !prepared_length.
  split; [reflexivity|]. split; [reflexivity|]. split; [exact Hw|].
  split; [apply features_ok_map|]. split; [apply features_ok_map|].
  assert (1 <= length written) by (destruct written; simpl; [congruence|lia]).
  destruct (sm_population_size self) as [p|]; [|right; lia].
  destruct (Z.eqb_spec p 0); [right; lia|].
  destruct Hp as [Hp|[Hp|Hp]]; [lia | left; lia | right; lia].
Qed.

(** [match] returns on a non-empty written list of valid strokes. *)
Lemma match_returns :
  valid_matcher self -> written <> [] ->
  returns (match_ self written reference)
    (fun res =>
       shape_ok (length written) (length reference) (mapping res)
       /\ nondecreasing (history_best_fitness res)
       /\ 1 <= generations res
       /\ generations res = length (history_best_fitness res)
       /\ written_features res
          = map stroke_features (prepared self written)
       /\ reference_features res
          = map stroke_features (prepared self reference)
       /\ detect_errors (error_detector self) (mapping res)
            (written_features res) (reference_features res)
          = inr (errors res)).
Proof.
  intros Hv Hne. destruct match_run as [meta Hrun].
  eapply returns_ext; [exact Hrun|]. cbn zeta.
  pose proof (matcher_ga_valid Hv Hne) as Hga.
  eapply returns_bind; [apply (evolve_returns _ _ _ Hga)|].
  intros r (Hshape & Hgen & Hlen & Hmono).
  destruct Hv as (_ & Hg & _).
  destruct (Hgen Hg) as [Hsome Hone].
  destruct (ga_mapping r) as [m|] eqn:Em; [|congruence].
  specialize (Hshape m eq_refl). destruct Hshape as [Hl Hf].
  cbn [n_written n_reference matcher_ga GeneticAlgorithm_init] in Hl, Hf.
  destruct (detect_errors_returns (error_detector self) m
              (map stroke_features (prepared self written))
              (map stroke_features (prepared self reference)))
    as [errs Eerrs].
  { rewrite length_map, prepared_length. lia. }
  step_lift errs. apply returns_ret. cbn.
  split; [now split|]. repeat split; auto.
Qed.

(** What a result returned by [match] is made of. *)
Lemma match_inv s res s' :
  match_ self written reference s = inr (res, s') ->
  written_features res = map stroke_features (prepared self written)
  /\ reference_features res = map stroke_features (prepared self reference)
  /\ detect_errors (error_detector self) (mapping res)
       (written_features res) (reference_features res)
     = inr (errors res)
  /\ exists r,
      evolve (matcher_ga self (length written) (length reference))
        (written_features res) (reference_features res) s = inr (r, s')
      /\ ga_mapping r = Some (mapping res)
      /\ history_best_fitness res = ga_best_history r
      /\ generations res = ga_generations r.
Proof.
  destruct match_run as [meta Hrun]. rewrite Hrun. cbn zeta.
  unfold bind at 1.
  destruct (evolve _ _ _ s) as [e|[r s1]] eqn:Ee; [discriminate|].
  unfold bind at 1. unfold lift.
  destruct (ga_mapping r) as [m|] eqn:Em; [|discriminate].
  destruct (detect_errors _ m _ _) as [e|errs] eqn:Ed; [discriminate|].
  unfold ret. intros [= <- <-]. cbn.
  repeat split; auto. exists r. repeat split; auto.
Qed.

End Pipeline.

(** The history of [evolve] never decreases, whatever the configuration
    and the features: nothing is assumed here. *)
Lemma evolve_history_monotone self wf rf :
  post (evolve self wf rf) (fun r => nondecreasing (ga_best_history r)).
Proof.
  unfold evolve.
  eapply post_bind;
    [apply returns_post, returns_replicateM, create_chromosome_returns|].
  intros pop [Hl _].
  eapply post_bind;
    [apply generation_loop_monotone; now apply initial_state_elitism|].
  cbn. intros st Hst. now apply post_ret.
Qed.

(** C3.  For a non-empty written list of valid strokes and whatever the
    generator yields, [match] returns and the recorded best-fitness
    history is non-decreasing: [best_fitness[g] >= best_fitness[g-1]] for
    every generation [g >= 1]. *)
Theorem C3_best_fitness_monotone (self : StrokeMatcher)
  (written reference : list ndarray) (s : rng) :
  valid_matcher self ->
  written <> [] ->
  valid_strokes written = true ->
  valid_strokes reference = true ->
  exists res s',
    match_ self written reference s = inr (res, s')
    /\ 1 <= length (history_best_fitness res)
    /\ forall g a b,
        nth_error (history_best_fitness res) g = Some a ->
        nth_error (history_best_fitness res) (S g) = Some b ->
        (a <= b)%R.
Proof.
  intros Hv Hne Hw Hr.
  destruct (match_returns self written reference Hw Hr Hv Hne s)
    as (res & s' & E & _ & Hmono & Hone & Hlen & _).
  exists res, s'. split; [exact E|]. split; [lia | exact Hmono].
Qed.

Lemma C3_best_fitness_monotone_witness :
  exists res s',
    match_ default_matcher [[[0; 1]; [0; 0]]]%R [[[0; 1]; [0; 0]]]%R
      (mkRng (fun _ => 0%N) 0) = inr (res, s')
    /\ 1 <= length (history_best_fitness res)
    /\ forall g a b,
        nth_error (history_best_fitness res) g = Some a ->
        nth_error (history_best_fitness res) (S g) = Some b ->
        (a <= b)%R.
Proof.
  apply (C3_best_fitness_monotone default_matcher
           [[[0; 1]; [0; 0]]]%R [[[0; 1]; [0; 0]]]%R);
    [ repeat split; simpl; try lra; lia
    | discriminate | reflexivity | reflexivity ].
Defined.

(** C4.  On valid input the assignment returned by [match] has length [W]
    and entries in [[0, R]].  The shape is established by chromosome
    creation and preserved by tournament selection, single-point crossover
    and mutation, for every configuration of the optimizer. *)
Theorem C4_assignment_shape (self : StrokeMatcher)
  (written reference : list ndarray) (s : rng) :
  valid_matcher self ->
  written <> [] ->
  valid_strokes written = true ->
  valid_strokes reference = true ->
  (exists res s',
      match_ self written reference s = inr (res, s')
      /\ length (mapping res) = length written
      /\ Forall (fun g => 0 <= g <= length reference) (mapping res))
  /\ (forall ga, returns (create_chromosome ga) (ga_shape ga))
  /\ (forall ga population fitnesses,
         Forall (ga_shape ga) population ->
         post (tournament_selection ga population fitnesses) (ga_shape ga))
  /\ (forall ga parent1 parent2,
         ga_shape ga parent1 -> ga_shape ga parent2 ->
         returns (crossover ga parent1 parent2)
           (fun ch => ga_shape ga (fst ch) /\ ga_shape ga (snd ch)))
  /\ (forall ga chrom,
         ga_shape ga chrom -> returns (mutate ga chrom) (ga_shape ga)).
Proof.
  intros Hv Hne Hw Hr. split; [|split; [|split; [|split]]].
  - destruct (match_returns self written reference Hw Hr Hv Hne s)
      as (res & s' & E & [Hl Hf] & _).
    exists res, s'. split; [exact E|]. split; [exact Hl|].
    eapply Forall_impl; [|exact Hf]. simpl. intros. lia.
  - intros ga. apply create_chromosome_returns.
  - intros ga population fitnesses Hpop.
    eapply post_weaken; [apply tournament_selection_post|].
    intros c Hc. rewrite Forall_forall in Hpop. auto.
  - intros ga parent1 parent2 H1 H2. now apply crossover_returns.
  - intros ga chrom Hc. now apply mutate_returns.
Qed.

Lemma C4_assignment_shape_witness :
  exists res s',
    match_ default_matcher [[[0; 1]; [0; 0]]; [[2; 2]; [0; 5]]]%R
      [[[0; 1]; [0; 0]]]%R (mkRng (fun _ => 7%N) 0) = inr (res, s')
    /\ length (mapping res) = 2
    /\ Forall (fun g => 0 <= g <= 1) (mapping res).
Proof.
  apply (C4_assignment_shape default_matcher
           [[[0; 1]; [0; 0]]; [[2; 2]; [0; 5]]]%R [[[0; 1]; [0; 0]]]%R);
    [ repeat split; simpl; try lra; lia
    | discriminate | reflexivity | reflexivity ].
Defined.

(* ===================================================================== *)
(** ** Runs that raise *)
(* ===================================================================== *)

Section Failures.

Variable self : GeneticAlgorithm.
Variables wf rf : list StrokeFeatures.

(** An empty population makes the first generation raise: [max] of an
    empty list.  No generation is recorded. *)
Lemma evolve_empty_population :
  (population_size self <= 0)%Z -> (1 <= max_generations self)%Z ->
  fails (evolve self wf rf) ValueError.
Proof.
  intros HP HG s. unfold evolve.
  replace (Z.to_nat (population_size self)) with 0 by lia.
  destruct (Z.to_nat (max_generations self)) as [|n] eqn:En; [lia|].
  unfold bind at 1. cbn [replicateM ret].
  unfold bind at 1. rewrite generation_loop_unfold. reflexivity.
Qed.

Lemma tournament_selection_fails population fitnesses :
  (tournament_size self <= 0
   \/ Z.of_nat (length population) < tournament_size self)%Z ->
  fails (tournament_selection self population fitnesses) ValueError.
Proof.
  intros H. unfold tournament_selection.
  destruct (Z.eq_dec (tournament_size self) 0) as [E|E].
  - eapply fails_bind_r.
    + apply returns_choice; [lia | intros; exact E].
    + cbv beta. intros l [Hl _]. rewrite E in Hl.
      destruct l; [|discriminate]. intros s. reflexivity.
  - apply fails_bind_l, fails_choice. lia.
Qed.

(** With two or more chromosomes, a tournament that cannot be drawn makes
    the first generation raise, after its fitnesses were evaluated. *)
Lemma evolve_bad_tournament :
  length wf = n_written self -> length rf = n_reference self ->
  nonneg_weights (fitness_func self) ->
  features_ok wf -> features_ok rf ->
  (2 <= population_size self)%Z ->
  (tournament_size self <= 0
   \/ population_size self < tournament_size self)%Z ->
  (1 <= max_generations self)%Z ->
  (1 <= convergence_generations self)%Z ->
  fails (evolve self wf rf) ValueError.
Proof.
  intros HW HR Hw Hwf Hrf HP HT HG HC. unfold evolve.
  eapply fails_bind_r;
    [apply returns_replicateM, create_chromosome_returns|].
  cbv beta. intros pop [Hl Hs].
  apply fails_bind_l.
  destruct (Z.to_nat (max_generations self)) as [|n] eqn:En; [lia|].
  eapply fails_ext; [apply generation_loop_unfold|].
  cbn [population initial_state].
  assert (Hev : exists fits,
             map_result (fun chrom => evaluate_chromosome self chrom wf rf)
               pop = inr fits
             /\ length fits = length pop
             /\ Forall (fun f => (0 < f)%R) fits).
  { destruct (map_result_returns
                (fun chrom => evaluate_chromosome self chrom wf rf) pop)
      as [fits Hfits].
    { intros c Hc. rewrite Forall_forall in Hs.
      destruct (Hs c Hc) as [Hc1 _]. apply evaluate_returns. lia. }
    exists fits. split; auto.
    pose proof (map_result_inv _ _ _ Hfits) as HF.
    split; [symmetry; eapply Forall2_length_eq; eauto|].
    clear Hfits Hs Hl. induction HF as [|c f p fs Hcf _ IH]; constructor; auto.
    apply (evaluate_range self c wf rf f Hw Hwf Hrf Hcf). }
  destruct Hev as (fits & Efits & Hfl & Hpos).
  step_lift fits.
  destruct (py_max_returns fits) as [m Em].
  { intros E. rewrite E in Hfl. simpl in Hfl. lia. }
  destruct (py_max_spec _ _ Em) as [Hin _].
  assert (Hm : (0 < m)%R)
    by (rewrite Forall_forall in Hpos; now apply Hpos).
  step_lift m.
  destruct (record_generation_returns (initial_state pop) fits m Hin Hfl)
    as [st1 E1].
  destruct (record_generation_inv _ _ _ _ E1) as (_ & _ & Hcases).
  step_lift st1.
  destruct Hcases as [(_ & _ & Hstag & i & c & _ & _ & Hb)|(Hle & _)];
    [|cbn in Hle; lra].
  rewrite Hstag.
  destruct (Z.leb_spec (convergence_generations self) 0); [lia|].
  eapply fails_bind_r;
    [eapply returns_lift with (Q := fun x => x = c);
     [unfold elite_of; now rewrite Hb | reflexivity]|].
  intros ? ->. apply fails_bind_l.
  destruct (Z.to_nat (population_size self)) as [|fuel] eqn:Ef; [lia|].
  cbn [fill_population length].
  destruct (Z.ltb_spec (Z.of_nat 1) (population_size self)); [|lia].
  apply fails_bind_l, tournament_selection_fails. lia.
Qed.

End Failures.

(** C5.  With the default configuration an empty written list makes
    [match] raise: the default population size [8 * 0] is empty and the
    first generation takes [max] of an empty list. *)
Theorem C5_empty_written_raises (s : rng) :
  match_ default_matcher [] [[[0; 1]; [0; 0]]]%R s = inl ValueError
  /\ forall reference,
      exists e, match_ default_matcher [] reference s = inl e.
Proof.
  assert (G : forall (reference : list ndarray) rf,
             evolve (matcher_ga default_matcher 0 (length reference)) [] rf s
             = inl ValueError).
  { intros reference rf. apply evolve_empty_population; cbn; lia. }
  split.
  - destruct (match_run default_matcher [] [[[0; 1]; [0; 0]]]%R
                eq_refl eq_refl) as [meta Hrun].
    rewrite Hrun. cbn zeta. unfold bind at 1.
    change (length (@nil (list (list R)))) with 0.
    now rewrite (G [[[0; 1]; [0; 0]]]%R).
  - intros reference. unfold match_.
    unfold bind at 1. unfold lift at 1.
    change (sm_normalize default_matcher) with true. cbn [normalize rbind].
    destruct (normalize _ reference) as [e|[rn mr]]; cbn [rbind fst snd];
      [eexists; reflexivity|].
    unfold bind at 1. unfold lift at 1. cbn [map_result].
    unfold bind at 1. unfold lift at 1.
    destruct (map_result extract rn) as [e|rfeat];
      [eexists; reflexivity|].
    unfold bind at 1. cbn [length]. rewrite (G reference rfeat).
    eexists; reflexivity.
Qed.

(** C7 (as the code has it).  The constructor validates nothing and there
    is no configuration error.  With at least one generation allowed,
    [evolve] raises [ValueError] and returns no result
    - when [population_size] is negative: the first generation takes [max]
      of an empty list, before anything is recorded;
    - when the population holds two or more chromosomes and
      [tournament_size] is non-positive or larger than the population (for
      well-formed features and [convergence_generations >= 1]): the first
      tournament cannot be drawn. *)
Theorem C7_configuration_errors (W R0 : nat) (ff : FitnessFunction)
  (p : Z) (max_gen : Z) (p_cross p_mut : R) (t conv : Z)
  (wf rf : list StrokeFeatures) (s : rng) :
  (1 <= max_gen)%Z ->
  ((p < 0)%Z ->
   evolve (GeneticAlgorithm_init W R0 ff (Some p) max_gen
             p_cross p_mut t conv) wf rf s = inl ValueError)
  /\ (length wf = W -> length rf = R0 -> nonneg_weights ff ->
      features_ok wf -> features_ok rf ->
      (2 <= p)%Z -> (t <= 0 \/ p < t)%Z -> (1 <= conv)%Z ->
      evolve (GeneticAlgorithm_init W R0 ff (Some p) max_gen
                p_cross p_mut t conv) wf rf s = inl ValueError).
Proof.
  intros HG. split.
  - intros Hp. apply evolve_empty_population; cbn.
    + destruct (Z.eqb_spec p 0); lia.
    + exact HG.
  - intros HW HR Hw Hwf Hrf Hp Ht Hc.
    assert (Ep : population_size
                   (GeneticAlgorithm_init W R0 ff (Some p) max_gen
                      p_cross p_mut t conv) = p).
    { cbn. destruct (Z.eqb_spec p 0); [lia | reflexivity]. }
    apply evolve_bad_tournament; try rewrite Ep; cbn; auto.
Qed.

Lemma origin_features_ok : features_ok [origin_features].
Proof.
  repeat constructor; unfold origin_features; cbn; pose proof PI_RGT_0; lra.
Qed.

Lemma C7_configuration_errors_witness :
  evolve (GeneticAlgorithm_init 1 1 (mkFitnessFunction 1 1 1 1) (Some (-4)%Z)
            100 (8 / 10) (1 / 10) 3 10)
    [origin_features] [origin_features] (mkRng (fun _ => 0%N) 0)
  = inl ValueError
  /\ evolve (GeneticAlgorithm_init 1 1 (mkFitnessFunction 1 1 1 1)
               (Some 2%Z) 100 (8 / 10) (1 / 10) 3 10)
       [origin_features] [origin_features] (mkRng (fun _ => 0%N) 0)
     = inl ValueError.
Proof.
  split.
  - refine (proj1 (C7_configuration_errors 1 1 (mkFitnessFunction 1 1 1 1)
                     (-4) 100 (8 / 10) (1 / 10) 3 10
                     [origin_features] [origin_features]
                     (mkRng (fun _ => 0%N) 0) _) _); lia.
  - refine (proj2 (C7_configuration_errors 1 1 (mkFitnessFunction 1 1 1 1)
                     2 100 (8 / 10) (1 / 10) 3 10
                     [origin_features] [origin_features]
                     (mkRng (fun _ => 0%N) 0) _) _ _ _ _ _ _ _ _);
      try reflexivity; try lia; try apply origin_features_ok.
    repeat split; simpl; lra.
Defined.

(** C7, refuted as stated: a population size of zero, rates outside
    [[0, 1]], and a tournament larger than the population are all
    accepted, and generations are executed. *)
Lemma C7_counterexample :
  (exists r s',
      evolve (GeneticAlgorithm_init 1 1 (mkFitnessFunction 1 1 1 1)
                (Some 0%Z) 100 2 (-1) 3 10)
        [origin_features] [origin_features] (mkRng (fun _ => 0%N) 0)
      = inr (r, s')
      /\ 1 <= ga_generations r)
  /\ (exists r s',
         evolve (GeneticAlgorithm_init 1 1 (mkFitnessFunction 1 1 1 1)
                   (Some 1%Z) 100 (8 / 10) (1 / 10) 3 10)
           [origin_features] [origin_features] (mkRng (fun _ => 0%N) 0)
         = inr (r, s')
         /\ 1 <= ga_generations r).
Proof.
  assert (Hw : nonneg_weights (mkFitnessFunction 1 1 1 1))
    by (repeat split; cbn; lra).
  split.
  - destruct (evolve_returns
                (GeneticAlgorithm_init 1 1 (mkFitnessFunction 1 1 1 1)
                   (Some 0%Z) 100 2 (-1) 3 10)
                [origin_features] [origin_features]) with
      (s := mkRng (fun _ => 0%N) 0) as (r & s' & E & _ & Hg & _).
    + unfold valid_ga. cbn.
      split; [reflexivity|]. split; [reflexivity|]. split; [exact Hw|].
      split; [apply origin_features_ok|].
      split; [apply origin_features_ok|]. right; lia.
    + exists r, s'. split; [exact E|]. apply Hg. cbn. lia.
  - destruct (evolve_returns
                (GeneticAlgorithm_init 1 1 (mkFitnessFunction 1 1 1 1)
                   (Some 1%Z) 100 (8 / 10) (1 / 10) 3 10)
                [origin_features] [origin_features]) with
      (s := mkRng (fun _ => 0%N) 0) as (r & s' & E & _ & Hg & _).
    + unfold valid_ga. cbn.
      split; [reflexivity|]. split; [reflexivity|]. split; [exact Hw|].
      split; [apply origin_features_ok|].
      split; [apply origin_features_ok|]. left; lia.
    + exists r, s'. split; [exact E|]. apply Hg. cbn. lia.
Qed.

Section InvalidInput.

Lemma map_result_error_kind {A B} (f : A -> result B) l e0 e :
  (forall a e', f a = inl e' -> e' = e0) ->
  map_result f l = inl e -> e = e0.
Proof.
  intros Hf. induction l as [|a l IH]; simpl; [discriminate|].
  destruct (f a) as [e'|b] eqn:Ea; simpl.
  - intros [= <-]. eauto.
  - destruct (map_result f l) as [e'|bs]; simpl; [|discriminate].
    intros [= <-]. now apply IH.
Qed.

Lemma map_extract_short_row strokes :
  Exists (fun st : ndarray => length st < 2) strokes ->
  map_result extract strokes = inl IndexError.
Proof.
  intros H. apply map_result_error.
  - intros a e. apply extract_error.
  - eapply Exists_impl; [|exact H]. cbv beta. intros st Hst.
    exists IndexError. now apply extract_short_row.
Qed.

End InvalidInput.

Section NoSample.

Lemma extract_no_sample st :
  xs st = [] \/ ys st = [] -> extract st = inl IndexError.
Proof.
  intros H. destruct (extract st) as [e|f] eqn:E.
  - now rewrite (extract_error _ _ E).
  - exfalso. unfold extract, row, index, xs, ys in *.
    destruct st as [|x [|y rest]]; cbn in E; try discriminate.
    cbn in H. destruct H as [-> | ->].
    + discriminate.
    + destruct x; discriminate.
Qed.

Lemma map_extract_no_sample strokes :
  Exists (fun st : ndarray => xs st = [] \/ ys st = []) strokes ->
  map_result extract strokes = inl IndexError.
Proof.
  intros H. apply map_result_error.
  - intros a e. apply extract_error.
  - eapply Exists_impl; [|exact H]. cbv beta. intros st Hst.
    exists IndexError. now apply extract_no_sample.
Qed.

(** What [normalize] returns is its input, rescaled stroke by stroke. *)
Lemma normalize_inr self strokes out meta :
  normalize self strokes = inr (out, meta) ->
  exists a b c, out = map (rescale a b c) strokes.
Proof.
  unfold normalize. destruct strokes as [|s0 rest].
  - intros [= <- _]. now exists 0%R, 0%R, 0%R.
  - remember (s0 :: rest) as strokes eqn:E0. clear E0 s0 rest.
    destruct (forallb (fun s => 2 <=? length s) strokes) eqn:Hs.
    + rewrite collect_xy_ok by assumption. cbn [rbind fst snd app].
      destruct (amin (flat_map xs strokes)) as [e|xm]; cbn [rbind];
        [discriminate|].
      destruct (amax (flat_map xs strokes)) as [e|xM]; cbn [rbind];
        [discriminate|].
      destruct (amin (flat_map ys strokes)) as [e|ym]; cbn [rbind];
        [discriminate|].
      destruct (amax (flat_map ys strokes)) as [e|yM]; cbn [rbind];
        [discriminate|].
      erewrite map_result_inr.
      * cbn [rbind]. intros [= <- _]. eexists _, _, _. reflexivity.
      * intros a Ha. apply normalize_stroke_ok.
        rewrite forallb_forall in Hs. apply Nat.leb_le. now apply Hs.
    + rewrite collect_xy_error by assumption. discriminate.
Qed.

Lemma no_sample_rescale a b c strokes :
  Exists (fun st : ndarray => xs st = [] \/ ys st = []) strokes ->
  Exists (fun st : ndarray => xs st = [] \/ ys st = [])
    (map (rescale a b c) strokes).
Proof.
  intros H. apply Exists_exists in H as (st & Hin & Hst).
  apply Exists_exists. exists (rescale a b c st). split.
  - now apply in_map.
  - rewrite xs_rescale, ys_rescale.
    destruct Hst as [-> | ->]; [left | right]; reflexivity.
Qed.

(** A stroke without any sample makes [match] raise. *)
Lemma match_no_sample self written reference s :
  Exists (fun st : ndarray => xs st = [] \/ ys st = [])
    (written ++ reference) ->
  exists e, match_ self written reference s = inl e.
Proof.
  intros H. apply Exists_app in H. unfold match_.
  unfold bind at 1. unfold lift at 1.
  assert (G : forall wn rn meta,
    Exists (fun st : ndarray => xs st = [] \/ ys st = []) wn
    \/ Exists (fun st : ndarray => xs st = [] \/ ys st = []) rn ->
    exists e,
      (let '(written_norm, reference_norm, meta0) :=
         (wn, rn, meta) : list ndarray * list ndarray
                          * (option metadata * option metadata) in
       written_features <- lift (map_result extract written_norm) ;;
       reference_features <- lift (map_result extract reference_norm) ;;
       ga_result <- evolve (matcher_ga self (length written)
                              (length reference))
                      written_features reference_features ;;
       errors <- lift
         (match ga_mapping ga_result with
          | None => inl TypeError
          | Some m =>
              detect_errors (error_detector self) m
                written_features reference_features
          end) ;;
       match ga_mapping ga_result with
       | None => raise TypeError
       | Some m =>
           ret (mkMatchResult m (ga_fitness ga_result) errors
                  (ga_generations ga_result)
                  (ga_best_history ga_result) (ga_avg_history ga_result)
                  written_features reference_features meta0)
       end) s = inl e).
  { intros wn rn meta Hex. cbv beta iota.
    unfold bind at 1. unfold lift at 1.
    destruct (map_result extract wn) as [e|wfeat] eqn:Ew;
      [eexists; reflexivity|].
    destruct Hex as [Hex|Hex];
      [rewrite (map_extract_no_sample _ Hex) in Ew; discriminate|].
    unfold bind at 1. unfold lift at 1.
    rewrite (map_extract_no_sample _ Hex). eexists; reflexivity. }
  destruct (sm_normalize self).
  - destruct (normalize (normalizer self) written) as [e|[wn mw]] eqn:Ew;
      cbn [rbind]; [eexists; reflexivity|].
    destruct (normalize (normalizer self) reference) as [e|[rn mr]] eqn:Er;
      cbn [rbind fst snd]; [eexists; reflexivity|].
    destruct (normalize_inr _ _ _ _ Ew) as (a & b & c & ->).
    destruct (normalize_inr _ _ _ _ Er) as (a' & b' & c' & ->).
    apply G. destruct H as [H|H]; [left | right];
      now apply no_sample_rescale.
  - apply G. exact H.
Qed.

End NoSample.

(** C6 (as the code has it).  A stroke with fewer than two coordinate
    rows, in either list, makes [match] raise and return nothing:
    [ValueError] from the normalizer, or [IndexError] from the extractor
    when normalization is switched off.  A stroke without any sample also
    makes it raise. *)
Theorem C6_malformed_stroke_raises (self : StrokeMatcher)
  (written reference : list ndarray) (s : rng) :
  (Exists (fun st : ndarray => length st < 2) (written ++ reference) ->
   match_ self written reference s
   = inl (if sm_normalize self then ValueError else IndexError))
  /\ (Exists (fun st : ndarray => xs st = [] \/ ys st = [])
        (written ++ reference) ->
      exists e, match_ self written reference s = inl e).
Proof.
  split; [|apply match_no_sample].
  intros H. apply Exists_app in H. unfold match_.
  unfold bind at 1. unfold lift at 1.
  destruct (sm_normalize self).
  - destruct (normalize (normalizer self) written) as [e|w] eqn:Ew.
    + cbn [rbind]. now rewrite (normalize_error _ _ _ Ew).
    + cbn [rbind].
      destruct H as [H|H];
        [rewrite (normalize_short_row _ _ H) in Ew; discriminate|].
      now rewrite (normalize_short_row _ _ H).
  - unfold bind at 1. unfold lift at 1.
    destruct (map_result extract written) as [e|wfeat] eqn:Ew.
    + now rewrite (map_result_error_kind extract written IndexError e
                     extract_error Ew).
    + destruct H as [H|H];
        [rewrite (map_extract_short_row _ H) in Ew; discriminate|].
      unfold bind at 1. unfold lift at 1.
      now rewrite (map_extract_short_row _ H).
Qed.

Lemma C6_malformed_stroke_raises_witness :
  match_ default_matcher [[[0; 1]]]%R [[[0; 1]; [0; 0]]]%R
    (mkRng (fun _ => 0%N) 0) = inl ValueError
  /\ exists e,
      match_ default_matcher [[[0; 1]; [0; 0]]]%R [[[]; []]]
        (mkRng (fun _ => 0%N) 0) = inl e.
Proof.
  split.
  - apply (C6_malformed_stroke_raises default_matcher
             [[[0; 1]]]%R [[[0; 1]; [0; 0]]]%R).
    apply Exists_cons_hd. simpl. lia.
  - apply (C6_malformed_stroke_raises default_matcher
             [[[0; 1]; [0; 0]]]%R [[[]; []]]).
    apply Exists_cons_tl, Exists_cons_hd. now left.
Defined.

(** C6, refuted as stated: a polyline of a single point and an empty
    reference list are both accepted, and [match] returns a result. *)
Lemma C6_counterexample :
  (exists res s',
      match_ default_matcher [[[5]; [5]]]%R [[[5]; [5]]]%R
        (mkRng (fun _ => 0%N) 0) = inr (res, s'))
  /\ (exists res s',
         match_ default_matcher [[[0; 1]; [0; 0]]]%R []
           (mkRng (fun _ => 0%N) 0) = inr (res, s')).
Proof.
  assert (Hv : valid_matcher default_matcher)
    by (repeat split; cbn; try lra; lia).
  split.
  - destruct (match_returns default_matcher [[[5]; [5]]]%R [[[5]; [5]]]%R
                eq_refl eq_refl Hv) with (s := mkRng (fun _ => 0%N) 0)
      as (res & s' & E & _); [discriminate|].
    now exists res, s'.
  - destruct (match_returns default_matcher [[[0; 1]; [0; 0]]]%R []
                eq_refl eq_refl Hv) with (s := mkRng (fun _ => 0%N) 0)
      as (res & s' & E & _); [discriminate|].
    now exists res, s'.
Qed.

(* ===================================================================== *)
(** ** A first chromosome of fitness one is never replaced *)
(* ===================================================================== *)

Section FirstOptimal.

Variable self : GeneticAlgorithm.
Variables wf rf : list StrokeFeatures.
Variable c0 : list nat.

Hypothesis Hvalid : valid_ga self wf rf.
Hypothesis Hc0 : evaluate_chromosome self c0 wf rf = inr 1%R.

Lemma fitnesses_at_most_one pop fits :
  Forall2 (fun c f => evaluate_chromosome self c wf rf = inr f) pop fits ->
  forall x, In x fits -> (x <= 1)%R.
Proof.
  destruct Hvalid as (_ & _ & Hw & Hwf & Hrf & _).
  induction 1 as [|c f pop fits Hcf _ IH]; intros x Hx; [contradiction|].
  destruct Hx as [<-|Hx]; auto.
  apply (evaluate_range self c wf rf f Hw Hwf Hrf Hcf).
Qed.

Lemma first_optimal_step st fits m st1 :
  (best_fitness_history st <> [] ->
   best_chromosome st = Some c0 /\ best_fitness st = 1%R) ->
  (best_fitness_history st = [] ->
   (best_fitness st < 1)%R /\ exists rest, population st = c0 :: rest) ->
  Forall2 (fun c f => evaluate_chromosome self c wf rf = inr f)
    (population st) fits ->
  py_max fits = inr m ->
  record_generation st fits m = inr st1 ->
  best_chromosome st1 = Some c0 /\ best_fitness st1 = 1%R.
Proof.
  intros H1 H2 HF Hm Hrec.
  destruct (py_max_spec _ _ Hm) as [Hin Hmax].
  pose proof (fitnesses_at_most_one _ _ HF _ Hin) as Hle.
  destruct (record_generation_inv _ _ _ _ Hrec) as (_ & _ & Hcases).
  destruct (best_fitness_history st) as [|y h] eqn:Eh.
  - destruct (H2 eq_refl) as (Hlt & rest & Ep).
    rewrite Ep in HF. inversion HF as [|? f0 ? fs Hf0 HFs]; subst.
    rewrite Hc0 in Hf0. injection Hf0 as <-.
    assert (m = 1%R) by (specialize (Hmax 1%R (or_introl eq_refl)); lra).
    subst m.
    destruct Hcases as [(_ & -> & _ & i & c & Hi & Hn & Hb)|(Hle' & _)];
      [|lra].
    simpl in Hi. rewrite Reqb_refl in Hi. injection Hi as <-.
    rewrite Ep in Hn. simpl in Hn. injection Hn as <-. now split.
  - destruct H1 as [Hb Hf]; [discriminate|].
    destruct Hcases as [(Hgt & _)|(_ & -> & _ & ->)]; [lra | now split].
Qed.

Lemma first_optimal_loop n st :
  (best_fitness_history st <> [] ->
   best_chromosome st = Some c0 /\ best_fitness st = 1%R) ->
  (best_fitness_history st = [] ->
   (best_fitness st < 1)%R /\ exists rest, population st = c0 :: rest) ->
  post (generation_loop self wf rf n st)
    (fun st' => best_fitness_history st' <> [] ->
                best_chromosome st' = Some c0).
Proof.
  intros H1 H2.
  apply (generation_loop_rule self wf rf
    (fun st =>
       (best_fitness_history st <> [] ->
        best_chromosome st = Some c0 /\ best_fitness st = 1%R)
       /\ (best_fitness_history st = [] ->
           (best_fitness st < 1)%R
           /\ exists rest, population st = c0 :: rest))).
  - intros st0 [G1 _] Hne. now apply G1.
  - intros st0 fits m st1 [G1 G2] HF Hm Hrec.
    pose proof (first_optimal_step _ _ _ _ G1 G2 HF Hm Hrec) as Hst1.
    destruct (record_generation_inv _ _ _ _ Hrec) as (_ & Eh & _).
    split; [intros _; apply Hst1|].
    intros elite rest He. cbn. split; [intros _; exact Hst1|].
    rewrite Eh. intros E. destruct (best_fitness_history st0); discriminate.
  - split; assumption.
Qed.

Lemma replicateM_head {A} (m : Rand A) n s l s' :
  replicateM (S n) m s = inr (l, s') ->
  exists a s1 l', m s = inr (a, s1) /\ l = a :: l'.
Proof.
  cbn [replicateM]. unfold bind at 1.
  destruct (m s) as [e|[a s1]]; [discriminate|].
  unfold bind at 1.
  destruct (replicateM n m s1) as [e|[l' s2]]; [discriminate|].
  unfold ret. intros [= <- <-]. now exists a, s1, l'.
Qed.

(** If the first chromosome drawn has fitness one, [evolve] returns it. *)
Lemma evolve_first_optimal s s1 r s' :
  (1 <= max_generations self)%Z ->
  create_chromosome self s = inr (c0, s1) ->
  evolve self wf rf s = inr (r, s') ->
  ga_mapping r = Some c0.
Proof.
  intros HG Hcreate Hev.
  pose proof (returns_post _ _ (evolve_returns _ _ _ Hvalid) _ _ _ Hev)
    as (_ & Hgen & Hlen & _).
  destruct (Hgen HG) as [_ Hone].
  unfold evolve in Hev. unfold bind at 1 in Hev.
  destruct (replicateM _ _ s) as [e|[pop s2]] eqn:Epop; [discriminate|].
  pose proof (valid_ga_population _ _ _ Hvalid) as HP.
  destruct (Z.to_nat (population_size self)) as [|k] eqn:Ek; [lia|].
  destruct (replicateM_head _ _ _ _ _ Epop) as (a & s1' & l' & Ea & ->).
  rewrite Hcreate in Ea. injection Ea as <- <-.
  unfold bind at 1 in Hev.
  destruct (generation_loop _ _ _ _ _ s2) as [e|[st s3]] eqn:Eloop;
    [discriminate|].
  unfold ret in Hev. injection Hev as <- <-. cbn in *.
  refine (first_optimal_loop _ _ _ _ _ _ _ Eloop _).
  - cbn. congruence.
  - cbn. intros _. split; [lra | now exists l'].
  - intros E. rewrite E in Hone. simpl in Hone. lia.
Qed.

End FirstOptimal.

(* ===================================================================== *)
(** ** The classifier on the identity assignment *)
(* ===================================================================== *)

Section IdentityAssignment.

Lemma group_append_new g k i :
  ~ In k (map fst g) -> group_append g k i = g ++ [(k, [i])].
Proof.
  induction g as [|[k' v] g IH]; simpl; intros H; auto.
  destruct (Nat.eqb_spec k' k) as [E|E]; [tauto|].
  rewrite IH by tauto. reflexivity.
Qed.

Lemma build_groups_identity k : forall i g,
  (forall key, In key (map fst g) -> key <= i) ->
  build_groups i (seq (S i) k) g
  = g ++ map (fun j => (S j, [j])) (seq i k).
Proof.
  induction k as [|k IH]; intros i g Hg; simpl.
  - now rewrite app_nil_r.
  - rewrite group_append_new.
    + rewrite IH.
      * now rewrite <- app_assoc.
      * intros key Hk. rewrite map_app, in_app_iff in Hk. simpl in Hk.
        destruct Hk as [Hk|[<-|[]]]; [apply Hg in Hk|]; lia.
    + intros Hin. apply Hg in Hin. lia.
Qed.

Lemma group_lookup_zero_identity l :
  group_lookup (map (fun j => (S j, [j])) l) 0 = None.
Proof. induction l as [|a l IH]; simpl; auto. Qed.

Lemma broken_extra_loop_singletons m g l :
  broken_extra_loop m g (map (fun j => (S j, [j])) l) = [].
Proof. induction l as [|a l IH]; simpl; auto. Qed.

Lemma check_broken_extra_identity n : check_broken_extra (seq 1 n) = [].
Proof.
  unfold check_broken_extra.
  rewrite (build_groups_identity n 0 []) by (intros key []).
  cbn [app]. rewrite group_lookup_zero_identity.
  apply broken_extra_loop_singletons.
Qed.

Lemma flat_map_nil {A B} (f : A -> list B) l :
  (forall a, In a l -> f a = []) -> flat_map f l = [].
Proof.
  induction l as [|a l IH]; intros H; simpl; auto.
  rewrite (H a) by now left. apply IH. intros; apply H; now right.
Qed.

Lemma check_missing_identity n : check_missing (seq 1 n) n = [].
Proof.
  unfold check_missing. apply flat_map_nil. intros k Hk.
  apply in_seq in Hk.
  replace (existsb _ _) with true; [reflexivity|].
  symmetry. apply existsb_exists. exists k. split; [|apply Nat.eqb_refl].
  apply in_map_iff. exists (S k). split; [lia|].
  apply filter_In. split; [apply in_seq; lia | reflexivity].
Qed.

Lemma check_order_loop_identity k : forall i,
  check_order_loop i (seq (S i) k) = [].
Proof.
  induction k as [|k IH]; intros i; simpl; auto.
  rewrite Nat.add_1_r, Nat.eqb_refl. simpl. apply IH.
Qed.

Lemma check_orientation_loop_identity self features :
  (0 <= angle_threshold self)%R ->
  forall k i,
    i + k <= length features ->
    check_orientation_loop self features features i (seq (S i) k) = inr [].
Proof.
  intros Ht. induction k as [|k IH]; intros i H; simpl; auto.
  destruct (Nat.ltb_spec (length features) (S i)); [lia|].
  rewrite Nat.sub_0_r.
  rewrite (index_inr features i origin_features) by lia. cbn [rbind].
  rewrite IH by lia. cbn [rbind].
  rewrite angle_difference_same.
  replace (Rgtb 0 (angle_threshold self)) with false; [reflexivity|].
  symmetry. now apply Rgtb_false.
Qed.

(** On equal feature lists the identity assignment has no error. *)
Lemma detect_errors_identity self features :
  (0 <= angle_threshold self)%R ->
  detect_errors self (seq 1 (length features)) features features = inr [].
Proof.
  intros Ht. unfold detect_errors, check_orientation, check_order.
  rewrite check_orientation_loop_identity by (auto; lia).
  cbn [rbind].
  rewrite check_broken_extra_identity, check_missing_identity,
          check_order_loop_identity.
  reflexivity.
Qed.

Lemma detect_errors_order self m wf rf errs :
  detect_errors self m wf rf = inr errs ->
  exists pre, errs = pre ++ check_order m.
Proof.
  unfold detect_errors.
  destruct (check_orientation self m wf rf) as [e|o]; cbn [rbind];
    [discriminate|].
  intros [= <-]. eexists. reflexivity.
Qed.

End IdentityAssignment.

(** C1 (as the code has it).  Matching a valid, non-empty reference
    against itself: the identity assignment [[1, ..., R]] has fitness 1,
    which no assignment exceeds; whenever [match] returns the identity
    assignment its error list is empty; and for [R = 1] it always returns
    [[1]] with no error. *)
Theorem C1_identity_match (self : StrokeMatcher)
  (reference : list ndarray) (s : rng) :
  valid_matcher self ->
  (0 <= angle_threshold (error_detector self))%R ->
  reference <> [] ->
  valid_strokes reference = true ->
  let n := length reference in
  let ga := matcher_ga self n n in
  let feats := map stroke_features (prepared self reference) in
  evaluate_chromosome ga (seq 1 n) feats feats = inr 1%R
  /\ (forall c f, evaluate_chromosome ga c feats feats = inr f -> (f <= 1)%R)
  /\ (forall res s',
         match_ self reference reference s = inr (res, s') ->
         mapping res = seq 1 n -> errors res = [])
  /\ (n = 1 ->
      exists res s',
        match_ self reference reference s = inr (res, s')
        /\ mapping res = [1] /\ errors res = []).
Proof.
  intros Hv Ht Hne Hr n ga feats.
  assert (Hn : length feats = n)
    by (unfold feats; now rewrite length_map, prepared_length).
  pose proof (matcher_ga_valid self reference reference Hr Hv Hne) as Hga.
  fold n ga feats in Hga.
  assert (Hid : evaluate_chromosome ga (seq 1 n) feats feats = inr 1%R)
    by (rewrite <- Hn; apply evaluate_identity).
  assert (Hclean : forall res s',
             match_ self reference reference s = inr (res, s') ->
             mapping res = seq 1 n -> errors res = []).
  { intros res s' E Em.
    destruct (match_inv self reference reference Hr Hr s res s' E)
      as (Ew & Er & Ed & _).
    rewrite Ew, Er, Em in Ed. fold feats in Ed.
    rewrite <- Hn, detect_errors_identity in Ed by assumption.
    now injection Ed as <-. }
  split; [exact Hid|]. split; [|split; [exact Hclean|]].
  - intros c f Hc. destruct Hga as (_ & _ & Hw & Hwf & Hrf & _).
    apply (evaluate_range ga c feats feats f Hw Hwf Hrf Hc).
  - intros E1.
    destruct (match_returns self reference reference Hr Hr Hv Hne s)
      as (res & s' & E & _).
    exists res, s'. split; [exact E|].
    destruct (match_inv self reference reference Hr Hr s res s' E)
      as (Ew & Er & _ & r & Eev & Emap & _).
    rewrite Ew, Er in Eev. fold n ga feats in Eev.
    assert (Em : mapping res = [1]).
    { assert (Eone : ga_mapping r = Some [1]).
      { apply (evolve_first_optimal ga feats feats [1] Hga) with
          (s := s) (s1 := s) (s' := s').
        - now rewrite E1 in Hid.
        - destruct Hv as (_ & Hg & _). exact Hg.
        - unfold ga, create_chromosome, matcher_ga. rewrite E1.
          reflexivity.
        - exact Eev. }
      rewrite Eone in Emap. now injection Emap. }
    split; [exact Em|]. apply (Hclean res s' E). now rewrite Em, E1.
Qed.

Lemma C1_identity_match_witness :
  exists res s',
    match_ default_matcher [[[0; 1]; [0; 0]]]%R [[[0; 1]; [0; 0]]]%R
      (mkRng (fun _ => 3%N) 0) = inr (res, s')
    /\ mapping res = [1] /\ errors res = [].
Proof.
  refine (proj2 (proj2 (proj2
    (C1_identity_match default_matcher [[[0; 1]; [0; 0]]]%R
       (mkRng (fun _ => 3%N) 0) _ _ _ _))) eq_refl).
  - repeat split; cbn; try lra; lia.
  - cbn. pose proof PI_RGT_0. lra.
  - discriminate.
  - reflexivity.
Defined.

(* ===================================================================== *)
(** ** Reversing the point order of a stroke *)
(* ===================================================================== *)

Section Reversal.



Lemma fold_Rplus_shift l : forall a, fold_left Rplus l a = (a + Rsum l)%R.
Proof.
  unfold Rsum. induction l as [|x l IH]; intros a; simpl; [ring|].
  rewrite IH, (IH (0 + x)%R). ring.
Qed.

Lemma Rsum_app l1 l2 : Rsum (l1 ++ l2) = (Rsum l1 + Rsum l2)%R.
Proof.
  unfold Rsum at 1. rewrite fold_left_app, fold_Rplus_shift.
  reflexivity.
Qed.















Lemma angle_difference_half_turn a b :
  a = (b + PI)%R \/ a = (b - PI)%R -> angle_difference a b = PI.
Proof.
  pose proof PI_RGT_0 as Hpi. intros H. unfold angle_difference.
  assert (E : Rabs (a - b) = PI).
  { destruct H as [-> | ->].
    - replace (b + PI - b)%R with PI by ring. apply Rabs_pos_eq. lra.
    - replace (b - PI - b)%R with (- PI)%R by ring.
      rewrite Rabs_Ropp. apply Rabs_pos_eq. lra. }
  rewrite E. replace (Rgtb PI PI) with false; [reflexivity|].
  symmetry. apply Rgtb_false. lra.
Qed.







End Reversal.




(* ===================================================================== *)
(** ** A reversed stroke inside the pipeline *)
(* ===================================================================== *)

Section ReversedInPipeline.














Lemma length_replace_at {A} (l : list A) : forall i x,
  length (replace_at i x l) = length l.
Proof. induction l as [|h t IH]; intros [|i] x; simpl; auto. Qed.

Lemma valid_strokes_replace_at l : forall i s,
  valid_strokes l = true -> valid_stroke s = true ->
  valid_strokes (replace_at i s l) = true.
Proof.
  unfold valid_strokes.
  induction l as [|h t IH]; intros [|i] s Hl Hs; simpl in *; auto.
  - apply andb_true_iff in Hl as [_ Ht]. now rewrite Hs.
  - apply andb_true_iff in Hl as [Hh Ht]. rewrite Hh. simpl. now apply IH.
Qed.





End ReversedInPipeline.

(* ===================================================================== *)
(** ** More runs that do not return the identity *)
(* ===================================================================== *)

Section SingleChromosome.

Variable self : GeneticAlgorithm.
Variables wf rf : list StrokeFeatures.
Variable c0 : list nat.

Hypothesis Hvalid : valid_ga self wf rf.
Hypothesis Hone : population_size self = 1%Z.

Lemma single_chromosome_step st fits m st1 :
  population st = [c0] ->
  (best_chromosome st = None /\ (best_fitness st <= 0)%R
   \/ best_chromosome st = Some c0) ->
  Forall2 (fun c f => evaluate_chromosome self c wf rf = inr f)
    (population st) fits ->
  py_max fits = inr m ->
  record_generation st fits m = inr st1 ->
  best_chromosome st1 = Some c0.
Proof.
  intros Hp Hb HF Hm Hrec. rewrite Hp in HF.
  inversion HF as [|? f ? fs Hf HFs]; subst. inversion HFs; subst.
  cbn in Hm. injection Hm as <-.
  destruct Hvalid as (_ & _ & Hw & Hwf & Hrf & _).
  pose proof (evaluate_range self c0 wf rf f Hw Hwf Hrf Hf) as Hr.
  destruct (record_generation_inv _ _ _ _ Hrec) as (_ & _ & Hcases).
  destruct Hcases as [(_ & _ & _ & i & c & Hi & Hn & Hbest)|(Hle & _ & _ & E)].
  - cbn in Hi. rewrite Reqb_refl in Hi. injection Hi as <-.
    rewrite Hp in Hn. cbn in Hn. now injection Hn as <-.
  - destruct Hb as [[_ Hb]|Hb]; [lra | congruence].
Qed.

(** A population of one chromosome never changes: [evolve] returns the
    chromosome it drew first. *)
Lemma evolve_single_chromosome s s1 r s' :
  (1 <= max_generations self)%Z ->
  create_chromosome self s = inr (c0, s1) ->
  evolve self wf rf s = inr (r, s') ->
  ga_mapping r = Some c0.
Proof.
  intros HG Hcreate Hev.
  pose proof (returns_post _ _ (evolve_returns _ _ _ Hvalid) _ _ _ Hev)
    as (_ & Hgen & Hlen & _).
  destruct (Hgen HG) as [_ Hpos].
  unfold evolve in Hev. rewrite Hone in Hev.
  change (Z.to_nat 1) with 1 in Hev. unfold bind at 1 in Hev.
  destruct (replicateM 1 _ s) as [e|[pop s2]] eqn:Epop; [discriminate|].
  cbn [replicateM] in Epop. unfold bind at 1 in Epop.
  rewrite Hcreate in Epop. cbn in Epop. injection Epop as <- <-.
  unfold bind at 1 in Hev.
  destruct (generation_loop _ _ _ _ _ s1) as [e|[st s3]] eqn:Eloop;
    [discriminate|].
  unfold ret in Hev. injection Hev as <- <-. cbn in *.
  refine (generation_loop_rule self wf rf
            (fun st => population st = [c0]
                       /\ (best_fitness_history st = [] ->
                           best_chromosome st = None
                           /\ (best_fitness st <= 0)%R)
                       /\ (best_fitness_history st <> [] ->
                           best_chromosome st = Some c0))
            (fun st => best_fitness_history st <> [] ->
                       best_chromosome st = Some c0)
            _ _ _ _ _ _ _ _ Eloop _).
  - intros st0 (_ & _ & Hb). exact Hb.
  - intros st0 fits m st1 (Hp & Hb0 & Hb1) HF Hm Hrec.
    assert (Hbest : best_chromosome st1 = Some c0).
    { apply (single_chromosome_step st0 fits m st1 Hp); auto.
      destruct (best_fitness_history st0); [left; auto | right].
      apply Hb1. discriminate. }
    destruct (record_generation_inv _ _ _ _ Hrec) as (_ & Eh & _).
    split; [intros _; exact Hbest|].
    intros elite rest He. rewrite Hbest in He. injection He as <-.
    rewrite Hone. cbn. split; [reflexivity|]. split; [|intros _; exact Hbest].
    rewrite Eh. intros E. destruct (best_fitness_history st0); discriminate.
  - cbn. split; [reflexivity|]. split; [intros _; split; [reflexivity|lra]|].
    congruence.
  - intros E. rewrite E in Hpos. simpl in Hpos. lia.
Qed.

End SingleChromosome.

Section SwappedPair.

Lemma evaluate_swapped_twins self f :
  evaluate_chromosome self [2; 1] [f; f] [f; f] = inr 1%R.
Proof.
  unfold evaluate_chromosome, compute_distance.
  destruct (bbox_tl_returns [f; f]) as [tl ->]. cbn [rbind].
  cbn [distance_loop index nth_error rbind length Nat.eqb Nat.ltb Nat.leb
       orb Nat.sub].
  rewrite !pair_distance_same. unfold compute_fitness.
  f_equal. field.
Qed.

Lemma create_pair_swapped ga s :
  n_written ga = 2 -> n_reference ga = 2 ->
  N.even (stream s (pos s)) = true ->
  create_chromosome ga s = inr ([2; 1], mkRng (stream s) (S (pos s))).
Proof.
  intros HW HR He. unfold create_chromosome. rewrite HW, HR.
  replace (Z.of_nat 2 - Z.of_nat 2 =? 0)%Z with true by reflexivity.
  unfold shuffle. cbn [length seq Nat.sub shuffle_from].
  unfold bind, randbelow, bind, draw, ret.
  assert (E : (stream s (pos s) mod N.of_nat 2)%N = 0%N).
  { apply N.even_spec in He as [k ->].
    rewrite N.mul_comm. apply N.Div0.mod_mul. }
  rewrite E. reflexivity.
Qed.

Lemma swapped_pair_reported self wf rf errs :
  detect_errors self [2; 1] wf rf = inr errs -> errs <> [].
Proof.
  intros H. destruct (detect_errors_order _ _ _ _ _ H) as [pre ->].
  cbn. destruct pre; discriminate.
Qed.

(** With the default configuration and the same stroke twice, half of the
    generator states lead to the swapped assignment. *)
Lemma twins_swapped_on_even_draw (s : rng) :
  N.even (stream s (pos s)) = true ->
  exists res s',
    match_ default_matcher
      [[[0; 1]; [0; 0]]; [[0; 1]; [0; 0]]]%R
      [[[0; 1]; [0; 0]]; [[0; 1]; [0; 0]]]%R s = inr (res, s')
    /\ mapping res = [2; 1] /\ errors res <> [].
Proof.
  intros He.
  set (twins := [[[0; 1]; [0; 0]]; [[0; 1]; [0; 0]]]%R).
  assert (Hv : valid_matcher default_matcher)
    by (repeat split; cbn; try lra; lia).
  assert (Hne : twins <> []) by discriminate.
  assert (Hr : valid_strokes twins = true) by reflexivity.
  destruct (match_returns default_matcher twins twins Hr Hr Hv Hne s)
    as (res & s' & E & _).
  destruct (match_inv default_matcher twins twins Hr Hr s res s' E)
    as (Ew & Er & Ed & r & Eev & Emap & _).
  pose proof (matcher_ga_valid default_matcher twins twins Hr Hv Hne) as Hga.
  rewrite Ew, Er in Eev.
  assert (Etw : exists f,
             map stroke_features (prepared default_matcher twins) = [f; f])
    by (eexists; reflexivity).
  destruct Etw as [f Ef]. rewrite Ef in *.
  assert (Em : mapping res = [2; 1]).
  { assert (Eswap : ga_mapping r = Some [2; 1]).
    { apply (evolve_first_optimal _ [f; f] [f; f] [2; 1] Hga
               (evaluate_swapped_twins _ f)) with
        (s := s) (s1 := mkRng (stream s) (S (pos s))) (s' := s').
      - cbn. lia.
      - now apply create_pair_swapped.
      - exact Eev. }
    rewrite Eswap in Emap. now injection Emap. }
  exists res, s'. split; [exact E|]. split; [exact Em|].
  rewrite Em in Ed. eapply swapped_pair_reported; eauto.
Qed.

(** With a population of one chromosome and two different strokes, half
    of the generator states lead to the swapped assignment as well. *)
Lemma single_chromosome_swapped (s : rng) :
  N.even (stream s (pos s)) = true ->
  exists res s',
    match_ (StrokeMatcher_init 1 1 1 1 (Some 1%Z) 100 (PI / 4) true)
      [[[0; 1]; [0; 0]]; [[0; 1]; [1; 1]]]%R
      [[[0; 1]; [0; 0]]; [[0; 1]; [1; 1]]]%R s = inr (res, s')
    /\ mapping res = [2; 1] /\ errors res <> [].
Proof.
  intros He.
  set (pair := [[[0; 1]; [0; 0]]; [[0; 1]; [1; 1]]]%R).
  set (sm := StrokeMatcher_init 1 1 1 1 (Some 1%Z) 100 (PI / 4) true).
  assert (Hv : valid_matcher sm)
    by (repeat split; cbn; try lra; lia).
  assert (Hne : pair <> []) by discriminate.
  assert (Hr : valid_strokes pair = true) by reflexivity.
  destruct (match_returns sm pair pair Hr Hr Hv Hne s)
    as (res & s' & E & _).
  destruct (match_inv sm pair pair Hr Hr s res s' E)
    as (Ew & Er & Ed & r & Eev & Emap & _).
  pose proof (matcher_ga_valid sm pair pair Hr Hv Hne) as Hga.
  rewrite Ew, Er in Eev.
  assert (Em : mapping res = [2; 1]).
  { assert (Eswap : ga_mapping r = Some [2; 1]).
    { apply (evolve_single_chromosome _ _ _ [2; 1] Hga eq_refl) with
        (s := s) (s1 := mkRng (stream s) (S (pos s))) (s' := s').
      - cbn. lia.
      - now apply create_pair_swapped.
      - exact Eev. }
    rewrite Eswap in Emap. now injection Emap. }
  exists res, s'. split; [exact E|]. split; [exact Em|].
  rewrite Em in Ed. eapply swapped_pair_reported; eauto.
Qed.

End SwappedPair.

(** C1, refuted as stated: with the default configuration and a reference
    made of the same stroke twice, the generator can yield the swapped
    assignment first; it already has fitness 1, is never replaced, and is
    reported with two ORDER errors. *)
Lemma C1_counterexample :
  exists res s',
    match_ default_matcher
      [[[0; 1]; [0; 0]]; [[0; 1]; [0; 0]]]%R
      [[[0; 1]; [0; 0]]; [[0; 1]; [0; 0]]]%R
      (mkRng (fun _ => 0%N) 0) = inr (res, s')
    /\ mapping res = [2; 1]
    /\ mapping res <> [1; 2]
    /\ errors res <> [].
Proof.
  destruct (twins_swapped_on_even_draw (mkRng (fun _ => 0%N) 0) eq_refl)
    as (res & s' & E & Em & He).
  exists res, s'. split; [exact E|]. split; [exact Em|].
  split; [rewrite Em; discriminate | exact He].
Qed.

(* ===================================================================== *)
(** ** What each pass of the classifier reports *)
(* ===================================================================== *)

Section Passes.

Lemma existsb_eqb_In (j : nat) l : existsb (Nat.eqb j) l = true <-> In j l.
Proof.
  rewrite existsb_exists. split.
  - intros (x & Hx & E). apply Nat.eqb_eq in E. now subst.
  - intros H. exists j. split; [exact H | apply Nat.eqb_refl].
Qed.

Lemma matched_refs_In (m : list nat) j :
  In j (map (fun ref_idx => ref_idx - 1) (filter (fun r => 0 <? r) m))
  <-> In (S j) m.
Proof.
  rewrite in_map_iff. split.
  - intros (r & E & Hr). apply filter_In in Hr. destruct Hr as [Hr Hp].
    apply Nat.ltb_lt in Hp. replace (S j) with r by lia. exact Hr.
  - intros H. exists (S j). split; [lia |].
    apply filter_In. split; [exact H | reflexivity].
Qed.

Lemma check_missing_In m n e :
  In e (check_missing m n)
  <-> exists j, e = MISSING j /\ j < n /\ ~ In (S j) m.
Proof.
  unfold check_missing. rewrite in_flat_map. split.
  - intros (j & Hj & He). apply in_seq in Hj.
    destruct (existsb (Nat.eqb j) _) eqn:E; [contradiction |].
    destruct He as [<- | []]. exists j. split; [reflexivity |].
    split; [lia |]. intros Hin. apply matched_refs_In in Hin.
    apply existsb_eqb_In in Hin. congruence.
  - intros (j & -> & Hj & Hn). exists j. split; [apply in_seq; lia |].
    destruct (existsb (Nat.eqb j) _) eqn:E; [| now left].
    apply existsb_eqb_In in E. apply matched_refs_In in E. contradiction.
Qed.

Lemma check_order_loop_In m : forall idx e,
  In e (check_order_loop idx m)
  <-> exists i j, e = ORDER (idx + i) j j
                  /\ nth_error m i = Some (S j) /\ j <> idx + i.
Proof.
  induction m as [| r rest IH]; intros idx e; cbn [check_order_loop].
  - split; [intros [] | intros (i & j & _ & H & _); now destruct i].
  - rewrite in_app_iff, IH. split.
    + intros [H | (i & j & -> & Hn & Hj)].
      * destruct (0 <? r) eqn:Hp; cbn [andb] in H; [| destruct H].
        destruct (r =? idx + 1) eqn:He; cbn [negb] in H; [destruct H |].
        destruct H as [<- | []]. apply Nat.ltb_lt in Hp.
        apply Nat.eqb_neq in He. exists 0, (r - 1).
        rewrite Nat.add_0_r. split; [reflexivity |].
        split; [cbn; f_equal; lia | lia].
      * exists (S i), j. rewrite <- plus_n_Sm. auto.
    + intros (i & j & -> & Hn & Hj). destruct i as [| i].
      * left. cbn in Hn. injection Hn as ->. rewrite Nat.add_0_r in *.
        replace (S j =? idx + 1) with false
          by (symmetry; apply Nat.eqb_neq; lia).
        cbn. left. now rewrite Nat.sub_0_r.
      * right. exists i, j. rewrite <- plus_n_Sm in *. auto.
Qed.

Lemma positions_In m : forall i k p,
  In p (positions i m k) <-> exists j, p = i + j /\ nth_error m j = Some k.
Proof.
  induction m as [| x rest IH]; intros i k p; cbn [positions].
  - split; [intros [] | intros (j & _ & H); now destruct j].
  - rewrite in_app_iff, IH. split.
    + intros [H | (j & -> & Hj)].
      * destruct (x =? k) eqn:E; [| destruct H]. apply Nat.eqb_eq in E.
        destruct H as [<- | []]. exists 0. split; [lia | now subst].
      * exists (S j). split; [lia | exact Hj].
    + intros (j & -> & Hj). destruct j as [| j].
      * left. cbn in Hj. injection Hj as ->. rewrite Nat.eqb_refl.
        left. lia.
      * right. exists j. split; [lia | exact Hj].
Qed.

Lemma positions_nil m : forall i k, positions i m k = [] <-> ~ In k m.
Proof.
  induction m as [| x rest IH]; intros i k; cbn [positions].
  - split; [intros _ [] | reflexivity].
  - destruct (x =? k) eqn:E.
    + apply Nat.eqb_eq in E. split; [discriminate |].
      intros H. exfalso. apply H. now left.
    + apply Nat.eqb_neq in E. cbn [app]. rewrite IH. cbn [In]. tauto.
Qed.

Lemma broken_extra_loop_reference m g items ws r :
  In (EXTRA ws r) (broken_extra_loop m g items) -> r <> None.
Proof.
  induction items as [| [k v] items IH]; cbn [broken_extra_loop];
    [intros [] |].
  rewrite in_app_iff. intros [H | H]; [| exact (IH H)].
  destruct ((0 <? k) && (1 <? length v)); [| destruct H].
  destruct (length (matched_keys g) <? length m).
  - destruct H as [H | []]. injection H as _ <-. discriminate.
  - destruct H as [H | []]. discriminate.
Qed.

Lemma check_broken_extra_zero m ws :
  In (EXTRA ws None) (check_broken_extra m)
  <-> ws = group_of m 0 /\ In 0 m.
Proof.
  unfold check_broken_extra. rewrite in_app_iff.
  pose proof (group_lookup_build m 0 [] 0) as L. cbn [group_lookup] in L.
  fold (group_of m 0) in L. split.
  - intros [H | H].
    + destruct (group_of m 0) as [| p ps] eqn:G.
      * rewrite L in H. destruct H.
      * rewrite L in H. cbn in H. destruct H as [H | []].
        injection H as <-. split; [reflexivity |].
        destruct (in_dec Nat.eq_dec 0 m) as [Hin | Hn]; [exact Hin |].
        apply (positions_nil m 0 0) in Hn. unfold group_of in G.
        congruence.
    + now apply broken_extra_loop_reference in H.
  - intros [-> Hin]. left.
    destruct (group_of m 0) as [| p ps] eqn:G.
    + apply (positions_nil m 0 0) in G. contradiction.
    + rewrite L. cbn. now left.
Qed.

Lemma check_orientation_loop_In self wf rf m : forall idx errs,
  check_orientation_loop self wf rf idx m = inr errs ->
  forall e,
    In e errs
    <-> exists i j w f,
          e = ORIENTATION (idx + i) j
                (degrees (angle_difference (angle w) (angle f)))
          /\ nth_error m i = Some (S j)
          /\ nth_error wf (idx + i) = Some w
          /\ nth_error rf j = Some f
          /\ (angle_difference (angle w) (angle f)
              > angle_threshold self)%R.
Proof.
  induction m as [| r rest IH]; intros idx errs H e;
    cbn [check_orientation_loop] in H.
  - injection H as <-. split; [intros [] |].
    intros (i & j & w & f & _ & Hn & _). now destruct i.
  - destruct ((r =? 0) || (length rf <? r)) eqn:G.
    + rewrite (IH _ _ H). split.
      * intros (i & j & w & f & -> & Hn & Hw & Hf & Hgt).
        exists (S i), j, w, f. rewrite <- plus_n_Sm. auto.
      * intros (i & j & w & f & -> & Hn & Hw & Hf & Hgt).
        destruct i as [| i].
        -- cbn in Hn. injection Hn as ->. apply nth_error_Some_lt in Hf.
           apply orb_true_iff in G. destruct G as [G | G].
           ++ apply Nat.eqb_eq in G. discriminate.
           ++ apply Nat.ltb_lt in G. lia.
        -- exists i, j, w, f. rewrite <- plus_n_Sm in *. auto.
    + apply orb_false_iff in G. destruct G as [G1 G2].
      apply Nat.eqb_neq in G1. apply Nat.ltb_ge in G2.
      destruct (index wf idx) as [e0 | w0] eqn:Ew; [discriminate |].
      cbn [rbind] in H.
      destruct (index rf (r - 1)) as [e0 | f0] eqn:Ef; [discriminate |].
      cbn [rbind] in H.
      destruct (check_orientation_loop self wf rf (S idx) rest)
        as [e0 | errs'] eqn:Er; [discriminate |].
      cbn [rbind] in H. injection H as <-.
      apply index_nth_error in Ew, Ef.
      rewrite in_app_iff, (IH _ _ Er). split.
      * intros [H | (i & j & w & f & -> & Hn & Hw & Hf & Hgt)].
        -- destruct (Rgtb _ _) eqn:Hg; [| destruct H].
           destruct H as [<- | []]. apply Rgtb_true in Hg.
           exists 0, (r - 1), w0, f0. rewrite Nat.add_0_r.
           split; [reflexivity |].
           split; [cbn; f_equal; lia |]. auto.
        -- exists (S i), j, w, f. rewrite <- plus_n_Sm. auto.
      * intros (i & j & w & f & -> & Hn & Hw & Hf & Hgt).
        destruct i as [| i].
        -- left. cbn in Hn. injection Hn as ->.
           rewrite Nat.add_0_r in *.
           replace (S j - 1) with j in * by lia.
           assert (w = w0) by congruence. assert (f = f0) by congruence.
           subst. apply Rgtb_true in Hgt. rewrite Hgt. now left.
        -- right. exists i, j, w, f. rewrite <- plus_n_Sm in *. auto.
Qed.

End Passes.

Section Reports.

Lemma check_missing_length m n :
  length (check_missing m n)
  = length (filter
              (fun j => negb (existsb (Nat.eqb j)
                                (map (fun r => r - 1)
                                   (filter (fun r => 0 <? r) m))))
              (seq 0 n)).
Proof.
  unfold check_missing. induction (seq 0 n) as [| j l IH]; [reflexivity |].
  cbn [flat_map filter]. rewrite length_app, IH.
  now destruct (existsb (Nat.eqb j) _).
Qed.

Lemma check_missing_bounds m n :
  n - length m <= length (check_missing m n) <= n.
Proof.
  rewrite check_missing_length.
  set (refs := map (fun r => r - 1) (filter (fun r => 0 <? r) m)).
  pose proof (filter_length (fun j => existsb (Nat.eqb j) refs) (seq 0 n))
    as Hsum.
  rewrite length_seq in Hsum.
  assert (Hm : length (filter (fun j => existsb (Nat.eqb j) refs) (seq 0 n))
               <= length m).
  { transitivity (length refs).
    - apply NoDup_incl_length; [apply NoDup_filter, seq_NoDup |].
      intros j Hj. apply filter_In in Hj. now apply existsb_eqb_In.
    - unfold refs. rewrite length_map. apply filter_length_le. }
  lia.
Qed.

Lemma broken_extra_loop_inv m g items e :
  In e (broken_extra_loop m g items) ->
  exists k v, In (k, v) items /\ 0 < k /\ 1 < length v
              /\ e = (if length (matched_keys g) <? length m
                      then EXTRA (tl v) (Some (k - 1))
                      else BROKEN v (k - 1)).
Proof.
  induction items as [| [k v] items IH]; cbn [broken_extra_loop];
    [intros [] |].
  rewrite in_app_iff. intros [H | H].
  - destruct ((0 <? k) && (1 <? length v)) eqn:G; [| destruct H].
    apply andb_true_iff in G. destruct G as [G1 G2].
    apply Nat.ltb_lt in G1, G2. exists k, v.
    split; [now left |]. split; [exact G1 |]. split; [exact G2 |].
    destruct (length (matched_keys g) <? length m);
      now destruct H as [<- | []].
  - destruct (IH H) as (k' & v' & Hin & Hrest). exists k', v'.
    split; [now right | exact Hrest].
Qed.

Lemma build_groups_group m k v :
  In (k, v) (build_groups 0 m []) -> v = group_of m k /\ v <> [].
Proof.
  intros Hin.
  assert (Hnd : NoDup (map fst (build_groups 0 m []))).
  { apply keys_build_NoDup. constructor. }
  pose proof (In_group_lookup _ _ _ Hnd Hin) as L.
  rewrite group_lookup_build in L. cbn [group_lookup] in L.
  fold (group_of m k) in L.
  destruct (group_of m k); [discriminate |].
  injection L as <-. split; [reflexivity | discriminate].
Qed.

Lemma check_broken_extra_In m e :
  In e (check_broken_extra m)
  <-> (e = EXTRA (group_of m 0) None /\ In 0 m)
      \/ exists k, 0 < k /\ 1 < length (group_of m k)
                   /\ e = EXTRA (tl (group_of m k)) (Some (k - 1)).
Proof.
  split.
  - intros H. unfold check_broken_extra in H. apply in_app_iff in H.
    destruct H as [H | H].
    + left. destruct (group_lookup (build_groups 0 m []) 0) as [z |] eqn:L;
        [| destruct H].
      destruct (0 <? length z) eqn:Hz; [| destruct H].
      destruct H as [<- | []].
      assert (Hin : In (EXTRA z None) (check_broken_extra m)).
      { unfold check_broken_extra. apply in_app_iff. left.
        rewrite L, Hz. now left. }
      apply check_broken_extra_zero in Hin. destruct Hin as [<- Hin].
      auto.
    + right. apply broken_extra_loop_inv in H.
      destruct H as (k & v & Hin & Hk & Hv & ->).
      destruct (build_groups_group _ _ _ Hin) as [-> _].
      exists k. split; [exact Hk |]. split; [exact Hv |].
      pose proof (shared_reference_surplus m k Hk Hv) as Hs.
      rewrite matched_keys_length.
      apply Nat.ltb_lt in Hs. now rewrite Hs.
  - intros [[-> H0] | (k & Hk & Hv & ->)].
    + now apply check_broken_extra_zero.
    + unfold check_broken_extra. apply in_app_iff. right.
      assert (Hne : group_of m k <> []) by (destruct (group_of m k);
                                            [cbn in Hv; lia | discriminate]).
      pose proof (group_lookup_In _ _ _ (group_of_lookup m k Hne)) as Hin.
      pose proof (broken_extra_loop_In m (build_groups 0 m []) _ _ _
                    Hin Hk Hv) as H.
      rewrite matched_keys_length in H.
      pose proof (shared_reference_surplus m k Hk Hv) as Hs.
      apply Nat.ltb_lt in Hs. now rewrite Hs in H.
Qed.

End Reports.


(** X2.  [_check_order] reports written stroke [i] exactly when it is
    matched to a reference other than the one in position [i]; the record
    names that reference as the expected position. *)
Theorem check_order_reports (mapping : chromosome) (i j p : nat) :
  In (ORDER i j p) (check_order mapping)
  <-> nth_error mapping i = Some (S j) /\ j <> i /\ p = j.
Proof.
  unfold check_order. rewrite check_order_loop_In. cbn [Nat.add]. split.
  - intros (i' & j' & E & Hn & Hj). injection E as -> -> ->. auto.
  - intros (Hn & Hj & ->). exists i, j. auto.
Qed.


(** X4.  When [_check_orientation] returns, it reports written stroke
    [i] against reference [j] exactly when [i] is matched to [j] and the
    folded angle difference of the two exceeds the threshold; the record
    carries that difference in degrees. *)
Theorem check_orientation_reports (self : ErrorDetector)
  (mapping : chromosome) (wf rf : list StrokeFeatures)
  (errs : list error_record) (i j : nat) (d : R) :
  check_orientation self mapping wf rf = inr errs ->
  (In (ORIENTATION i j d) errs
   <-> exists w f,
         nth_error mapping i = Some (S j)
         /\ nth_error wf i = Some w
         /\ nth_error rf j = Some f
         /\ (angle_difference (angle w) (angle f) > angle_threshold self)%R
         /\ d = degrees (angle_difference (angle w) (angle f))).
Proof.
  intros H. unfold check_orientation in H.
  rewrite (check_orientation_loop_In _ _ _ _ _ _ H). cbn [Nat.add]. split.
  - intros (i' & j' & w & f & E & Hn & Hw & Hf & Hgt).
    injection E as -> -> ->. exists w, f. auto.
  - intros (w & f & Hn & Hw & Hf & Hgt & ->). exists i, j, w, f. auto.
Qed.

Lemma check_orientation_reports_witness :
  In (ORIENTATION 0 0 180)
     [ORIENTATION 0 0 (degrees (angle_difference PI 0))]
  <-> exists w f,
        nth_error [1] 0 = Some 1
        /\ nth_error
             [mkStrokeFeatures (0, 0)%R 0%R PI (0, 0)%R (0, 0)%R []] 0
           = Some w
        /\ nth_error [origin_features] 0 = Some f
        /\ (angle_difference (angle w) (angle f) > PI / 4)%R
        /\ 180%R = degrees (angle_difference (angle w) (angle f)).
Proof.
  apply (check_orientation_reports (mkErrorDetector (PI / 4)) [1]
           [mkStrokeFeatures (0, 0)%R 0%R PI (0, 0)%R (0, 0)%R []]
           [origin_features]
           [ORIENTATION 0 0 (degrees (angle_difference PI 0))] 0 0 180%R).
  unfold check_orientation. cbn.
  assert (E : angle_difference PI 0 = PI)
    by (apply angle_difference_half_turn; left; ring).
  rewrite E.
  rewrite (proj2 (Rgtb_true PI (PI / 4))) by (pose proof PI_RGT_0; lra).
  reflexivity.
Defined.

Section Verdicts.

Lemma detect_errors_inv self m wf rf errs :
  detect_errors self m wf rf = inr errs ->
  exists o,
    check_orientation self m wf rf = inr o
    /\ errs = check_broken_extra m ++ check_missing m (length rf)
              ++ o ++ check_order m.
Proof.
  unfold detect_errors, check_concatenated_redundant. intros H.
  destruct (check_orientation self m wf rf) as [e | o]; [discriminate |].
  cbn [rbind app] in H. injection H as <-. exists o.
  split; [reflexivity |]. now rewrite <- !app_assoc.
Qed.

Lemma check_order_nil m :
  check_order m = [] ->
  forall i r, nth_error m i = Some r -> r = 0 \/ r = S i.
Proof.
  intros H i r Hn. destruct r as [| j]; [now left |]. right.
  destruct (Nat.eq_dec j i) as [-> | Hne]; [reflexivity |].
  assert (Hin : In (ORDER i j j) (check_order m)).
  { unfold check_order. apply check_order_loop_In. exists i, j. auto. }
  rewrite H in Hin. destruct Hin.
Qed.

Lemma nth_error_seq start len i :
  i < len -> nth_error (seq start len) i = Some (start + i).
Proof.
  revert start i. induction len as [| len IH]; intros start i Hi; [lia |].
  destruct i as [| i]; cbn; [f_equal; lia |].
  rewrite IH by lia. f_equal. lia.
Qed.

Lemma list_eq_seq (m : list nat) :
  (forall i r, nth_error m i = Some r -> r = S i) ->
  m = seq 1 (length m).
Proof.
  intros H. apply nth_error_ext. intros i.
  destruct (nth_error m i) as [r |] eqn:E.
  - pose proof (nth_error_Some_lt _ _ _ E) as Hi.
    rewrite nth_error_seq by exact Hi. f_equal. now apply H.
  - symmetry. apply nth_error_None. rewrite length_seq.
    now apply nth_error_None.
Qed.

Lemma detect_errors_nil self m wf rf :
  detect_errors self m wf rf = inr [] ->
  m = seq 1 (length m) /\ length rf <= length m.
Proof.
  intros H. destruct (detect_errors_inv _ _ _ _ _ H) as (o & _ & E).
  symmetry in E. apply app_eq_nil in E. destruct E as [Hb E].
  apply app_eq_nil in E. destruct E as [Hm E].
  apply app_eq_nil in E. destruct E as [_ Ho].
  assert (H0 : ~ In 0 m).
  { intros Hin.
    assert (Hx : In (EXTRA (group_of m 0) None) (check_broken_extra m))
      by (apply check_broken_extra_zero; auto).
    rewrite Hb in Hx. destruct Hx. }
  assert (Hid : forall i r, nth_error m i = Some r -> r = S i).
  { intros i r Hn. destruct (check_order_nil m Ho i r Hn) as [-> | ->];
      [| reflexivity].
    exfalso. apply H0. eapply nth_error_In. exact Hn. }
  split; [now apply list_eq_seq |].
  destruct (length rf) as [| n] eqn:Hn; [lia |].
  destruct (in_dec Nat.eq_dec (S n) m) as [Hin | Hout].
  - apply In_nth_error in Hin. destruct Hin as [i Hi].
    pose proof (nth_error_Some_lt _ _ _ Hi). apply Hid in Hi. lia.
  - exfalso.
    assert (Hx : In (MISSING n) (check_missing m (S n))).
    { apply check_missing_In. exists n. split; [reflexivity |].
      split; [lia | exact Hout]. }
    rewrite Hm in Hx. destruct Hx.
Qed.

Lemma shared_reference_exists (m : list nat) n :
  Forall (fun g => 1 <= g <= n) m -> n < length m ->
  exists k, 0 < k /\ 1 < length (group_of m k).
Proof.
  intros Hr Hlen.
  destruct (Forall_Exists_dec (fun k => ~ 1 < count_occ Nat.eq_dec m k)
              (fun k => match lt_dec 1 (count_occ Nat.eq_dec m k) with
                        | left H => right (fun nH => nH H)
                        | right H => left H
                        end) m) as [Hall | Hex].
  - exfalso.
    assert (Hnd : NoDup m).
    { apply (NoDup_count_occ Nat.eq_dec). intros x.
      destruct (in_dec Nat.eq_dec x m) as [Hin | Hout].
      - rewrite Forall_forall in Hall. specialize (Hall x Hin). lia.
      - apply (count_occ_not_In Nat.eq_dec) in Hout. lia. }
    assert (Hincl : incl m (seq 1 n)).
    { intros x Hx. rewrite Forall_forall in Hr. specialize (Hr x Hx).
      apply in_seq. lia. }
    pose proof (NoDup_incl_length Hnd Hincl) as Hle.
    rewrite length_seq in Hle. lia.
  - apply Exists_exists in Hex. destruct Hex as (k & Hk & Hc).
    exists k. rewrite Forall_forall in Hr. specialize (Hr k Hk).
    split; [lia |]. unfold group_of. rewrite positions_length.
    destruct (lt_dec 1 (count_occ Nat.eq_dec m k)); [assumption |].
    exfalso. apply Hc. assumption.
Qed.

Lemma detect_errors_surplus self m wf rf errs :
  detect_errors self m wf rf = inr errs ->
  Forall (fun g => g <= length rf) m ->
  length rf < length m ->
  exists ws r, In (EXTRA ws r) errs.
Proof.
  intros H Hr Hlen. destruct (detect_errors_inv _ _ _ _ _ H) as (o & _ & ->).
  destruct (in_dec Nat.eq_dec 0 m) as [H0 | H0].
  - exists (group_of m 0), None. apply in_app_iff. left.
    apply check_broken_extra_In. left. auto.
  - destruct (shared_reference_exists m (length rf)) as (k & Hk & Hv);
      [| exact Hlen |].
    + rewrite Forall_forall in Hr |- *. intros g Hg.
      specialize (Hr g Hg). split; [| exact Hr].
      destruct g; [contradiction | lia].
    + exists (tl (group_of m k)), (Some (k - 1)). apply in_app_iff. left.
      apply check_broken_extra_In. right. exists k. auto.
Qed.

Lemma filter_is_missing_check_missing m n :
  filter is_missing (check_missing m n) = check_missing m n.
Proof.
  apply forallb_filter_id. apply forallb_forall. intros e He.
  apply check_missing_In in He. destruct He as (j & -> & _). reflexivity.
Qed.

Lemma detect_errors_deficit self m wf rf errs :
  detect_errors self m wf rf = inr errs ->
  length rf - length m <= length (filter is_missing errs).
Proof.
  intros H. destruct (detect_errors_inv _ _ _ _ _ H) as (o & _ & ->).
  rewrite !filter_app, !length_app, filter_is_missing_check_missing.
  pose proof (check_missing_bounds m (length rf)). lia.
Qed.

Lemma detect_errors_not_broken self m wf rf errs :
  detect_errors self m wf rf = inr errs ->
  Forall (fun e => is_broken e = false) errs.
Proof.
  intros H. destruct (detect_errors_inv _ _ _ _ _ H) as (o & Ho & ->).
  rewrite Forall_forall. intros e He.
  destruct e; try reflexivity. exfalso.
  rewrite !in_app_iff in He. destruct He as [He | [He | [He | He]]].
  - now apply check_broken_extra_never_broken in He.
  - apply check_missing_In in He. destruct He as (j & E & _). discriminate.
  - unfold check_orientation in Ho.
    apply (check_orientation_loop_In _ _ _ _ _ _ Ho) in He.
    destruct He as (i & j & w & f & E & _). discriminate.
  - unfold check_order in He. apply check_order_loop_In in He.
    destruct He as (i & j & E & _). discriminate.
Qed.

End Verdicts.

(** X5.  An empty error list certifies the identity assignment: if
    [detect_errors] returns no record for an assignment whose entries do
    not exceed the number of references, then there are as many written
    as reference strokes and the assignment is [[1, ..., R]]. *)
Theorem detect_errors_clean (self : ErrorDetector) (mapping : chromosome)
  (wf rf : list StrokeFeatures) :
  detect_errors self mapping wf rf = inr [] ->
  Forall (fun g => g <= length rf) mapping ->
  length mapping = length rf /\ mapping = seq 1 (length rf).
Proof.
  intros H Hr. destruct (detect_errors_nil _ _ _ _ H) as [Hid Hle].
  assert (Hlen : length mapping = length rf).
  { destruct (length mapping) as [| n] eqn:Hn; [lia |].
    assert (Hin : In (S n) mapping).
    { rewrite Hid. apply in_seq. lia. }
    rewrite Forall_forall in Hr. specialize (Hr _ Hin). lia. }
  split; [exact Hlen |]. now rewrite <- Hlen.
Qed.

Lemma detect_errors_clean_witness :
  length [1; 2] = length [origin_features; origin_features]
  /\ [1; 2] = seq 1 (length [origin_features; origin_features]).
Proof.
  apply (detect_errors_clean (mkErrorDetector (PI / 4)) [1; 2]
           [origin_features; origin_features]
           [origin_features; origin_features]).
  - apply (detect_errors_identity (mkErrorDetector (PI / 4))
             [origin_features; origin_features]).
    cbn. pose proof PI_RGT_0. lra.
  - repeat constructor.
Defined.

(** X6.  More written strokes than reference strokes are always
    noticed: on valid input with [W > R], every run of [match] returns a
    result whose error list holds an EXTRA record. *)
Theorem match_reports_surplus (self : StrokeMatcher)
  (written reference : list ndarray) :
  valid_matcher self ->
  valid_strokes written = true ->
  valid_strokes reference = true ->
  length reference < length written ->
  returns (match_ self written reference)
    (fun res => exists ws r, In (EXTRA ws r) (errors res)).
Proof.
  intros Hv Hw Hr Hlen.
  assert (Hne : written <> []) by (destruct written; [cbn in Hlen; lia
                                                     | discriminate]).
  eapply returns_weaken;
    [exact (match_returns self written reference Hw Hr Hv Hne) |].
  cbn beta. intros res ([Hl Hf] & _ & _ & _ & Hwf & Hrf & Hd).
  assert (HR : length (reference_features res) = length reference).
  { rewrite Hrf, length_map. apply prepared_length. }
  apply (detect_errors_surplus _ _ _ _ _ Hd).
  - now rewrite HR.
  - rewrite HR, Hl. exact Hlen.
Qed.

Lemma match_reports_surplus_witness :
  returns (match_ default_matcher
             [[[0; 1]; [0; 0]]; [[0; 0]; [0; 1]]]%R [[[0; 1]; [0; 0]]]%R)
    (fun res => exists ws r, In (EXTRA ws r) (errors res)).
Proof.
  apply (match_reports_surplus default_matcher
           [[[0; 1]; [0; 0]]; [[0; 0]; [0; 1]]]%R [[[0; 1]; [0; 0]]]%R);
    [ repeat split; simpl; try lra; lia
    | reflexivity | reflexivity | simpl; lia ].
Defined.

(** X7.  Fewer written strokes than reference strokes are always
    noticed: on valid input, every run of [match] returns a result with
    at least [R - W] MISSING records. *)
Theorem match_reports_deficit (self : StrokeMatcher)
  (written reference : list ndarray) :
  valid_matcher self ->
  written <> [] ->
  valid_strokes written = true ->
  valid_strokes reference = true ->
  returns (match_ self written reference)
    (fun res =>
       length reference - length written
       <= length (filter is_missing (errors res))).
Proof.
  intros Hv Hne Hw Hr.
  eapply returns_weaken;
    [exact (match_returns self written reference Hw Hr Hv Hne) |].
  cbn beta. intros res ([Hl Hf] & _ & _ & _ & Hwf & Hrf & Hd).
  assert (HR : length (reference_features res) = length reference).
  { rewrite Hrf, length_map. apply prepared_length. }
  pose proof (detect_errors_deficit _ _ _ _ _ Hd) as H.
  now rewrite HR, Hl in H.
Qed.

Lemma match_reports_deficit_witness :
  returns (match_ default_matcher
             [[[0; 1]; [0; 0]]]%R [[[0; 1]; [0; 0]]; [[0; 0]; [0; 1]]]%R)
    (fun res =>
       length [[[0; 1]; [0; 0]]; [[0; 0]; [0; 1]]]%R
       - length [[[0; 1]; [0; 0]]]%R
       <= length (filter is_missing (errors res))).
Proof.
  apply (match_reports_deficit default_matcher
           [[[0; 1]; [0; 0]]]%R [[[0; 1]; [0; 0]]; [[0; 0]; [0; 1]]]%R);
    [ repeat split; simpl; try lra; lia
    | discriminate | reflexivity | reflexivity ].
Defined.

Lemma match_errors_detected self written reference s res s' :
  match_ self written reference s = inr (res, s') ->
  detect_errors (error_detector self) (mapping res)
    (written_features res) (reference_features res) = inr (errors res).
Proof.
  unfold match_, bind, lift, ret, raise. intros H.
  destruct (if sm_normalize self then _ else _) as [e | [[wn rn] meta]];
    [discriminate |].
  destruct (map_result extract wn) as [e | wf]; [discriminate |].
  destruct (map_result extract rn) as [e | rf]; [discriminate |].
  destruct (evolve _ wf rf s) as [e | [r s1]]; [discriminate |].
  destruct (ga_mapping r) as [m |]; [| discriminate].
  destruct (detect_errors (error_detector self) m wf rf) as [e | errs] eqn:E;
    [discriminate |].
  injection H as <- <-. exact E.
Qed.

(** X8.  No run of [match] reports a BROKEN stroke: whatever the
    input, the configuration and the generator state, a returned error
    list holds no BROKEN record. *)
Theorem match_never_broken (self : StrokeMatcher)
  (written reference : list ndarray) (s s' : rng) (res : match_result) :
  match_ self written reference s = inr (res, s') ->
  Forall (fun e => is_broken e = false) (errors res).
Proof.
  intros H.
  exact (detect_errors_not_broken _ _ _ _ _
           (match_errors_detected _ _ _ _ _ _ H)).
Qed.

Lemma match_never_broken_witness :
  exists res s',
    match_ default_matcher
      [[[0; 1]; [0; 0]]; [[0; 1]; [0; 0]]]%R
      [[[0; 1]; [0; 0]]; [[0; 1]; [0; 0]]]%R
      (mkRng (fun _ => 0%N) 0) = inr (res, s')
    /\ Forall (fun e => is_broken e = false) (errors res).
Proof.
  destruct (twins_swapped_on_even_draw (mkRng (fun _ => 0%N) 0) eq_refl)
    as (res & s' & H & _).
  exists res, s'. split; [exact H |].
  exact (match_never_broken default_matcher _ _ _ _ _ H).
Defined.

(* ===================================================================== *)
(** ** The random operators of the optimizer *)
(* ===================================================================== *)

Section Shuffling.

Lemma nth_error_set_index {A} (l : list A) : forall i v l',
  set_index l i v = inr l' ->
  forall k, nth_error l' k = if k =? i then Some v else nth_error l k.
Proof.
  induction l as [| h t IH]; intros i v l' H k; [discriminate |].
  destruct i as [| i]; cbn [set_index] in H.
  - injection H as <-. now destruct k.
  - destruct (set_index t i v) as [e | t'] eqn:E; [discriminate |].
    cbn [rbind] in H. injection H as <-.
    destruct k as [| k]; [reflexivity |]. cbn [nth_error].
    now rewrite (IH _ _ _ E).
Qed.

Lemma set_index_returns {A} (l : list A) : forall i v,
  i < length l -> exists l', set_index l i v = inr l'.
Proof.
  induction l as [| h t IH]; intros i v Hi; [cbn in Hi; lia |].
  destruct i as [| i]; cbn [set_index]; [eauto |].
  destruct (IH i v) as [t' ->]; [cbn in Hi; lia |]. cbn. eauto.
Qed.

Lemma nth_error_swap {A} (l : list A) i j :
  i < length l -> j < length l ->
  forall k,
    nth_error (swap l i j) k
    = nth_error l (if k =? j then i else if k =? i then j else k).
Proof.
  intros Hi Hj k. unfold swap.
  destruct (nth_error l i) as [a |] eqn:Ea;
    [| apply nth_error_None in Ea; lia].
  destruct (nth_error l j) as [b |] eqn:Eb;
    [| apply nth_error_None in Eb; lia].
  destruct (set_index_returns l i b Hi) as [l1 E1]. rewrite E1.
  assert (Hj1 : j < length l1)
    by (now rewrite (set_index_length _ _ _ _ E1)).
  destruct (set_index_returns l1 j a Hj1) as [l2 E2]. rewrite E2.
  rewrite (nth_error_set_index _ _ _ _ E2), (nth_error_set_index _ _ _ _ E1).
  destruct (k =? j) eqn:Kj; [now rewrite Ea |].
  destruct (k =? i) eqn:Ki; [now rewrite Eb | reflexivity].
Qed.

Lemma swap_Permutation {A} (l : list A) i j : Permutation l (swap l i j).
Proof.
  destruct (lt_dec i (length l)) as [Hi | Hi].
  - destruct (lt_dec j (length l)) as [Hj | Hj].
    + apply Permutation_nth_error. split; [now rewrite swap_length |].
      exists (fun k => if k =? j then i else if k =? i then j else k).
      split; [| apply nth_error_swap; assumption].
      intros x y.
      destruct (Nat.eqb_spec x j), (Nat.eqb_spec x i),
        (Nat.eqb_spec y j), (Nat.eqb_spec y i); lia.
    + unfold swap. destruct (nth_error l i); [| reflexivity].
      destruct (nth_error l j) eqn:E; [| reflexivity].
      apply nth_error_Some_lt in E. lia.
  - unfold swap. destruct (nth_error l i) eqn:E; [| reflexivity].
    apply nth_error_Some_lt in E. lia.
Qed.

Lemma returns_shuffle_from_perm {A} i : forall x : list A,
  returns (shuffle_from i x) (fun y => Permutation x y).
Proof.
  induction i as [| i IH]; intros x; cbn [shuffle_from].
  - now apply returns_ret.
  - eapply returns_bind; [apply returns_randbelow; lia |].
    intros j _. eapply returns_weaken; [apply IH |].
    cbn beta. intros y Hy.
    eapply Permutation_trans; [apply swap_Permutation | exact Hy].
Qed.

Lemma returns_shuffle_perm {A} (x : list A) :
  returns (shuffle x) (fun y => Permutation x y).
Proof. apply returns_shuffle_from_perm. Qed.

Lemma NoDup_firstn {A} n : forall l : list A, NoDup l -> NoDup (firstn n l).
Proof.
  induction n as [| n IH]; intros l H; [constructor |].
  destruct l as [| a l]; [constructor |]. cbn [firstn].
  inversion H as [| ? ? Hn Hl]; subst. constructor; [| now apply IH].
  intros Hin. apply Hn. eapply In_firstn. exact Hin.
Qed.

Lemma returns_choice_distinct a size :
  (0 <= size <= Z.of_nat a)%Z ->
  returns (choice a size)
    (fun l => NoDup l /\ length l = Z.to_nat size
              /\ Forall (fun i => i < a) l).
Proof.
  intros Hs. unfold choice.
  replace ((a =? 0) && negb (size =? 0)%Z) with false.
  2:{ symmetry. apply andb_false_iff.
      destruct (Nat.eqb_spec a 0) as [-> | Ha]; [| now left]. right.
      apply negb_false_iff. apply Z.eqb_eq. cbn in Hs. lia. }
  replace (Z.of_nat a <? size)%Z with false
    by (symmetry; apply Z.ltb_ge; lia).
  replace (size <? 0)%Z with false by (symmetry; apply Z.ltb_ge; lia).
  eapply returns_bind; [apply returns_shuffle_perm |].
  cbn beta. intros p Hp. apply returns_ret.
  split; [| split].
  - apply NoDup_firstn. eapply Permutation_NoDup; [exact Hp |].
    apply seq_NoDup.
  - rewrite length_firstn, <- (Permutation_length Hp), length_seq. lia.
  - apply Forall_forall. intros i Hi. apply In_firstn in Hi.
    apply Permutation_sym in Hp.
    apply (Permutation_in _ Hp), in_seq in Hi. lia.
Qed.

End Shuffling.

(** X9.  What [create_chromosome] draws, whatever the generator
    yields.  With at least as many written as reference strokes, it is a
    rearrangement of the references [1..R] (each exactly once) and
    [W - R] zeros; with fewer written strokes, it is [W] references from
    [1..R] and never a zero. *)
Theorem create_chromosome_kinds (self : GeneticAlgorithm) :
  returns (create_chromosome self)
    (fun c =>
       (n_reference self <= n_written self ->
        Permutation
          (seq 1 (n_reference self)
           ++ repeat 0 (n_written self - n_reference self)) c)
       /\ (n_written self < n_reference self ->
           length c = n_written self
           /\ Forall (fun g => 1 <= g <= n_reference self) c)).
Proof.
  unfold create_chromosome.
  destruct (Z.eqb_spec (Z.of_nat (n_written self)
                        - Z.of_nat (n_reference self)) 0) as [E | E].
  - eapply returns_weaken; [apply returns_shuffle_perm |]. cbn beta.
    intros c Hc. split; [| lia]. intros _.
    replace (n_written self - n_reference self) with 0 by lia.
    cbn [repeat]. now rewrite app_nil_r.
  - destruct (Z.ltb_spec 0 (Z.of_nat (n_written self)
                            - Z.of_nat (n_reference self))) as [L | L].
    + eapply returns_weaken; [apply returns_shuffle_perm |]. cbn beta.
      intros c Hc. split; [| lia]. intros _.
      replace (Z.to_nat (Z.of_nat (n_written self)
                         - Z.of_nat (n_reference self)))
        with (n_written self - n_reference self) in Hc by lia.
      exact Hc.
    + eapply returns_weaken;
        [apply (returns_randint_list 1 (n_reference self + 1)
                  (n_written self)); lia |].
      cbn beta. intros c [Hl Hf]. split; [lia |]. intros _.
      split; [exact Hl |]. eapply Forall_impl; [| exact Hf].
      cbn beta. intros g Hg. lia.
Qed.

Section Selection.

Lemma py_max_by_fold_ge {A} (key : A -> R) t : forall m x,
  In x (m :: t) ->
  (key x
   <= key (fold_left (fun m x => if Rgtb (key x) (key m) then x else m)
             t m))%R.
Proof.
  induction t as [| y t IH]; intros m x Hx; cbn [fold_left].
  - destruct Hx as [-> | []]. lra.
  - destruct (Rgtb (key y) (key m)) eqn:G.
    + apply Rgtb_true in G. destruct Hx as [-> | [-> | Hx]].
      * apply Rle_trans with (key y); [lra |]. apply IH. now left.
      * apply IH. now left.
      * apply IH. now right.
    + apply Rgtb_false in G. destruct Hx as [-> | [-> | Hx]].
      * apply IH. now left.
      * apply Rle_trans with (key m); [lra |]. apply IH. now left.
      * apply IH. now right.
Qed.

Lemma py_max_by_spec {A} (key : A -> R) l a :
  py_max_by key l = inr a ->
  In a l /\ forall x, In x l -> (key x <= key a)%R.
Proof.
  intros H. split; [eapply py_max_by_In; exact H |].
  destruct l as [| m t]; [discriminate |]. cbn in H. injection H as <-.
  intros x Hx. now apply py_max_by_fold_ge.
Qed.

Lemma Forall2_In_l {A B} (P : A -> B -> Prop) l l' a :
  Forall2 P l l' -> In a l -> exists b, In b l' /\ P a b.
Proof.
  induction 1 as [| x y l l' Hxy _ IH]; intros Hin; [destruct Hin |].
  destruct Hin as [-> | Hin].
  - exists y. split; [now left | exact Hxy].
  - destruct (IH Hin) as (b & Hb & Hp). exists b. split; [now right | auto].
Qed.

Lemma Forall2_In_r {A B} (P : A -> B -> Prop) l l' b :
  Forall2 P l l' -> In b l' -> exists a, In a l /\ P a b.
Proof.
  induction 1 as [| x y l l' Hxy _ IH]; intros Hin; [destruct Hin |].
  destruct Hin as [-> | Hin].
  - exists x. split; [now left | exact Hxy].
  - destruct (IH Hin) as (a & Ha & Hp). exists a. split; [now right | auto].
Qed.

Lemma tournament_selection_winner self population fitnesses :
  (0 <= tournament_size self <= Z.of_nat (length population))%Z ->
  post (tournament_selection self population fitnesses)
    (fun c =>
       exists idxs i fi,
         NoDup idxs
         /\ length idxs = Z.to_nat (tournament_size self)
         /\ In i idxs
         /\ nth_error population i = Some c
         /\ nth_error fitnesses i = Some fi
         /\ forall j fj,
             In j idxs -> nth_error fitnesses j = Some fj ->
             (fj <= fi)%R).
Proof.
  intros HT. unfold tournament_selection.
  eapply post_bind;
    [apply returns_post, returns_choice_distinct; exact HT |].
  cbn beta. intros idxs (Hnd & Hlen & _).
  eapply post_bind with
    (P := fun t =>
            Forall2 (fun i (cf : list nat * R) =>
                       nth_error population i = Some (fst cf)
                       /\ nth_error fitnesses i = Some (snd cf)) idxs t).
  - apply post_lift. intros t Ht. apply map_result_inv in Ht.
    eapply Forall2_impl; [| exact Ht]. cbn beta. intros i cf Hi.
    destruct (index population i) as [e | c] eqn:Ec; [discriminate |].
    cbn [rbind] in Hi.
    destruct (index fitnesses i) as [e | f] eqn:Ef; [discriminate |].
    cbn [rbind] in Hi. injection Hi as <-.
    apply index_nth_error in Ec, Ef. auto.
  - intros t Ht.
    eapply post_bind with
      (P := fun w : list nat * R =>
              In w t /\ forall x, In x t -> (snd x <= snd w)%R).
    + apply post_lift. intros w Hw. now apply py_max_by_spec in Hw.
    + intros w [Hw Hmax]. apply post_ret.
      destruct (Forall2_In_r _ _ _ _ Ht Hw) as (i & Hi & Hc & Hf).
      exists idxs, i, (snd w). repeat (split; [assumption |]).
      intros j fj Hj Hfj.
      destruct (Forall2_In_l _ _ _ _ Ht Hj) as (x & Hx & _ & Hxf).
      rewrite Hxf in Hfj. injection Hfj as <-. now apply Hmax.
Qed.

End Selection.

(** X10.  [tournament_selection] returns the fittest of
    [tournament_size] distinct members of the population: the winner is
    one of that many pairwise different positions, and no other of them
    has a larger fitness. *)
Theorem tournament_selection_fittest (self : GeneticAlgorithm)
  (population : list chromosome) (fitnesses : list R) :
  length fitnesses = length population ->
  (1 <= tournament_size self <= Z.of_nat (length population))%Z ->
  returns (tournament_selection self population fitnesses)
    (fun c =>
       exists idxs i fi,
         NoDup idxs
         /\ length idxs = Z.to_nat (tournament_size self)
         /\ In i idxs
         /\ nth_error population i = Some c
         /\ nth_error fitnesses i = Some fi
         /\ forall j fj,
             In j idxs -> nth_error fitnesses j = Some fj ->
             (fj <= fi)%R).
Proof.
  intros Hlen HT.
  eapply returns_weaken;
    [apply returns_and;
       [apply (tournament_selection_returns self _ _ Hlen HT)
       | apply (tournament_selection_winner self population fitnesses);
         lia]
    |].
  cbn beta. now intros c [_ H].
Qed.

Lemma tournament_selection_fittest_witness :
  returns (tournament_selection
             (GeneticAlgorithm_init 2 2 (mkFitnessFunction 1 1 1 1)
                None 100 (8 / 10) (1 / 10) 2 10)
             [[1; 2]; [2; 1]] [1; 1 / 2]%R)
    (fun c =>
       exists idxs i fi,
         NoDup idxs
         /\ length idxs = 2
         /\ In i idxs
         /\ nth_error [[1; 2]; [2; 1]] i = Some c
         /\ nth_error [1; 1 / 2]%R i = Some fi
         /\ forall j fj,
             In j idxs -> nth_error [1; 1 / 2]%R j = Some fj ->
             (fj <= fi)%R).
Proof.
  apply (tournament_selection_fittest
           (GeneticAlgorithm_init 2 2 (mkFitnessFunction 1 1 1 1)
              None 100 (8 / 10) (1 / 10) 2 10)
           [[1; 2]; [2; 1]] [1; 1 / 2]%R);
    [reflexivity | cbn; lia].
Defined.

Section Variation.

Lemma returns_random_range :
  returns random (fun u => (0 <= u < 1)%R).
Proof.
  unfold random. eapply returns_bind; [apply returns_draw |].
  intros k _. apply returns_ret.
  assert (Hk : (0 <= Z.of_N (k mod 9007199254740992)
                < 9007199254740992)%Z).
  { pose proof (N.mod_lt k 9007199254740992 ltac:(discriminate)) as H.
    set (n := (k mod 9007199254740992)%N) in *. clearbody n. lia. }
  destruct Hk as [H0 H1]. apply IZR_le in H0. apply IZR_lt in H1.
  assert (Hp : (0 < IZR 9007199254740992)%R) by (apply IZR_lt; lia).
  split.
  - apply Rmult_le_pos; [exact H0 |]. left. now apply Rinv_0_lt_compat.
  - apply Rmult_lt_reg_r with (IZR 9007199254740992); [exact Hp |].
    unfold Rdiv. rewrite Rmult_assoc, Rinv_l by lra. lra.
Qed.

Lemma mutate_loop_frozen self : forall c,
  (mutation_rate self <= 0)%R ->
  returns (mutate_loop self c) (fun c' => c' = c).
Proof.
  intros c Hr. induction c as [| g rest IH]; cbn [mutate_loop].
  - now apply returns_ret.
  - eapply returns_bind; [apply returns_random_range |].
    cbn beta. intros u Hu.
    replace (Rltb u (mutation_rate self)) with false
      by (symmetry; apply Rltb_false; lra).
    eapply returns_bind with (P := fun x => x = g);
      [now apply returns_ret |].
    cbn beta. intros g' ->.
    eapply returns_bind; [exact IH |]. cbn beta. intros tail ->.
    now apply returns_ret.
Qed.

Lemma mutate_loop_redrawn self : forall c,
  (1 <= mutation_rate self)%R ->
  returns (mutate_loop self c)
    (fun c' => length c' = length c
               /\ Forall (fun g => g <= n_reference self) c').
Proof.
  intros c Hr. induction c as [| g rest IH]; cbn [mutate_loop].
  - apply returns_ret. split; [reflexivity | constructor].
  - eapply returns_bind; [apply returns_random_range |].
    cbn beta. intros u Hu.
    replace (Rltb u (mutation_rate self)) with true
      by (symmetry; apply Rltb_true; lra).
    eapply returns_bind; [apply returns_randint; lia |].
    cbn beta. intros g' Hg.
    eapply returns_bind; [exact IH |]. cbn beta. intros tail [Hl Hf].
    apply returns_ret. split; [cbn; now rewrite Hl |].
    constructor; [lia | exact Hf].
Qed.

Lemma crossover_cut (p1 p2 : list nat) point i :
  length p1 = length p2 ->
  let c1 := firstn point p1 ++ skipn point p2 in
  let c2 := firstn point p2 ++ skipn point p1 in
  (nth_error c1 i, nth_error c2 i)
  = if i <? point then (nth_error p1 i, nth_error p2 i)
    else (nth_error p2 i, nth_error p1 i).
Proof.
  intros Hlen c1 c2. subst c1 c2.
  rewrite !nth_error_app, !length_firstn, <- Hlen.
  destruct (Nat.ltb_spec i point) as [Hi | Hi].
  - destruct (Nat.ltb_spec i (Nat.min point (length p1))) as [Hm | Hm].
    + rewrite !nth_error_firstn.
      now replace (i <? point) with true by (symmetry; apply Nat.ltb_lt; lia).
    + rewrite !nth_error_skipn.
      assert (length p1 <= i) by lia.
      replace (nth_error p1 i) with (@None nat)
        by (symmetry; apply nth_error_None; lia).
      replace (nth_error p2 i) with (@None nat)
        by (symmetry; apply nth_error_None; lia).
      f_equal; apply nth_error_None; lia.
  - destruct (Nat.ltb_spec i (Nat.min point (length p1))) as [Hm | Hm];
      [lia |].
    rewrite !nth_error_skipn.
    destruct (Nat.le_gt_cases point (length p1)) as [Hp | Hp].
    + now replace (point + (i - Nat.min point (length p1))) with i by lia.
    + replace (nth_error p1 i) with (@None nat)
        by (symmetry; apply nth_error_None; lia).
      replace (nth_error p2 i) with (@None nat)
        by (symmetry; apply nth_error_None; lia).
      f_equal; apply nth_error_None; lia.
Qed.

End Variation.

(** X11.  Single-point crossover of two parents of equal length
    exchanges a tail: both children have the parents' length, there is a
    cut [point >= 1] before which each child agrees with its own parent
    and from which on with the other one, and so the children together
    carry exactly the genes of the parents.  A rate that is not positive
    switches crossover off. *)
Theorem crossover_exchanges_tail (self : GeneticAlgorithm)
  (parent1 parent2 : chromosome) :
  length parent1 = length parent2 ->
  returns (crossover self parent1 parent2)
    (fun ch =>
       length (fst ch) = length parent1
       /\ length (snd ch) = length parent1
       /\ (exists point,
              1 <= point
              /\ forall i,
                  (nth_error (fst ch) i, nth_error (snd ch) i)
                  = if i <? point
                    then (nth_error parent1 i, nth_error parent2 i)
                    else (nth_error parent2 i, nth_error parent1 i))
       /\ Permutation (parent1 ++ parent2) (fst ch ++ snd ch)
       /\ ((crossover_rate self <= 0)%R -> ch = (parent1, parent2))).
Proof.
  intros Hlen.
  assert (Hsame : forall P : Prop, P ->
            length parent1 = length parent1
            /\ length parent2 = length parent1
            /\ (exists point,
                   1 <= point
                   /\ forall i,
                       (nth_error parent1 i, nth_error parent2 i)
                       = if i <? point
                         then (nth_error parent1 i, nth_error parent2 i)
                         else (nth_error parent2 i, nth_error parent1 i))
            /\ Permutation (parent1 ++ parent2) (parent1 ++ parent2)
            /\ P).
  { intros P HP. split; [reflexivity |]. split; [now symmetry |].
    split; [| split; [reflexivity | exact HP]].
    exists (S (length parent1)). split; [lia |]. intros i.
    destruct (Nat.ltb_spec i (S (length parent1))) as [Hi | Hi];
      [reflexivity |].
    replace (nth_error parent1 i) with (@None nat)
      by (symmetry; apply nth_error_None; lia).
    replace (nth_error parent2 i) with (@None nat)
      by (symmetry; apply nth_error_None; lia).
    reflexivity. }
  unfold crossover.
  destruct (Nat.ltb_spec (length parent1) 2) as [Hshort | Hlong].
  { apply returns_ret. cbn [fst snd]. apply Hsame. reflexivity. }
  eapply returns_bind; [apply returns_random_range |].
  cbn beta. intros u Hu.
  destruct (Rltb u (crossover_rate self)) eqn:Hrate.
  - apply Rltb_true in Hrate.
    eapply returns_bind; [apply returns_randint; lia |].
    cbn beta. intros point Hp. apply returns_ret. cbn [fst snd].
    split; [rewrite length_app, length_firstn, length_skipn; lia |].
    split; [rewrite length_app, length_firstn, length_skipn; lia |].
    split; [| split].
    + exists point. split; [lia |]. intros i.
      now apply crossover_cut.
    + rewrite <- (firstn_skipn point parent1) at 1.
      rewrite <- (firstn_skipn point parent2) at 1.
      rewrite <- !app_assoc. apply Permutation_app_head.
      etransitivity; [apply Permutation_app_comm |].
      rewrite <- app_assoc. apply Permutation_app_swap_app.
    + intros Hr. lra.
  - apply returns_ret. cbn [fst snd]. apply Hsame. reflexivity.
Qed.

Lemma crossover_exchanges_tail_witness :
  returns (crossover
             (GeneticAlgorithm_init 3 3 (mkFitnessFunction 1 1 1 1)
                None 100 (8 / 10) (1 / 10) 3 10)
             [1; 2; 3] [3; 1; 2])
    (fun ch =>
       length (fst ch) = 3
       /\ length (snd ch) = 3
       /\ (exists point,
              1 <= point
              /\ forall i,
                  (nth_error (fst ch) i, nth_error (snd ch) i)
                  = if i <? point
                    then (nth_error [1; 2; 3] i, nth_error [3; 1; 2] i)
                    else (nth_error [3; 1; 2] i, nth_error [1; 2; 3] i))
       /\ Permutation ([1; 2; 3] ++ [3; 1; 2]) (fst ch ++ snd ch)
       /\ ((8 / 10 <= 0)%R -> ch = ([1; 2; 3], [3; 1; 2]))).
Proof.
  apply (crossover_exchanges_tail
           (GeneticAlgorithm_init 3 3 (mkFitnessFunction 1 1 1 1)
              None 100 (8 / 10) (1 / 10) 3 10)
           [1; 2; 3] [3; 1; 2]).
  reflexivity.
Defined.

(** X12.  The two ends of the mutation rate.  With a rate that is not
    positive [mutate] returns its argument unchanged; with a rate of one
    or more it redraws every gene, so the result has the same length and
    all genes in [[0, R]] whatever the argument held. *)
Theorem mutate_rate_extremes (self : GeneticAlgorithm)
  (chrom : chromosome) :
  ((mutation_rate self <= 0)%R ->
   returns (mutate self chrom) (fun c => c = chrom))
  /\ ((1 <= mutation_rate self)%R ->
      returns (mutate self chrom)
        (fun c => length c = length chrom
                  /\ Forall (fun g => g <= n_reference self) c)).
Proof.
  split; intros Hr; unfold mutate.
  - now apply mutate_loop_frozen.
  - now apply mutate_loop_redrawn.
Qed.

Lemma mutate_rate_extremes_witness :
  returns (mutate (GeneticAlgorithm_init 2 2 (mkFitnessFunction 1 1 1 1)
                     None 100 (8 / 10) 0 3 10) [1; 2])
    (fun c => c = [1; 2])
  /\ returns (mutate (GeneticAlgorithm_init 2 2
                        (mkFitnessFunction 1 1 1 1)
                        None 100 (8 / 10) 1 3 10) [7; 9])
       (fun c => length c = 2 /\ Forall (fun g => g <= 2) c).
Proof.
  split.
  - apply (proj1 (mutate_rate_extremes
                    (GeneticAlgorithm_init 2 2 (mkFitnessFunction 1 1 1 1)
                       None 100 (8 / 10) 0 3 10) [1; 2])).
    cbn. lra.
  - apply (proj2 (mutate_rate_extremes
                    (GeneticAlgorithm_init 2 2 (mkFitnessFunction 1 1 1 1)
                       None 100 (8 / 10) 1 3 10) [7; 9])).
    cbn. lra.
Defined.

(* ===================================================================== *)
(** ** The outcome of [evolve] *)
(* ===================================================================== *)

Section Outcome.

Variable self : GeneticAlgorithm.
Variables wf rf : list StrokeFeatures.

(** The loop rule with the two exits told apart: [I n] holds at the head
    of the loop with [n] generations to go, [Q] at the [break] and after
    the last generation. *)
Lemma generation_loop_exits (I : nat -> evo_state -> Prop)
  (Q : evo_state -> Prop) :
  (forall st, I 0 st -> Q st) ->
  (forall n st fits m st1,
      I (S n) st ->
      Forall2 (fun c f => evaluate_chromosome self c wf rf = inr f)
        (population st) fits ->
      py_max fits = inr m ->
      record_generation st fits m = inr st1 ->
      ((convergence_generations self
        <= generations_without_improvement st1)%Z -> Q st1)
      /\ ((generations_without_improvement st1
           < convergence_generations self)%Z ->
          forall elite rest,
            best_chromosome st1 = Some elite ->
            I n (with_population st1
                   (slice_to (elite :: rest) (population_size self))))) ->
  forall n st, I n st -> post (generation_loop self wf rf n st) Q.
Proof.
  intros Hexit Hstep. induction n as [| n IH]; intros st HI.
  - cbn. apply post_ret. auto.
  - eapply post_ext; [apply generation_loop_unfold |].
    eapply post_bind; [apply post_lift; intros fits Hf; exact Hf |].
    intros fits Hfits. apply map_result_inv in Hfits.
    eapply post_bind; [apply post_lift; intros m Hm; exact Hm |].
    intros m Hm.
    eapply post_bind; [apply post_lift; intros st1 H1; exact H1 |].
    intros st1 H1.
    destruct (Hstep n st fits m st1 HI Hfits Hm H1) as [HQ Hnext].
    destruct (Z.leb_spec (convergence_generations self)
                (generations_without_improvement st1)) as [Hb | Hb];
      [apply post_ret; auto |].
    eapply post_bind; [apply post_lift; intros c Hc; exact Hc |].
    intros elite He. unfold elite_of in He.
    destruct (best_chromosome st1) as [c |] eqn:Eb; [| discriminate].
    injection He as ->.
    eapply post_bind; [apply fill_population_post |].
    intros new_population [rest ->]. apply IH. now apply Hnext.
Qed.

Lemma record_generation_avg st fits m st1 :
  record_generation st fits m = inr st1 ->
  avg_fitness_history st1 = avg_fitness_history st ++ [mean fits].
Proof.
  unfold record_generation.
  destruct (Rgtb m (best_fitness st)).
  - destruct (index_of m fits) as [e | i]; cbn [rbind]; [discriminate |].
    destruct (index (population st) i) as [e | c]; cbn [rbind];
      [discriminate |].
    now intros [= <-].
  - cbn [rbind]. now intros [= <-].
Qed.

Lemma Rsum_le_bound l m :
  (forall x, In x l -> (x <= m)%R) -> (Rsum l <= INR (length l) * m)%R.
Proof.
  induction l as [| a l IH]; intros H.
  - unfold Rsum. cbn. lra.
  - change (a :: l) with ([a] ++ l). rewrite Rsum_app.
    cbn [length app]. rewrite S_INR.
    assert (Ha : (a <= m)%R) by (apply H; now left).
    assert (Hl : (Rsum l <= INR (length l) * m)%R)
      by (apply IH; intros; apply H; now right).
    unfold Rsum at 1. cbn [fold_left]. lra.
Qed.

Lemma mean_le_bound l m :
  l <> [] -> (forall x, In x l -> (x <= m)%R) -> (mean l <= m)%R.
Proof.
  intros Hne H. unfold mean.
  assert (Hpos : (0 < INR (length l))%R).
  { apply lt_0_INR. destruct l; [congruence | cbn; lia]. }
  apply Rmult_le_reg_r with (INR (length l)); [exact Hpos |].
  unfold Rdiv. rewrite Rmult_assoc, Rinv_l by lra.
  rewrite Rmult_1_r, Rmult_comm. now apply Rsum_le_bound.
Qed.

Lemma settled_snoc h k x : settled h k x -> settled (h ++ [x]) (S k) x.
Proof.
  intros [pre ->]. exists pre. rewrite <- app_assoc. f_equal.
  cbn [repeat]. now rewrite repeat_cons.
Qed.

Lemma settled_fewer h k k' x : settled h k x -> k' <= k -> settled h k' x.
Proof.
  intros [pre ->] Hk. exists (pre ++ repeat x (k - k')).
  rewrite <- app_assoc, <- repeat_app. do 2 f_equal. lia.
Qed.

Lemma settled_last h k x : settled h (S k) x -> last h 0%R = x.
Proof.
  intros [pre ->]. cbn [repeat]. rewrite repeat_cons, app_assoc.
  apply last_last.
Qed.

Lemma settled_length h k x : settled h k x -> k <= length h.
Proof.
  intros [pre ->]. rewrite length_app, repeat_length. lia.
Qed.

Lemma history_step n st fits m st1 :
  history_invariant self wf rf (S n) st ->
  Forall2 (fun c f => evaluate_chromosome self c wf rf = inr f)
    (population st) fits ->
  py_max fits = inr m ->
  record_generation st fits m = inr st1 ->
  ((convergence_generations self
    <= generations_without_improvement st1)%Z ->
   evolution_outcome self wf rf st1)
  /\ ((generations_without_improvement st1
       < convergence_generations self)%Z ->
      forall elite rest,
        best_chromosome st1 = Some elite ->
        history_invariant self wf rf n
          (with_population st1
             (slice_to (elite :: rest) (population_size self)))).
Proof.
  intros (Hel & Hlen & Havg & Hcount & Hst0 & Hset) HF Hm H1.
  destruct (elitism_step self wf rf st fits m st1 Hel HF Hm H1)
    as [_ Hnext].
  destruct (record_generation_inv _ _ _ _ H1) as (Epop & Ehist & Hcases).
  pose proof (record_generation_avg _ _ _ _ H1) as Eavg.
  destruct (py_max_spec _ _ Hm) as [Hin Hmax].
  assert (Hmean : (mean fits <= m)%R).
  { apply mean_le_bound; [| exact Hmax]. intros E. now rewrite E in Hin. }
  assert (Hlen1 : length (avg_fitness_history st1)
                  = length (best_fitness_history st1))
    by (rewrite Eavg, Ehist, !length_app, Hlen; reflexivity).
  assert (Havg1 : Forall2 Rle (avg_fitness_history st1)
                    (best_fitness_history st1)).
  { rewrite Eavg, Ehist. apply Forall2_app; [exact Havg |].
    constructor; [exact Hmean | constructor]. }
  assert (Hcount1 : length (best_fitness_history st1) + n
                    = Z.to_nat (max_generations self))
    by (rewrite Ehist, length_app; cbn [length]; lia).
  assert (Hst1 : (0 <= generations_without_improvement st1)%Z)
    by (destruct Hcases as [(_ & _ & -> & _) | (_ & _ & -> & _)]; lia).
  assert (Hset1 : forall c,
             best_chromosome st1 = Some c ->
             settled (best_fitness_history st1)
               (S (Z.to_nat (generations_without_improvement st1)))
               (best_fitness st1)).
  { intros c Hc. rewrite Ehist.
    destruct Hcases as [(_ & -> & -> & _) | (Hle & -> & -> & Eb)].
    - exists (best_fitness_history st). reflexivity.
    - rewrite Eb in Hc. specialize (Hset c Hc).
      assert (Em : m = best_fitness st).
      { destruct Hel as (_ & _ & Hhead & _).
        destruct Hhead as (c0 & rest0 & Ec0 & Hc0).
        - intros E. apply settled_length in Hset. rewrite E in Hset.
          cbn in Hset. lia.
        - pose proof (Forall2_head_fitness self wf rf _ _ _ _ _
                        HF Ec0 Hc0) as Hb.
          specialize (Hmax _ Hb). lra. }
      rewrite Em.
      replace (Z.to_nat (generations_without_improvement st + 1))
        with (S (Z.to_nat (generations_without_improvement st))) by lia.
      now apply settled_snoc. }
  assert (Hfacts : forall c,
             best_chromosome st1 = Some c ->
             evaluate_chromosome self c wf rf = inr (best_fitness st1)
             /\ Forall (fun y => (y <= best_fitness st1)%R)
                  (best_fitness_history st1)).
  { intros c Hc. destruct (Hnext c [] Hc) as (_ & Hle & _ & Hev & _).
    cbn [with_population best_chromosome best_fitness
           best_fitness_history] in Hle, Hev.
    split; [now apply Hev | exact Hle]. }
  split.
  - intros Hb. unfold evolution_outcome.
    split; [exact Hlen1 |]. split; [exact Havg1 |]. split; [lia |].
    intros c Hc. destruct (Hfacts c Hc) as [Hev Hle].
    split; [exact Hev |]. split; [exact Hle |].
    split; [now apply (Hset1 c) | now right].
  - intros Hb elite rest He. unfold history_invariant.
    split; [now apply Hnext |].
    cbn [with_population avg_fitness_history best_fitness_history
           generations_without_improvement best_chromosome best_fitness].
    repeat (split; [assumption |]). exact Hset1.
Qed.

Lemma generation_loop_outcome n st :
  history_invariant self wf rf n st ->
  post (generation_loop self wf rf n st) (evolution_outcome self wf rf).
Proof.
  apply (generation_loop_exits (history_invariant self wf rf)).
  - intros st0 (Hel & Hlen & Havg & Hcount & Hst0 & Hset).
    unfold evolution_outcome. split; [exact Hlen |].
    split; [exact Havg |]. split; [lia |]. intros c Hc.
    destruct Hel as (_ & Hle & _ & Hev & _).
    split; [now apply Hev |]. split; [exact Hle |].
    split; [now apply (Hset c) | left; lia].
  - intros n0 st0 fits m st1. apply history_step.
Qed.

Lemma initial_state_history pop :
  length pop = Z.to_nat (population_size self) ->
  history_invariant self wf rf (Z.to_nat (max_generations self))
    (initial_state pop).
Proof.
  intros Hl. unfold history_invariant.
  split; [now apply initial_state_elitism |].
  cbn. split; [reflexivity |]. split; [constructor |].
  split; [reflexivity |]. split; [lia | discriminate].
Qed.

Lemma evolve_outcome :
  post (evolve self wf rf)
    (fun r =>
       ga_generations r = length (ga_best_history r)
       /\ length (ga_avg_history r) = length (ga_best_history r)
       /\ Forall2 Rle (ga_avg_history r) (ga_best_history r)
       /\ ga_generations r <= Z.to_nat (max_generations self)
       /\ forall c,
           ga_mapping r = Some c ->
           evaluate_chromosome self c wf rf = inr (ga_fitness r)
           /\ Forall (fun y => (y <= ga_fitness r)%R) (ga_best_history r)
           /\ last (ga_best_history r) 0%R = ga_fitness r
           /\ (ga_generations r = Z.to_nat (max_generations self)
               \/ settled (ga_best_history r)
                    (S (Z.to_nat (convergence_generations self)))
                    (ga_fitness r))).
Proof.
  unfold evolve.
  eapply post_bind;
    [apply (post_replicateM (create_chromosome self) (fun _ => True));
     apply post_true |].
  cbn beta. intros pop [Hl _].
  eapply post_bind;
    [apply generation_loop_outcome, initial_state_history; exact Hl |].
  intros st (Hlen & Havg & Hn & Hbest). apply post_ret.
  cbn [ga_generations ga_best_history ga_avg_history ga_mapping
         ga_fitness].
  split; [reflexivity |]. split; [exact Hlen |]. split; [exact Havg |].
  split; [exact Hn |]. intros c Hc.
  destruct (Hbest c Hc) as (Hev & Hle & Hset & Hstop).
  split; [exact Hev |]. split; [exact Hle |].
  split; [eapply settled_last; exact Hset |].
  destruct Hstop as [Hfull | Hbreak]; [now left | right].
  eapply settled_fewer; [exact Hset | lia].
Qed.

End Outcome.

Lemma evolve_reports_best_aux (self : GeneticAlgorithm)
  (wf rf : list StrokeFeatures) :
  valid_ga self wf rf ->
  (1 <= max_generations self)%Z ->
  returns (evolve self wf rf)
    (fun r =>
       exists c,
         ga_mapping r = Some c
         /\ evaluate_chromosome self c wf rf = inr (ga_fitness r)
         /\ (0 < ga_fitness r <= 1)%R
         /\ last (ga_best_history r) 0%R = ga_fitness r).
Proof.
  intros Hvalid Hgen.
  eapply returns_weaken;
    [apply returns_and;
       [apply (evolve_returns self wf rf Hvalid)
       | apply (evolve_outcome self wf rf)] |].
  cbn beta. intros r [(_ & Hsome & _) (_ & _ & _ & _ & Hbest)].
  destruct (Hsome Hgen) as [Hm _].
  destruct (ga_mapping r) as [c |] eqn:Ec; [| congruence].
  destruct (Hbest c eq_refl) as (Hev & Hle & Hlast & _).
  exists c. split; [reflexivity |]. split; [exact Hev |].
  split; [| assumption].
  destruct Hvalid as (_ & _ & Hw & Hwf & Hrf & _).
  exact (evaluate_range self c wf rf _ Hw Hwf Hrf Hev).
Qed.








(* ===================================================================== *)
(** ** The result record of [match] *)
(* ===================================================================== *)

Section ResultRecord.

Variable self : StrokeMatcher.
Variables written reference : list ndarray.

Hypothesis Hwritten : valid_strokes written = true.
Hypothesis Hreference : valid_strokes reference = true.

Lemma evolve_no_generation ga wf rf :
  (max_generations ga <= 0)%Z ->
  returns (evolve ga wf rf)
    (fun r => ga_mapping r = None /\ ga_fitness r = 0%R
              /\ ga_generations r = 0).
Proof.
  intros Hg. unfold evolve.
  eapply returns_bind;
    [apply returns_replicateM, create_chromosome_returns |].
  intros pop _.
  replace (Z.to_nat (max_generations ga)) with 0 by lia.
  cbn [generation_loop].
  eapply returns_bind with (P := fun st => st = initial_state pop);
    [now apply returns_ret |].
  intros st ->. apply returns_ret. cbn. auto.
Qed.

Lemma match_no_generation :
  (sm_max_generations self <= 0)%Z ->
  fails (match_ self written reference) TypeError.
Proof.
  intros Hg. destruct (match_run self written reference Hwritten Hreference)
    as [meta Hrun].
  eapply fails_ext; [exact Hrun |]. cbn zeta.
  eapply fails_bind_r; [apply evolve_no_generation; exact Hg |].
  cbn beta. intros r (Hm & _). rewrite Hm.
  apply fails_bind_l. now apply fails_lift.
Qed.

Lemma match_record :
  valid_matcher self -> written <> [] ->
  returns (match_ self written reference)
    (fun res =>
       evaluate_chromosome
         (matcher_ga self (length written) (length reference))
         (mapping res) (written_features res) (reference_features res)
       = inr (fitness res)
       /\ (0 < fitness res <= 1)%R
       /\ last (history_best_fitness res) 0%R = fitness res
       /\ length (written_features res) = length written
       /\ length (reference_features res) = length reference
       /\ generations res = length (history_best_fitness res)
       /\ generations res = length (history_avg_fitness res)
       /\ Nat.min (Z.to_nat (sm_max_generations self)) 11
          <= generations res <= Z.to_nat (sm_max_generations self)).
Proof.
  intros Hv Hne.
  destruct (match_run self written reference Hwritten Hreference)
    as [meta Hrun].
  eapply returns_ext; [exact Hrun |]. cbn zeta.
  pose proof (matcher_ga_valid self written reference Hwritten Hv Hne)
    as Hga.
  assert (Hgen : (1 <= max_generations
                        (matcher_ga self (length written)
                           (length reference)))%Z)
    by (destruct Hv as (_ & Hg & _); exact Hg).
  eapply returns_bind.
  { apply returns_and;
      [apply returns_and;
         [apply (evolve_returns _ _ _ Hga)
         | apply returns_post, (evolve_reports_best_aux _ _ _ Hga Hgen)]
      | apply evolve_outcome]. }
  cbn beta.
  intros r [[(Hshape & _) (c & Ec & Hev & Hrange & Hlast)]
              (Hg & Hlen & _ & Hmax & Hbest)].
  rewrite Ec. specialize (Hshape c Ec). destruct Hshape as [Hl Hf].
  cbn [n_written n_reference matcher_ga GeneticAlgorithm_init] in Hl, Hf.
  destruct (detect_errors_returns (error_detector self) c
              (map stroke_features (prepared self written))
              (map stroke_features (prepared self reference)))
    as [errs Eerrs].
  { rewrite length_map, prepared_length. lia. }
  step_lift errs. apply returns_ret. cbn.
  split; [exact Hev |]. split; [exact Hrange |]. split; [exact Hlast |].
  rewrite !length_map, !prepared_length.
  split; [reflexivity |]. split; [reflexivity |].
  split; [exact Hg |]. split; [now rewrite Hlen |].
  cbn [max_generations matcher_ga GeneticAlgorithm_init] in Hmax.
  split; [| exact Hmax].
  destruct (Hbest c Ec) as (_ & _ & _ & Hstop).
  cbn [max_generations convergence_generations matcher_ga
         GeneticAlgorithm_init] in Hstop.
  destruct Hstop as [Hfull | Hset]; [lia |].
  apply settled_length in Hset. rewrite Hg. cbn in Hset. lia.
Qed.

End ResultRecord.

(** X16.  The result record of [match] is consistent.  On valid
    input, every run returns a record whose fitness is the fitness of its
    mapping under the features it carries, lies in [(0, 1]] and closes
    the best-fitness history; it carries one feature record per stroke,
    and its generation count is the length of both histories, at most
    [max_generations] and at least [min(max_generations, 11)], the
    optimizer being built with its default of ten stagnant generations. *)
Theorem match_result_record (self : StrokeMatcher)
  (written reference : list ndarray) :
  valid_matcher self ->
  written <> [] ->
  valid_strokes written = true ->
  valid_strokes reference = true ->
  returns (match_ self written reference)
    (fun res =>
       evaluate_chromosome
         (matcher_ga self (length written) (length reference))
         (mapping res) (written_features res) (reference_features res)
       = inr (fitness res)
       /\ (0 < fitness res <= 1)%R
       /\ last (history_best_fitness res) 0%R = fitness res
       /\ length (written_features res) = length written
       /\ length (reference_features res) = length reference
       /\ generations res = length (history_best_fitness res)
       /\ generations res = length (history_avg_fitness res)
       /\ Nat.min (Z.to_nat (sm_max_generations self)) 11
          <= generations res <= Z.to_nat (sm_max_generations self)).
Proof.
  intros Hv Hne Hw Hr. now apply match_record.
Qed.

Lemma match_result_record_witness :
  returns (match_ default_matcher
             [[[0; 1]; [0; 0]]]%R [[[0; 1]; [0; 0]]; [[0; 0]; [0; 1]]]%R)
    (fun res =>
       evaluate_chromosome (matcher_ga default_matcher 1 2)
         (mapping res) (written_features res) (reference_features res)
       = inr (fitness res)
       /\ (0 < fitness res <= 1)%R
       /\ last (history_best_fitness res) 0%R = fitness res
       /\ length (written_features res) = 1
       /\ length (reference_features res) = 2
       /\ generations res = length (history_best_fitness res)
       /\ generations res = length (history_avg_fitness res)
       /\ 11 <= generations res <= 100).
Proof.
  apply (match_result_record default_matcher
           [[[0; 1]; [0; 0]]]%R [[[0; 1]; [0; 0]]; [[0; 0]; [0; 1]]]%R);
    [ repeat split; simpl; try lra; lia
    | discriminate | reflexivity | reflexivity ].
Defined.

(** X17.  Without a generation there is no mapping.  When
    [max_generations] is not positive, [evolve] returns with mapping
    [None], fitness 0 and zero generations, and [match] on valid strokes
    raises [TypeError] in the classifier on every run. *)
Theorem match_without_generations (self : StrokeMatcher)
  (written reference : list ndarray) (wf rf : list StrokeFeatures) :
  (sm_max_generations self <= 0)%Z ->
  valid_strokes written = true ->
  valid_strokes reference = true ->
  returns (evolve (matcher_ga self (length written) (length reference))
             wf rf)
    (fun r => ga_mapping r = None /\ ga_fitness r = 0%R
              /\ ga_generations r = 0)
  /\ fails (match_ self written reference) TypeError.
Proof.
  intros Hg Hw Hr. split.
  - apply evolve_no_generation. exact Hg.
  - now apply match_no_generation.
Qed.

Lemma match_without_generations_witness :
  returns (evolve (matcher_ga
                     (StrokeMatcher_init 1 1 1 1 None 0 (PI / 4) true) 1 1)
             [origin_features] [origin_features])
    (fun r => ga_mapping r = None /\ ga_fitness r = 0%R
              /\ ga_generations r = 0)
  /\ fails (match_ (StrokeMatcher_init 1 1 1 1 None 0 (PI / 4) true)
              [[[0; 1]; [0; 0]]]%R [[[0; 1]; [0; 0]]]%R) TypeError.
Proof.
  apply (match_without_generations
           (StrokeMatcher_init 1 1 1 1 None 0 (PI / 4) true)
           [[[0; 1]; [0; 0]]]%R [[[0; 1]; [0; 0]]]%R
           [origin_features] [origin_features]);
    [cbn; lia | reflexivity | reflexivity].
Defined.

(* ===================================================================== *)
(** ** The cost of an assignment *)
(* ===================================================================== *)

Section Cost.

Variable self : FitnessFunction.
Variables wf rf : list StrokeFeatures.
Variables wtl rtl : R * R.

Lemma distance_loop_index_error : forall m idx total,
  idx <= length wf ->
  length wf < idx + length m ->
  distance_loop self wf rf wtl rtl idx m total = inl IndexError.
Proof.
  induction m as [| r rest IH]; intros idx total Hidx Hlen;
    [cbn in Hlen; lia |].
  cbn [distance_loop].
  destruct (Nat.le_gt_cases (length wf) idx) as [Hout | Hin].
  - now rewrite (index_inl wf idx Hout).
  - rewrite (index_inr wf idx origin_features Hin). cbn [rbind].
    cbn [length] in Hlen.
    destruct ((r =? 0) || (length rf <? r)) eqn:G.
    + apply IH; lia.
    + apply orb_false_iff in G. destruct G as [G1 G2].
      apply Nat.eqb_neq in G1. apply Nat.ltb_ge in G2.
      rewrite (index_inr rf (r - 1) origin_features) by lia.
      cbn [rbind]. apply IH; lia.
Qed.

Lemma distance_loop_penalty :
  nonneg_weights self -> features_ok wf -> features_ok rf ->
  forall m idx total d,
    distance_loop self wf rf wtl rtl idx m total = inr d ->
    (total + 1000 * INR (length (filter (unmatched (length rf)) m))
     <= d)%R.
Proof.
  intros Hw Hwf Hrf.
  induction m as [| r rest IH]; intros idx total d H;
    cbn [distance_loop] in H.
  - injection H as <-. cbn. lra.
  - destruct (index wf idx) as [e | w] eqn:Ew; [discriminate |].
    cbn [rbind] in H. cbn [filter]. unfold unmatched at 1.
    destruct ((r =? 0) || (length rf <? r)) eqn:G.
    + apply IH in H. cbn [length]. rewrite S_INR. lra.
    + destruct (index rf (r - 1)) as [e | f] eqn:Ef; [discriminate |].
      cbn [rbind] in H. apply IH in H.
      assert (Hp : (0 <= pair_distance self wtl rtl w f)%R).
      { apply pair_distance_nonneg; [exact Hw | |].
        - unfold features_ok in Hwf. rewrite Forall_forall in Hwf.
          eapply Hwf, index_In; eauto.
        - unfold features_ok in Hrf. rewrite Forall_forall in Hrf.
          eapply Hrf, index_In; eauto. }
      lra.
Qed.





End Cost.

(** X18.  [compute_distance] returns a distance exactly when the
    mapping is no longer than the written features; a longer mapping
    raises [IndexError], also when the surplus entries are zeros.  With
    weights that are not negative the distance is at least 1000 for each
    entry that is 0 or exceeds the number of references. *)
Theorem compute_distance_penalty (self : FitnessFunction)
  (wf rf : list StrokeFeatures) (mapping : list nat) :
  (length wf < length mapping ->
   compute_distance self wf rf mapping = inl IndexError)
  /\ (length mapping <= length wf ->
      exists d,
        compute_distance self wf rf mapping = inr d
        /\ (nonneg_weights self -> features_ok wf -> features_ok rf ->
            (1000 * INR (length (filter (unmatched (length rf)) mapping))
             <= d)%R)).
Proof.
  unfold compute_distance.
  destruct (bbox_tl_returns rf) as [rtl ->].
  destruct (bbox_tl_returns wf) as [wtl ->]. cbn [rbind]. split.
  - intros Hlen. apply distance_loop_index_error; [lia | exact Hlen].
  - intros Hlen.
    destruct (distance_loop_returns self wf rf wtl rtl mapping 0 0%R)
      as [d Hd]; [cbn; exact Hlen |].
    exists d. split; [exact Hd |]. intros Hw Hwf Hrf.
    pose proof (distance_loop_penalty self wf rf wtl rtl Hw Hwf Hrf
                  _ _ _ _ Hd). lra.
Qed.

Lemma compute_distance_penalty_witness :
  compute_distance (mkFitnessFunction 1 1 1 1)
    [origin_features] [origin_features] [0; 0] = inl IndexError
  /\ exists d,
      compute_distance (mkFitnessFunction 1 1 1 1)
        [origin_features] [origin_features] [0] = inr d
      /\ (1000 * INR 1 <= d)%R.
Proof.
  split.
  - apply (proj1 (compute_distance_penalty (mkFitnessFunction 1 1 1 1)
                    [origin_features] [origin_features] [0; 0])).
    cbn. lia.
  - destruct (proj2 (compute_distance_penalty (mkFitnessFunction 1 1 1 1)
                       [origin_features] [origin_features] [0])
                ltac:(cbn; lia)) as (d & Hd & Hp).
    exists d. split; [exact Hd |].
    apply Hp; [repeat split; cbn; lra | |]; apply origin_features_ok.
Defined.






(* ===================================================================== *)
(** ** What normalization achieves *)
(* ===================================================================== *)

Section Normalization.












End Normalization.





Section Similarity.










End Similarity.



(* ===================================================================== *)
(** ** The geometry of the extracted features *)
(* ===================================================================== *)

Section Geometry.








End Geometry.



Section Zoom.















End Zoom.



(* ===================================================================== *)
(** ** Injected errors and what [match] makes of them *)
(* ===================================================================== *)

Section Injection.

Lemma match_classified (self : StrokeMatcher)
  (written reference : list ndarray) :
  valid_matcher self -> written <> [] ->
  valid_strokes written = true -> valid_strokes reference = true ->
  returns (match_ self written reference)
    (fun res =>
       shape_ok (length written) (length reference) (mapping res)
       /\ length (reference_features res) = length reference
       /\ detect_errors (error_detector self) (mapping res)
            (written_features res) (reference_features res)
          = inr (errors res)).
Proof.
  intros Hv Hne Hw Hr.
  eapply returns_weaken;
    [exact (match_returns self written reference Hw Hr Hv Hne) |].
  cbn beta. intros res (Hs & _ & _ & _ & _ & Hrf & Hd).
  split; [exact Hs |]. split; [| exact Hd].
  rewrite Hrf, length_map. apply prepared_length.
Qed.

Lemma valid_strokes_forall strokes :
  valid_strokes strokes = true
  <-> forall s, In s strokes -> valid_stroke s = true.
Proof. unfold valid_strokes. apply forallb_forall. Qed.

Lemma pop_returns {A} (l : list A) i d :
  i < length l ->
  pop l i = inr (nth i l d, firstn i l ++ skipn (S i) l).
Proof.
  intros Hi. unfold pop. now rewrite (nth_error_nth' l d Hi).
Qed.

Lemma length_removed {A} (l : list A) i :
  i < length l -> length (firstn i l ++ skipn (S i) l) = length l - 1.
Proof.
  intros Hi. rewrite length_app, length_firstn, length_skipn. lia.
Qed.

Lemma inject_missing_stroke_returns strokes :
  2 <= length strokes ->
  returns (inject_missing_stroke strokes)
    (fun w =>
       exists idx,
         idx < length strokes
         /\ snd w = Some idx
         /\ fst w = firstn idx strokes ++ skipn (S idx) strokes).
Proof.
  intros Hlen. unfold inject_missing_stroke.
  replace (length strokes <=? 1) with false
    by (symmetry; apply Nat.leb_gt; lia).
  eapply returns_bind; [apply returns_randint; lia |].
  cbn beta. intros idx Hidx.
  pose proof (pop_returns strokes idx [] ltac:(lia)) as Epop.
  step_lift (nth idx strokes [], firstn idx strokes ++ skipn (S idx) strokes).
  apply returns_ret. exists idx. cbn [fst snd]. split; [lia | auto].
Qed.

Lemma set_index_replace_at {A} (l : list A) : forall i v,
  i < length l -> set_index l i v = inr (replace_at i v l).
Proof.
  induction l as [| h t IH]; intros i v Hi; [cbn in Hi; lia |].
  destruct i as [| i]; [reflexivity |]. cbn [set_index replace_at].
  rewrite IH by (cbn in Hi; lia). reflexivity.
Qed.


Lemma exchange_swap {A} (l : list A) i j :
  i < length l -> j < length l -> exchange l i j = inr (swap l i j).
Proof.
  intros Hi Hj. unfold exchange, swap, index.
  destruct (nth_error l j) as [b |] eqn:Eb;
    [| apply nth_error_None in Eb; lia].
  destruct (nth_error l i) as [a |] eqn:Ea;
    [| apply nth_error_None in Ea; lia].
  cbn [rbind].
  destruct (set_index_returns l i b Hi) as [l1 E1]. rewrite E1.
  cbn [rbind].
  assert (Hj1 : j < length l1)
    by (now rewrite (set_index_length _ _ _ _ E1)).
  destruct (set_index_returns l1 j a Hj1) as [l2 E2]. now rewrite E2.
Qed.

Lemma order_error_loop_returns n : forall strokes acc,
  (1 <= n -> 2 <= length strokes) ->
  returns (order_error_loop n strokes acc)
    (fun r =>
       Permutation strokes (fst r)
       /\ exists pairs,
           snd r = acc ++ pairs
           /\ length pairs = n
           /\ Forall (fun ij => fst ij <> snd ij
                                /\ fst ij < length strokes
                                /\ snd ij < length strokes) pairs).
Proof.
  induction n as [| n IH]; intros strokes acc Hlen;
    cbn [order_error_loop].
  - apply returns_ret. cbn [fst snd]. split; [reflexivity |].
    exists []. rewrite app_nil_r. auto.
  - specialize (Hlen ltac:(lia)).
    eapply returns_bind; [apply returns_choice_distinct; lia |].
    cbn beta. intros ij (Hnd & Hl & Hlt).
    destruct ij as [| i [| j [| k ij]]]; try discriminate.
    inversion Hnd as [| ? ? Hni _]; subst.
    inversion Hlt as [| ? ? Hi Hlt']; subst.
    inversion Hlt' as [| ? ? Hj _]; subst.
    assert (Hij : i <> j) by (intros ->; apply Hni; now left).
    pose proof (exchange_swap strokes i j Hi Hj) as Eex.
    step_lift (swap strokes i j).
    eapply returns_weaken;
      [apply IH; rewrite swap_length; intros _; exact Hlen |].
    cbn beta. intros r (Hp & pairs & Hs & Hn & Hf).
    split;
      [eapply Permutation_trans; [apply swap_Permutation | exact Hp] |].
    exists ((i, j) :: pairs). rewrite Hs, <- app_assoc.
    split; [reflexivity |]. split; [cbn; now rewrite Hn |].
    constructor; [cbn; auto |].
    eapply Forall_impl; [| exact Hf]. cbn beta.
    now rewrite swap_length.
Qed.

End Injection.

(** X26.  [inject_order_error] only rearranges: the list it
    returns holds the same strokes as its argument, each as often as
    before, and it reports [min(n_swaps, len(strokes) // 2)] exchanges,
    each of two different positions of the list. *)
Theorem inject_order_error_permutes (strokes : list ndarray) (n_swaps : Z) :
  returns (inject_order_error strokes n_swaps)
    (fun r =>
       Permutation strokes (fst r)
       /\ length (snd r)
          = Z.to_nat (Z.min n_swaps (Z.of_nat (length strokes / 2)))
       /\ Forall (fun ij => fst ij <> snd ij
                            /\ fst ij < length strokes
                            /\ snd ij < length strokes) (snd r)).
Proof.
  unfold inject_order_error.
  eapply returns_weaken; [apply order_error_loop_returns |].
  - intros Hn.
    assert (1 <= length strokes / 2) by lia.
    destruct (Nat.le_gt_cases 2 (length strokes)) as [H2 | H2];
      [exact H2 |].
    rewrite Nat.div_small in H by exact H2. lia.
  - cbn beta. intros r (Hp & pairs & Hs & Hn & Hf).
    cbn [app] in Hs. rewrite Hs. auto.
Qed.

(** X27.  A removed stroke is always noticed.  If one of at
    least two written strokes is removed by [inject_missing_stroke] and
    the rest is matched against a reference of the original length, then
    on every run the assignment has one entry less and the error list
    holds a MISSING record. *)
Theorem missing_stroke_reported (self : StrokeMatcher)
  (written reference : list ndarray) :
  valid_matcher self ->
  valid_strokes written = true ->
  valid_strokes reference = true ->
  length written = length reference ->
  2 <= length written ->
  returns (w <- inject_missing_stroke written ;;
           match_ self (fst w) reference)
    (fun res =>
       length (mapping res) = length written - 1
       /\ exists j, In (MISSING j) (errors res)).
Proof.
  intros Hv Hw Hr Hlen H2.
  eapply returns_bind; [apply inject_missing_stroke_returns; exact H2 |].
  cbn beta. intros [w d] (idx & Hidx & _ & Ew). cbn [fst snd] in *.
  subst w.
  pose proof (length_removed written idx Hidx) as Hl.
  eapply returns_weaken; [apply match_classified; try assumption |].
  - intros E. rewrite E in Hl. cbn in Hl. lia.
  - apply valid_strokes_forall. intros s Hs.
    apply (proj1 (valid_strokes_forall written) Hw).
    apply in_app_iff in Hs. destruct Hs as [Hs | Hs];
      [eapply In_firstn | eapply In_skipn]; exact Hs.
  - cbn beta. intros res ([Hm _] & HR & Hd). rewrite Hl in Hm.
    split; [exact Hm |].
    pose proof (detect_errors_deficit _ _ _ _ _ Hd) as Hc.
    rewrite HR, Hm in Hc.
    destruct (filter is_missing (errors res)) as [| e l] eqn:Ef;
      [cbn in Hc; lia |].
    assert (He : In e (filter is_missing (errors res)))
      by (rewrite Ef; now left).
    apply filter_In in He. destruct He as [He Hk].
    destruct e; try discriminate. eauto.
Qed.

Lemma missing_stroke_reported_witness :
  returns (w <- inject_missing_stroke
                  [[[0; 1]; [0; 0]]; [[0; 0]; [0; 1]]]%R ;;
           match_ default_matcher (fst w)
             [[[0; 1]; [0; 0]]; [[0; 0]; [0; 1]]]%R)
    (fun res =>
       length (mapping res) = 2 - 1
       /\ exists j, In (MISSING j) (errors res)).
Proof.
  apply (missing_stroke_reported default_matcher
           [[[0; 1]; [0; 0]]; [[0; 0]; [0; 1]]]%R
           [[[0; 1]; [0; 0]]; [[0; 0]; [0; 1]]]%R);
    [ repeat split; simpl; try lra; lia
    | reflexivity | reflexivity | reflexivity | simpl; lia ].
Defined.



Section BrokenStroke.

Lemma xs_map_rows (f : list R -> list R) (s : list (list R)) :
  f [] = [] -> xs (map f s) = f (xs s).
Proof.
  intros Hf. unfold xs. rewrite <- Hf at 1. apply map_nth.
Qed.

Lemma ys_map_rows (f : list R -> list R) (s : list (list R)) :
  f [] = [] -> ys (map f s) = f (ys s).
Proof.
  intros Hf. unfold ys. rewrite <- Hf at 1. apply map_nth.
Qed.

Lemma valid_stroke_map_rows (f : list R -> list R) s :
  f [] = [] -> 2 <= length s -> f (xs s) <> [] -> f (ys s) <> [] ->
  valid_stroke (map f s) = true.
Proof.
  intros Hf Hl Hx Hy. unfold valid_stroke.
  rewrite (xs_map_rows f s Hf), (ys_map_rows f s Hf), length_map.
  apply andb_true_iff. split; [apply andb_true_iff; split |].
  - now apply Nat.leb_le.
  - apply Nat.ltb_lt. destruct (f (xs s)); [congruence | cbn; lia].
  - apply Nat.ltb_lt. destruct (f (ys s)); [congruence | cbn; lia].
Qed.

Lemma pad_to_50_valid s :
  valid_stroke s = true -> valid_stroke (pad_to_50 s) = true.
Proof.
  intros Hv. destruct (valid_stroke_inv _ Hv) as (Hl & Hx & Hy).
  unfold pad_to_50. destruct (ncols s <? 50).
  - apply valid_stroke_map_rows; [reflexivity | exact Hl | |].
    + destruct (xs s); [congruence | discriminate].
    + destruct (ys s); [congruence | discriminate].
  - apply valid_stroke_map_rows; [reflexivity | exact Hl | |].
    + destruct (xs s); [congruence | discriminate].
    + destruct (ys s); [congruence | discriminate].
Qed.

Lemma nonempty_length {A} (l : list A) : 0 < length l -> l <> [].
Proof. destruct l; [cbn; lia | discriminate]. Qed.

Lemma first_part_valid s k :
  valid_stroke s = true -> valid_stroke (map (firstn (k + 1)) s) = true.
Proof.
  intros Hv. destruct (valid_stroke_inv _ Hv) as (Hl & Hx & Hy).
  apply valid_stroke_map_rows; [apply firstn_nil | exact Hl | |];
    apply nonempty_length; rewrite length_firstn.
  - destruct (xs s); [congruence | cbn [length]; lia].
  - destruct (ys s); [congruence | cbn [length]; lia].
Qed.

Lemma second_part_valid s k :
  2 <= length s -> k < length (xs s) -> k < length (ys s) ->
  valid_stroke (map (skipn k) s) = true.
Proof.
  intros Hl Hx Hy.
  apply valid_stroke_map_rows; [apply skipn_nil | exact Hl | |];
    apply nonempty_length; rewrite length_skipn; lia.
Qed.

Lemma insert_at_length {A} (l : list A) i x :
  length (insert_at l i x) = S (length l).
Proof.
  unfold insert_at. rewrite length_app. cbn [length].
  rewrite length_firstn, length_skipn. lia.
Qed.

Lemma insert_at_In {A} (l : list A) i x y :
  In y (insert_at l i x) -> y = x \/ In y l.
Proof.
  unfold insert_at. rewrite in_app_iff. cbn [In].
  intros [H | [H | H]]; [right | now left | right].
  - eapply In_firstn. exact H.
  - eapply In_skipn. exact H.
Qed.

Lemma inject_broken_stroke_returns strokes :
  strokes <> [] ->
  valid_strokes strokes = true ->
  Forall (fun s : list (list R) =>
            35 <= length (xs s) /\ 35 <= length (ys s)) strokes ->
  returns (inject_broken_stroke strokes)
    (fun w => valid_strokes (fst w) = true
              /\ length (fst w) = S (length strokes)).
Proof.
  intros Hne Hv Hlong. unfold inject_broken_stroke.
  assert (Hlen : 0 < length strokes)
    by (destruct strokes; [congruence | cbn; lia]).
  replace (length strokes =? 0) with false
    by (symmetry; apply Nat.eqb_neq; lia).
  eapply returns_bind; [apply returns_randint; lia |].
  cbn beta. intros idx Hidx.
  pose proof (index_inr strokes idx [] ltac:(lia)) as Eidx.
  step_lift (nth idx strokes []).
  eapply returns_bind; [apply returns_randint; lia |].
  cbn beta. intros split_point Hsp. cbn zeta.
  set (stroke := nth idx strokes []).
  assert (Hin : In stroke strokes) by (apply nth_In; lia).
  pose proof (proj1 (valid_strokes_forall strokes) Hv stroke Hin) as Hs.
  rewrite Forall_forall in Hlong. destruct (Hlong stroke Hin) as [Hx Hy].
  destruct (valid_stroke_inv _ Hs) as (Hrows & _ & _).
  pose proof (set_index_replace_at strokes idx
                (pad_to_50 (map (firstn (split_point + 1)) stroke))
                ltac:(lia)) as Eset.
  step_lift (replace_at idx
               (pad_to_50 (map (firstn (split_point + 1)) stroke))
               strokes).
  apply returns_ret. cbn [fst]. split.
  - apply valid_strokes_forall. intros s Hin'.
    apply insert_at_In in Hin'. destruct Hin' as [-> | Hin'].
    + apply pad_to_50_valid, second_part_valid; lia.
    + revert s Hin'. apply valid_strokes_forall.
      apply valid_strokes_replace_at; [exact Hv |].
      now apply pad_to_50_valid, first_part_valid.
  - now rewrite insert_at_length, length_replace_at.
Qed.

End BrokenStroke.

(** X29.  A broken stroke is reported as extra, never as
    broken.  If [inject_broken_stroke] splits one of the written strokes
    (each with at least 35 points) into two and the result is matched
    against a reference with as many strokes as were written, then on
    every run the assignment has one entry more, the error list holds an
    EXTRA record, and it holds no BROKEN record. *)
Theorem broken_stroke_reported_as_extra (self : StrokeMatcher)
  (written reference : list ndarray) :
  valid_matcher self ->
  written <> [] ->
  valid_strokes written = true ->
  valid_strokes reference = true ->
  length written = length reference ->
  Forall (fun s : ndarray =>
            35 <= length (xs s) /\ 35 <= length (ys s)) written ->
  returns (w <- inject_broken_stroke written ;;
           match_ self (fst w) reference)
    (fun res =>
       length (mapping res) = S (length written)
       /\ (exists ws r, In (EXTRA ws r) (errors res))
       /\ Forall (fun e => is_broken e = false) (errors res)).
Proof.
  intros Hv Hne Hw Hr Hlen Hlong.
  eapply returns_bind;
    [apply inject_broken_stroke_returns; assumption |].
  cbn beta. intros [w d] [Hw' Hl]. cbn [fst] in *.
  eapply returns_weaken; [apply match_classified; try assumption |].
  - intros E. rewrite E in Hl. discriminate.
  - cbn beta. intros res ([Hm Hf] & HR & Hd). rewrite Hl in Hm.
    split; [exact Hm |]. split.
    + apply (detect_errors_surplus _ _ _ _ _ Hd).
      * now rewrite HR.
      * rewrite HR, Hm. lia.
    + exact (detect_errors_not_broken _ _ _ _ _ Hd).
Qed.

Lemma broken_stroke_reported_as_extra_witness :
  returns (w <- inject_broken_stroke
                  [[repeat 0 35 ++ [1]; repeat 0 36]]%R ;;
           match_ default_matcher (fst w)
             [[repeat 0 35 ++ [1]; repeat 0 36]]%R)
    (fun res =>
       length (mapping res) = 2
       /\ (exists ws r, In (EXTRA ws r) (errors res))
       /\ Forall (fun e => is_broken e = false) (errors res)).
Proof.
  apply (broken_stroke_reported_as_extra default_matcher
           [[repeat 0 35 ++ [1]; repeat 0 36]]%R
           [[repeat 0 35 ++ [1]; repeat 0 36]]%R);
    [ repeat split; simpl; try lra; lia
    | discriminate | reflexivity | reflexivity | reflexivity
    | constructor; [cbn; lia | constructor] ].
Defined.

(* ===================================================================== *)
(** ** Preprocessing: scaling into the unit square, flipping the y axis *)
(* ===================================================================== *)

Section Preprocessing.













End Preprocessing.


